(** * rapid-mutex: a mutual-exclusion lock over one shared 32-bit word

    A shallow embedding of [src/index.js] and the properties of its
    acquisition / release protocol.

    The JavaScript module is embedded as follows.
    - Shared memory is a finite map from block addresses to byte lists; an
      [Int32Array] is a view (kind, backing block, byte offset, length) and
      its elements are read and written as four little-endian bytes.
    - Everything the program cannot decide by itself -- whether the host
      has [Atomics.waitAsync], the readings of [Date.now()], the stores
      that other participants make to shared memory between two of our
      accesses, and the outcome of a wait of the host -- is given by an
      [environment], indexed by the number of primitive operations
      performed so far.
    - Operations run in a state-and-exception monad over a [world] that
      holds the memory and the trace of primitive operations performed.
      The loops ([while (true)] in [lock] and [lockSync], the polling loop
      of the [waitAsync] fallback) take a fuel argument that bounds the
      number of iterations observed.
    - An [async] function is embedded as the computation it performs; a
      rejection of the promise it returns is a [Throw].  Handing control
      back to the scheduler ([await], [setImmediate]) is not an operation
      of its own: what other tasks do meanwhile is part of what the
      environment does before the next primitive. *)

From Stdlib Require Import ZArith Lia.
From Stdlib.Strings Require Import Byte.
From stdpp Require Import gmap strings list fin_maps pretty.

Local Open Scope Z_scope.

(** ** Numbers

    A JavaScript number is a binary64 value: NaN, the two infinities, an
    integer [Finite z], or a value that is no integer, [Fraction m e] for
    [m / 2^e] with [m] odd (binary64 has it when [m] fits in 53 bits and
    [e] is at most 1074).  The two zeros are not told apart: the module
    compares its timeout, subtracts from it and prints it, and none of
    these depends on the sign of a zero.

    Clock readings are integral ([Date.now()] counts milliseconds) and
    integers are computed with exactly, as binary64 does below 2^53.  An
    operation one operand of which is no integer is computed exactly and
    rounded to the nearest binary64 value. *)

Inductive number :=
  | NaN
  | PosInfinity
  | NegInfinity
  | Finite (z : Z)
  | Fraction (m : Z) (e : positive).

Abbreviation Infinity := PosInfinity (only parsing).

(** *** Rounding to binary64 *)

(** Numerator and binary exponent of a finite number: [a] is [n / 2^E]
    for [(n, E) = dyadic_of a]. *)
Definition dyadic_of (a : number) : Z * Z :=
  match a with
  | Finite z => (z, 0)
  | Fraction m e => (m, Z.pos e)
  | _ => (0, 0)
  end.

(** [n / 2^d] rounded to the nearest integer, a tie to the even one. *)
Definition round_half_even (n d : Z) : Z :=
  if d <=? 0 then n * 2 ^ (- d)
  else
    let q := n / 2 ^ d in
    let r := n `mod` 2 ^ d in
    let half := 2 ^ (d - 1) in
    if (half <? r) || ((r =? half) && Z.odd q) then q + 1 else q.

Fixpoint trailing_zeros (p : positive) : Z :=
  match p with
  | xO p' => 1 + trailing_zeros p'
  | _ => 0
  end.

(** The number that is [m / 2^E], in lowest terms. *)
Definition normalise (m E : Z) : number :=
  match m with
  | 0 => Finite 0
  | Z.pos p | Z.neg p =>
      if E <=? 0 then Finite (m * 2 ^ (- E))
      else
        let s := Z.min (trailing_zeros p) E in
        if E - s =? 0 then Finite (m / 2 ^ s)
        else Fraction (m / 2 ^ s) (Z.to_pos (E - s))
  end.

(** The binary64 value nearest to [n / 2^E], a tie to the one with the
    even significand: 53 significant bits, no bit below 2^-1074, and an
    infinity from 2^1024 on. *)
Definition binary64 (n E : Z) : number :=
  if n =? 0 then Finite 0
  else
    let a := Z.abs n in
    let drop := Z.max 0 (Z.max (Z.log2 a - 52) (E - 1074)) in
    let q := round_half_even a drop in
    let E' := E - drop in
    if (E' <=? 0) && (2 ^ 1024 <=? q * 2 ^ (- E'))
    then (if n <? 0 then NegInfinity else PosInfinity)
    else normalise (Z.sgn n * q) E'.

(** The binary64 value that a number is, or is nearest to. *)
Definition to_binary64 (n : number) : number :=
  match n with
  | Finite _ | Fraction _ _ => binary64 (dyadic_of n).1 (dyadic_of n).2
  | _ => n
  end.

Definition dyadic_add (a b : Z * Z) : Z * Z :=
  let E := Z.max a.2 b.2 in
  (a.1 * 2 ^ (E - a.2) + b.1 * 2 ^ (E - b.2), E).

Definition dyadic_opp (a : Z * Z) : Z * Z := (- a.1, a.2).

Definition dyadic_ltb (a b : Z * Z) : bool :=
  a.1 * 2 ^ b.2 <? b.1 * 2 ^ a.2.

Definition dyadic_eqb (a b : Z * Z) : bool :=
  a.1 * 2 ^ b.2 =? b.1 * 2 ^ a.2.

(** *** Comparison and arithmetic *)

(** [a === b] on numbers. *)
Definition number_eq (a b : number) : bool :=
  match a, b with
  | PosInfinity, PosInfinity => true
  | NegInfinity, NegInfinity => true
  | Finite x, Finite y => x =? y
  | Fraction _ _, Finite _ | Finite _, Fraction _ _ | Fraction _ _, Fraction _ _ =>
      dyadic_eqb (dyadic_of a) (dyadic_of b)
  | _, _ => false
  end.

(** [a !== b] on numbers. *)
Definition number_neq (a b : number) : bool := negb (number_eq a b).

(** [a < b] on numbers: false as soon as one side is NaN. *)
Definition number_lt (a b : number) : bool :=
  match a, b with
  | NaN, _ | _, NaN => false
  | _, NegInfinity => false
  | PosInfinity, _ => false
  | NegInfinity, _ => true
  | Finite _, PosInfinity => true
  | Finite x, Finite y => x <? y
  | Fraction _ _, PosInfinity => true
  | Fraction _ _, Finite _ | Finite _, Fraction _ _ | Fraction _ _, Fraction _ _ =>
      dyadic_ltb (dyadic_of a) (dyadic_of b)
  end.

(** [a > b] on numbers. *)
Definition number_gt (a b : number) : bool := number_lt b a.

(** [a <= b] and [a >= b] on numbers. *)
Definition number_le (a b : number) : bool :=
  match a, b with
  | NaN, _ | _, NaN => false
  | _, _ => negb (number_lt b a)
  end.

Definition number_ge (a b : number) : bool := number_le b a.

(** [a + b] on numbers. *)
Definition number_add (a b : number) : number :=
  match a, b with
  | NaN, _ | _, NaN => NaN
  | PosInfinity, NegInfinity | NegInfinity, PosInfinity => NaN
  | PosInfinity, _ | _, PosInfinity => PosInfinity
  | NegInfinity, _ | _, NegInfinity => NegInfinity
  | Finite x, Finite y => Finite (x + y)
  | Fraction _ _, Finite _ | Finite _, Fraction _ _ | Fraction _ _, Fraction _ _ =>
      let s := dyadic_add (dyadic_of a) (dyadic_of b) in binary64 s.1 s.2
  end.

(** [a - b] on numbers. *)
Definition number_sub (a b : number) : number :=
  match a, b with
  | NaN, _ | _, NaN => NaN
  | PosInfinity, PosInfinity => NaN
  | NegInfinity, NegInfinity => NaN
  | PosInfinity, _ => PosInfinity
  | NegInfinity, _ => NegInfinity
  | Finite _, PosInfinity => NegInfinity
  | Finite _, NegInfinity => PosInfinity
  | Finite x, Finite y => Finite (x - y)
  | Fraction _ _, PosInfinity => NegInfinity
  | Fraction _ _, NegInfinity => PosInfinity
  | Fraction _ _, Finite _ | Finite _, Fraction _ _ | Fraction _ _, Fraction _ _ =>
      let s := dyadic_add (dyadic_of a) (dyadic_opp (dyadic_of b)) in binary64 s.1 s.2
  end.

(** [Math.max(a, b)]. *)
Definition Math_max (a b : number) : number :=
  match a, b with
  | NaN, _ | _, NaN => NaN
  | PosInfinity, _ | _, PosInfinity => PosInfinity
  | NegInfinity, y => y
  | x, NegInfinity => x
  | Finite x, Finite y => Finite (Z.max x y)
  | Fraction _ _, Finite _ | Finite _, Fraction _ _ | Fraction _ _, Fraction _ _ =>
      if dyadic_ltb (dyadic_of a) (dyadic_of b) then b else a
  end.

(** *** The text of a number

    [Number::toString] with radix 10.  For a finite [x > 0] it takes the
    integers [n], [k] and [s] with [10^(k-1) <= s < 10^k] such that
    [s * 10^(n-k)] is a decimal that reads back as [x], with [k] as small
    as possible (and [s * 10^(n-k)] as near to [x] as possible), and
    writes the [k] digits of [s] with a decimal point or an exponent placed
    by [n]. *)

(** [a / 2^E < 10^n]. *)
Definition below_power_of_ten (a E n : Z) : bool :=
  a * 10 ^ Z.max 0 (- n) <? 2 ^ E * 10 ^ Z.max 0 n.

Fixpoint decimal_exponent_from (fuel : nat) (a E n : Z) : Z :=
  match fuel with
  | O => n
  | S fuel' =>
      if negb (below_power_of_ten a E n) then decimal_exponent_from fuel' a E (n + 1)
      else if below_power_of_ten a E (n - 1) then decimal_exponent_from fuel' a E (n - 1)
      else n
  end.

(** The [n] with [10^(n-1) <= a / 2^E < 10^n], for [0 < a]: searched from
    an estimate by the binary logarithm, which is off by one at most. *)
Definition decimal_exponent (a E : Z) : Z :=
  decimal_exponent_from 8 a E ((Z.log2 a - E) * 1233 / 4096 + 1).

(** The digits of the shortest decimal that reads back as the binary64
    value [x > 0] whose decimal exponent is [n].  Quantities are counted in
    units of [2^q], a quarter of the weight of the last bit of the
    significand [f] of [x]: [x] is [X = 4 f], and the decimals that read
    back as [x] are those from [lo] to [hi], half-way to the neighbours of
    [x], the two ends included when [f] is even (a tie is rounded to the
    even significand).  For [k = 1, 2, ...] the two multiples of [10^(n-k)]
    next to [x], [c1 * 10^(n-k) <= x < c2 * 10^(n-k)], are tried; the first
    [k] for which one of them lies in the interval gives the digits; when
    both do, the nearer to [x] is taken, and the even one when they are as
    near.  (17 digits always suffice.)  The result is [(c, k)]; [c] is
    [10^k] when [x] is printed as the next power of ten. *)
Fixpoint shortest_digits (fuel : nat) (X lo hi q : Z) (closed : bool) (n k : Z) : Z * Z :=
  let j := n - k in
  let A := 2 ^ Z.max 0 q * 10 ^ Z.max 0 (- j) in
  let B := 2 ^ Z.max 0 (- q) * 10 ^ Z.max 0 j in
  let c1 := X * A / B in
  let c2 := c1 + 1 in
  let inside c :=
    if closed then (lo * A <=? c * B) && (c * B <=? hi * A)
    else (lo * A <? c * B) && (c * B <? hi * A) in
  let d1 := X * A - c1 * B in
  let d2 := c2 * B - X * A in
  let nearest := if d1 <? d2 then c1 else if d2 <? d1 then c2
                 else if Z.even c1 then c1 else c2 in
  match fuel with
  | O => (nearest, k)
  | S fuel' =>
      match inside c1, inside c2 with
      | true, true => (nearest, k)
      | true, false => (c1, k)
      | false, true => (c2, k)
      | false, false => shortest_digits fuel' X lo hi q closed n (k + 1)
      end
  end.

Fixpoint strip_zeros (fuel : nat) (s : Z) : Z :=
  match fuel with
  | O => s
  | S fuel' => if s `mod` 10 =? 0 then strip_zeros fuel' (s / 10) else s
  end.

Fixpoint zeros (n : nat) : string :=
  match n with
  | O => ""
  | S n' => "0" +:+ zeros n'
  end.

(** The text of [s * 10^(n-k)], where [digits] are the [k] digits of [s]:
    the digits followed by zeros when [k <= n <= 21]; with a decimal point
    after the first [n] digits when [0 < n <= 21]; after "0." and [-n]
    zeros when [-6 < n <= 0]; and otherwise in exponent notation, with the
    exponent [n - 1] and its sign. *)
Definition decimal_text (digits : string) (n : Z) : string :=
  let k := Z.of_nat (String.length digits) in
  if (k <=? n) && (n <=? 21) then digits +:+ zeros (Z.to_nat (n - k))
  else if (0 <? n) && (n <=? 21) then
    String.substring 0 (Z.to_nat n) digits +:+ "." +:+
    String.substring (Z.to_nat n) (Z.to_nat (k - n)) digits
  else if (-6 <? n) && (n <=? 0) then "0." +:+ zeros (Z.to_nat (- n)) +:+ digits
  else
    let e := n - 1 in
    let exponent := (if e <? 0 then "-" else "+") +:+ pretty (Z.abs e) in
    if k =? 1 then digits +:+ "e" +:+ exponent
    else String.substring 0 1 digits +:+ "." +:+
         String.substring 1 (Z.to_nat (k - 1)) digits +:+ "e" +:+ exponent.

(** The text of the binary64 value [a / 2^E > 0].  The last bit of its
    significand weighs [2^p]; the neighbour below is half as far as the one
    above when [a / 2^E] is a power of two that is not the smallest normal
    value. *)
Definition positive_to_string (a E : Z) : string :=
  let p := Z.max (Z.log2 a - E - 52) (- 1074) in
  let q := p - 2 in
  let X := Z.shiftl a (- E - q) in
  let lo := if (a =? 2 ^ Z.log2 a) && (- 1074 <? p) then X - 1 else X - 2 in
  let hi := X + 2 in
  let n := decimal_exponent a E in
  let '(c, k) := shortest_digits 17 X lo hi q (Z.even (X / 4)) n 1 in
  let n := n + (Z.of_nat (String.length (pretty c)) - k) in
  decimal_text (pretty (strip_zeros 17 c)) n.

(** The text of a binary64 value. *)
Definition binary64_to_string (x : number) : string :=
  match x with
  | NaN => "NaN"
  | PosInfinity => "Infinity"
  | NegInfinity => "-Infinity"
  | Finite _ | Fraction _ _ =>
      let '(a, E) := dyadic_of x in
      if a =? 0 then "0"
      else if a <? 0 then "-" +:+ positive_to_string (- a) E
      else positive_to_string a E
  end.

(** [`${n}`]: the text of a number inside a template literal. *)
Definition number_to_string (n : number) : string :=
  binary64_to_string (to_binary64 n).

(** ** Bytes and 32-bit words *)

Definition byte_of_Z (z : Z) : byte :=
  default x00 (Byte.of_N (Z.to_N (z mod 256))).

Definition Z_of_byte (b : byte) : Z := Z.of_N (Byte.to_N b).

(** The four bytes of a 32-bit integer, least significant first. *)
Definition bytes_of_int32 (z : Z) : list byte :=
  [byte_of_Z z; byte_of_Z (z / 2 ^ 8); byte_of_Z (z / 2 ^ 16); byte_of_Z (z / 2 ^ 24)].

Definition unsigned_of_bytes (bs : list byte) : Z :=
  foldr (λ b acc, Z_of_byte b + 256 * acc) 0 bs.

(** The signed 32-bit integer held by four bytes. *)
Definition int32_of_bytes (bs : list byte) : Z :=
  let u := unsigned_of_bytes bs in
  if u <? 2 ^ 31 then u else u - 2 ^ 32.

(** [splice pos new bs] overwrites [bs] from position [pos] with [new]. *)
Definition splice (pos : nat) (new bs : list byte) : list byte :=
  take pos bs ++ new ++ drop (pos + length new) bs.

(** ** Shared memory *)

(** Block addresses. *)
Abbreviation loc := positive (only parsing).

Abbreviation memory := (gmap positive (list byte)) (only parsing).

(** An [ArrayBuffer] ([shared = false]) or a [SharedArrayBuffer]. *)
Record arraybuffer := ArrayBuffer {
  ab_shared : bool;
  ab_block : loc;
}.

Inductive elem_kind := Int8 | Uint8 | Int16 | Uint16 | Int32 | Uint32.

(** A typed array: a window of [view_length] elements on a buffer. *)
Record view := View {
  view_kind : elem_kind;
  view_buffer : arraybuffer;
  view_offset : nat;
  view_length : nat;
}.

(** Byte position of element [index] of an [Int32Array]. *)
Definition int32_pos (v : view) (index : nat) : nat :=
  (view_offset v + 4 * index)%nat.

(** Reading element [index] of an [Int32Array]; [None] when the index is
    outside the view or the view outside its block. *)
Definition load_int32 (m : memory) (v : view) (index : nat) : option Z :=
  match m !! ab_block (view_buffer v) with
  | Some bs =>
      if decide (index < view_length v ∧ int32_pos v index + 4 ≤ length bs)%nat
      then Some (int32_of_bytes (take 4 (drop (int32_pos v index) bs)))
      else None
  | None => None
  end.

Definition store_int32 (m : memory) (v : view) (index : nat) (z : Z) : memory :=
  alter (splice (int32_pos v index) (bytes_of_int32 z)) (ab_block (view_buffer v)) m.

(** A store made by another participant: one byte of one block. *)
Record store := Store {
  store_block : loc;
  store_pos : nat;
  store_byte : byte;
}.

Definition apply_store (m : memory) (s : store) : memory :=
  alter (λ bs : list byte, <[store_pos s := store_byte s]> bs) (store_block s) m.

Definition apply_stores (m : memory) (ss : list store) : memory :=
  foldl apply_store m ss.

(** ** Values

    A JavaScript string is a sequence of UTF-16 code units. *)

Definition jsstring := list N.

(** The code units of an ASCII literal. *)
Definition jsstring_of_string (s : string) : jsstring :=
  (λ a, Ascii.N_of_ascii a) <$> String.list_ascii_of_string s.

(** Property keys: names and symbols. *)
Inductive key :=
  | KString (name : string)
  | KSymbol (description : string).

Global Instance key_eq_dec : EqDecision key.
Proof. solve_decision. Defined.

#[local] Set Warnings "-register-all".

(** Values, and the functions among them.  The closures that the module
    itself creates are kept as data that records the buffer they capture;
    [CUser] stands for a function written by the caller. *)
Inductive value :=
  | VUndefined
  | VNull
  | VBoolean (b : bool)
  | VNumber (n : number)
  | VString (s : jsstring)
  | VSymbol (description : string)
  | VArrayBuffer (b : arraybuffer)
  | VTypedArray (v : view)
  | VObject (props : list (key * value))
  | VFunction (c : code)
with code :=
  | CLock (buffer : value)       (* timeoutMs => lock(buffer, timeoutMs) *)
  | CLockSync (buffer : value)   (* timeoutMs => lockSync(buffer, timeoutMs) *)
  | CUnlock (buffer : value)     (* () => unlock(buffer) *)
  | CIsLocked (buffer : value)   (* () => Atomics.load(buffer, 0) === LockStatus.Locked *)
  | CDispose (buffer : value)    (* () => unlock(buffer, true) *)
  | CUser (id : nat).

(** [typeof v]. *)
Definition typeof (v : value) : string :=
  match v with
  | VUndefined => "undefined"
  | VNull => "object"
  | VBoolean _ => "boolean"
  | VNumber _ => "number"
  | VString _ => "string"
  | VSymbol _ => "symbol"
  | VArrayBuffer _ | VTypedArray _ | VObject _ => "object"
  | VFunction _ => "function"
  end.

(** Truthiness: [!v] is [negb (truthy v)]. *)
Definition truthy (v : value) : bool :=
  match v with
  | VUndefined | VNull => false
  | VBoolean b => b
  | VNumber NaN => false
  | VNumber (Finite z) | VNumber (Fraction z _) => negb (z =? 0)
  | VNumber _ => true
  | VString s => negb (bool_decide (s = []))
  | _ => true
  end.

Fixpoint lookup_key (k : key) (props : list (key * value)) : value :=
  match props with
  | [] => VUndefined
  | (k', v) :: rest => if decide (k = k') then v else lookup_key k rest
  end.

(** [o.k] / [o[k]] for a value [o] that is neither [undefined] nor [null]:
    own properties of objects, [length] and [buffer] of typed arrays;
    anything else is [undefined]. *)
Definition property (o : value) (k : key) : value :=
  match o with
  | VObject props => lookup_key k props
  | VTypedArray v =>
      match k with
      | KString "length" => VNumber (Finite (Z.of_nat (view_length v)))
      | KString "buffer" => VArrayBuffer (view_buffer v)
      | _ => VUndefined
      end
  | _ => VUndefined
  end.

(** A parameter with a default value: [undefined] selects the default. *)
Definition default_param (arg dflt : value) : value :=
  match arg with
  | VUndefined => dflt
  | _ => arg
  end.

(** The [n]-th argument of a call. *)
Definition argument (n : nat) (args : list value) : value :=
  nth n args VUndefined.

(** ** [TextEncoder.encode]: UTF-16 code units to UTF-8 bytes *)

Definition byte_of_N (n : N) : byte :=
  default x00 (Byte.of_N (n mod 256)%N).

Definition is_high_surrogate (c : N) : bool := ((0xD800 <=? c) && (c <=? 0xDBFF))%N.
Definition is_low_surrogate (c : N) : bool := ((0xDC00 <=? c) && (c <=? 0xDFFF))%N.

(** Code points of a string; an unpaired surrogate becomes U+FFFD. *)
Fixpoint code_points (cs : jsstring) : list N :=
  match cs with
  | [] => []
  | c :: rest =>
      if is_high_surrogate c then
        match rest with
        | lo :: rest' =>
            if is_low_surrogate lo
            then (0x10000 + (c - 0xD800) * 0x400 + (lo - 0xDC00))%N :: code_points rest'
            else 0xFFFD%N :: code_points rest
        | [] => [0xFFFD%N]
        end
      else if is_low_surrogate c then 0xFFFD%N :: code_points rest
      else c :: code_points rest
  end.

Definition utf8_of_code_point (cp : N) : list byte :=
  if (cp <? 0x80)%N then [byte_of_N cp]
  else if (cp <? 0x800)%N then
    [byte_of_N (0xC0 + cp / 0x40); byte_of_N (0x80 + cp mod 0x40)]
  else if (cp <? 0x10000)%N then
    [byte_of_N (0xE0 + cp / 0x1000); byte_of_N (0x80 + (cp / 0x40) mod 0x40);
     byte_of_N (0x80 + cp mod 0x40)]
  else
    [byte_of_N (0xF0 + cp / 0x40000); byte_of_N (0x80 + (cp / 0x1000) mod 0x40);
     byte_of_N (0x80 + (cp / 0x40) mod 0x40); byte_of_N (0x80 + cp mod 0x40)].

Definition TextEncoder_encode (s : jsstring) : list byte :=
  concat (utf8_of_code_point <$> code_points s).

(** ** Errors *)

Inductive exn :=
  | MutexError (message : string)
  | TypeError (message : string)
  | RangeError (message : string)
  | Thrown (v : value).

(** ** Environment, world and trace *)

(** The primitive operations a participant performs, with what they
    returned. *)
Inductive event :=
  | EvNow (t : Z)
  | EvCompareExchange (v : view) (index : nat) (expected replacement old : Z)
  | EvLoad (v : view) (index : nat) (old : Z)
  | EvWait (async : bool) (v : view) (index : nat) (expected : Z)
           (timeout : number) (outcome : string)
  | EvNotify (v : view) (index : nat).

(** The host and the rest of the system.  [env_native_waitAsync] tells
    whether the host has [Atomics.waitAsync].  The other fields are indexed
    by the number of primitive operations this participant has performed
    so far: the clock reading, the stores of other participants that land
    before the operation, and what a wait that has to block finally
    reports. *)
Record environment := Environment {
  env_native_waitAsync : bool;
  env_clock : nat → Z;
  env_others : nat → list store;
  env_wait : nat → string;
}.

Record world := World {
  mem : gmap positive (list byte);
  trace : list event;
}.

Inductive result (A : Type) :=
  | Ok (a : A)
  | Throw (e : exn)
  | OutOfFuel.

Arguments Ok {A} a.
Arguments Throw {A} e.
Arguments OutOfFuel {A}.

(** ** The monad of operations *)

Definition M (A : Type) : Type := environment → world → result A * world.

Definition ret {A} (a : A) : M A := λ _ w, (Ok a, w).

Definition bind {A B} (c : M A) (k : A → M B) : M B :=
  λ env w,
    match c env w with
    | (Ok a, w') => k a env w'
    | (Throw e, w') => (Throw e, w')
    | (OutOfFuel, w') => (OutOfFuel, w')
    end.

Definition throw {A} (e : exn) : M A := λ _ w, (Throw e, w).

Definition out_of_fuel {A} : M A := λ _ w, (OutOfFuel, w).

(** [try { body } finally { cleanup }]: the cleanup runs when the body
    returns and when it throws; a throw of the cleanup replaces the
    outcome of the body. *)
Definition try_finally {A B} (body : M A) (cleanup : M B) : M A :=
  λ env w,
    match body env w with
    | (OutOfFuel, w') => (OutOfFuel, w')
    | (r, w') =>
        match cleanup env w' with
        | (Ok _, w'') => (r, w'')
        | (Throw e, w'') => (Throw e, w'')
        | (OutOfFuel, w'') => (OutOfFuel, w'')
        end
    end.

Declare Scope mutex_scope.
Delimit Scope mutex_scope with mutex.
Notation "'let*' x ':=' c 'in' k" := (bind c (λ x, k))
  (at level 10, x binder, c at level 100, k at level 200) : mutex_scope.
Local Open Scope mutex_scope.

(** ** Primitive operations

    Every primitive is one scheduling point: the stores that other
    participants made since the previous point land first, then the
    operation runs and is appended to the trace.  An access outside the
    view throws before anything happens. *)

(** The memory once the stores of the other participants have landed. *)
Definition interfered (env : environment) (w : world) : gmap positive (list byte) :=
  apply_stores (mem w) (env_others env (length (trace w))).

(** [Date.now()]. *)
Definition Date_now : M Z :=
  λ env w,
    let t := env_clock env (length (trace w)) in
    (Ok t, {| mem := interfered env w; trace := trace w ++ [EvNow t] |}).

(** [Atomics.compareExchange(buffer, index, expected, replacement)] on an
    [Int32Array]: returns the old value of the element, and stores
    [replacement] when the old value is [expected]. *)
Definition Atomics_compareExchange (buffer : view) (index : nat)
    (expected replacement : Z) : M Z :=
  λ env w,
    match load_int32 (interfered env w) buffer index with
    | None => (Throw (RangeError "Invalid atomic access index"), w)
    | Some old =>
        (Ok old,
         {| mem := if old =? expected
                   then store_int32 (interfered env w) buffer index replacement
                   else interfered env w;
            trace := trace w ++ [EvCompareExchange buffer index expected replacement old] |})
    end.

(** [Atomics.load(buffer, index)]. *)
Definition Atomics_load (buffer : view) (index : nat) : M Z :=
  λ env w,
    match load_int32 (interfered env w) buffer index with
    | None => (Throw (RangeError "Invalid atomic access index"), w)
    | Some old =>
        (Ok old, {| mem := interfered env w; trace := trace w ++ [EvLoad buffer index old] |})
    end.

(** The wait primitive of the host, blocking ([Atomics.wait],
    [async = false]) or suspending ([Atomics.waitAsync], [async = true]).
    When the element no longer holds [expected] the answer is ['not-equal']
    at once; otherwise the participant sleeps and the environment tells
    how the wait ends. *)
Definition wait_primitive (async : bool) (buffer : view) (index : nat)
    (expected : Z) (timeout : number) : M string :=
  λ env w,
    match load_int32 (interfered env w) buffer index with
    | None => (Throw (RangeError "Invalid atomic access index"), w)
    | Some current =>
        let outcome := if current =? expected
                       then env_wait env (length (trace w))
                       else "not-equal" in
        (Ok outcome,
         {| mem := interfered env w;
            trace := trace w ++ [EvWait async buffer index expected timeout outcome] |})
    end.

Definition Atomics_wait := wait_primitive false.
Definition Atomics_waitAsync := wait_primitive true.

(** [Atomics.notify(buffer, index)]: wakes every waiter on the element. *)
Definition Atomics_notify (buffer : view) (index : nat) : M unit :=
  λ env w,
    match load_int32 (interfered env w) buffer index with
    | None => (Throw (RangeError "Invalid atomic access index"), w)
    | Some _ =>
        (Ok tt, {| mem := interfered env w; trace := trace w ++ [EvNotify buffer index] |})
    end.

(** Allocation of a zero-filled [SharedArrayBuffer] of [size] bytes. *)
Definition new_SharedArrayBuffer (size : nat) : M arraybuffer :=
  λ _ w,
    let l := fresh (dom (mem w)) in
    (Ok {| ab_shared := true; ab_block := l |},
     {| mem := <[l := replicate size x00]> (mem w); trace := trace w |}).

(** [buffer.byteLength]. *)
Definition byteLength (b : arraybuffer) : M nat :=
  λ _ w,
    match mem w !! ab_block b with
    | Some bs => (Ok (length bs), w)
    | None => (Throw (TypeError "detached buffer"), w)
    end.

(** [new Int32Array(buffer)]: a view on the whole buffer, whose byte
    length has to be a multiple of 4. *)
Definition new_Int32Array (b : arraybuffer) : M view :=
  let* n := byteLength b in
  if (n `mod` 4 =? 0)%nat
  then ret {| view_kind := Int32; view_buffer := b; view_offset := 0; view_length := n / 4 |}
  else throw (RangeError "byte length of Int32Array should be a multiple of 4").

(** [new Uint8Array(buffer)]. *)
Definition new_Uint8Array (b : arraybuffer) : M view :=
  let* n := byteLength b in
  ret {| view_kind := Uint8; view_buffer := b; view_offset := 0; view_length := n |}.

(** A plain (non-atomic) update of the bytes of a block. *)
Definition update_block (l : loc) (f : list byte → list byte) : M unit :=
  λ _ w, (Ok tt, {| mem := alter f l (mem w); trace := trace w |}).

(** [int32View[index] = z]; out of range it does nothing. *)
Definition set_int32 (v : view) (index : nat) (z : Z) : M unit :=
  λ env w,
    match load_int32 (mem w) v index with
    | Some _ => update_block (ab_block (view_buffer v)) (splice (int32_pos v index) (bytes_of_int32 z)) env w
    | None => (Ok tt, w)
    end.

(** [uint8View.set(bytes, offset)]. *)
Definition Uint8Array_set (v : view) (bytes : list byte) (offset : nat) : M unit :=
  if decide (offset + length bytes ≤ view_length v)%nat
  then update_block (ab_block (view_buffer v)) (splice (view_offset v + offset) bytes)
  else throw (RangeError "offset is out of bounds").

(** [uint8View.fill(b, start, end)]. *)
Definition Uint8Array_fill (v : view) (b : byte) (start end_ : nat) : M unit :=
  let end_ := Nat.min end_ (view_length v) in
  update_block (ab_block (view_buffer v))
    (splice (view_offset v + start) (replicate (end_ - start) b)).

(** ** The module [src/index.js] *)

(** [LockStatus]. *)
Definition Unlocked : Z := 0.
Definition Locked : Z := 1.

(** The [dispose] symbol under which a handle keeps its release. *)
Definition dispose : key := KSymbol "Symbol.dispose".

(** [waitAsync], fallback strategy: the [loop] that polls with one
    millisecond waits and yields to the scheduler between two of them. *)
Fixpoint waitAsync_loop (fuel : nat) (buffer : view) (index : nat) (value : Z)
    (deadline : number) : M string :=
  match fuel with
  | O => out_of_fuel
  | S fuel' =>
      let* now := Date_now in
      if number_ge (Finite now) deadline then ret "timed-out"
      else
        let* res := Atomics_wait buffer index value (Finite 1) in
        if String.eqb res "ok" || String.eqb res "not-equal" then ret res
        else waitAsync_loop fuel' buffer index value deadline
  end.

Definition waitAsync_fallback (fuel : nat) (buffer : view) (index : nat) (value : Z)
    (timeoutMs : number) : M string :=
  let* deadline := (if number_eq timeoutMs Infinity then ret Infinity
                    else let* now := Date_now in
                         ret (number_add (Finite now) timeoutMs)) in
  waitAsync_loop fuel buffer index value deadline.

(** [waitAsync]: the native facility when the host has it, the fallback
    otherwise; the promise it returns is awaited by its caller. *)
Definition waitAsync (fuel : nat) (buffer : view) (index : nat) (value : Z)
    (timeoutMs : number) : M string :=
  λ env w,
    if env_native_waitAsync env
    then Atomics_waitAsync buffer index value timeoutMs env w
    else waitAsync_fallback fuel buffer index value timeoutMs env w.

(** [buffer instanceof Int32Array], with the view it then is. *)
Definition as_Int32Array (buffer : value) : option view :=
  match buffer with
  | VTypedArray v =>
      match view_kind v with
      | Int32 => Some v
      | _ => None
      end
  | _ => None
  end.

(** [validateMutexBuffer]; the model returns the view that passed. *)
Definition validateMutexBuffer (buffer : value) : M view :=
  match as_Int32Array buffer with
  | None => throw (MutexError "Invalid buffer: must be an Int32Array")
  | Some v =>
      if (view_length v <? 1)%nat then
        throw (MutexError "Invalid buffer: must have length >= 1")
      else if negb (ab_shared (view_buffer v)) then
        throw (MutexError "Invalid buffer: must be backed by a SharedArrayBuffer")
      else ret v
  end.

(** [v !== n] and [v < n] for a value [v] and a number [n]; the second is
    only reached behind [typeof v === 'number']. *)
Definition strict_neq_number (v : value) (n : number) : bool :=
  match v with
  | VNumber x => number_neq x n
  | _ => true
  end.

Definition lt_number (v : value) (n : number) : bool :=
  match v with
  | VNumber x => number_lt x n
  | _ => false
  end.

(** The condition under which [validateTimeout] throws. *)
Definition invalid_timeout (timeoutMs : value) : bool :=
  strict_neq_number timeoutMs Infinity &&
  (negb (String.eqb (typeof timeoutMs) "number") || lt_number timeoutMs (Finite 0)).

(** [validateTimeout]; the model returns the number that passed (a value
    that passes is a number, see [validateTimeout_number]). *)
Definition validateTimeout (timeoutMs : value) : M number :=
  if invalid_timeout timeoutMs then
    throw (MutexError "Timeout must be a non-negative number or Infinity")
  else
    match timeoutMs with
    | VNumber n => ret n
    | _ => ret Infinity
    end.

Definition timed_out_message (timeoutMs : number) : string :=
  "Mutex lock acquisition timed out after " +:+ number_to_string timeoutMs +:+ "ms".

Definition interrupted_message : string := "Mutex wait was interrupted".

Definition not_locked_message : string := "Cannot unlock mutex that is not locked".

(** [{ [dispose]: () => unlock(buffer, true) }]. *)
Definition lock_handle (buffer : value) : value :=
  VObject [(dispose, VFunction (CDispose buffer))].

(** The [while (true)] loop of [lock]; the fuel that is left also bounds
    the polling of the [waitAsync] fallback. *)
Fixpoint lock_loop (fuel : nat) (buffer : value) (view : view)
    (timeoutMs : number) (start : Z) : M value :=
  match fuel with
  | O => out_of_fuel
  | S fuel' =>
      let* now := Date_now in
      let elapsed := number_sub (Finite now) (Finite start) in
      if number_neq timeoutMs Infinity && number_gt elapsed timeoutMs then
        throw (MutexError (timed_out_message timeoutMs))
      else
        let* old := Atomics_compareExchange view 0 Unlocked Locked in
        if old =? Unlocked then ret (lock_handle buffer)
        else
          let remainingTime :=
            if number_eq timeoutMs Infinity then Infinity
            else Math_max (Finite 0) (number_sub timeoutMs elapsed) in
          let* waitResult := waitAsync fuel' view 0 Locked remainingTime in
          if String.eqb waitResult "timed-out" then
            throw (MutexError (timed_out_message timeoutMs))
          else if String.eqb waitResult "interrupted" then
            throw (MutexError interrupted_message)
          else lock_loop fuel' buffer view timeoutMs start
  end.

(** [lock(buffer, timeoutMs = Infinity)], the suspending acquisition. *)
Definition lock (fuel : nat) (buffer timeoutMs : value) : M value :=
  let timeoutMs := default_param timeoutMs (VNumber Infinity) in
  let* view := validateMutexBuffer buffer in
  let* timeoutMs := validateTimeout timeoutMs in
  let* start := Date_now in
  let* old := Atomics_compareExchange view 0 Unlocked Locked in
  if old =? Unlocked then ret (lock_handle buffer)
  else lock_loop fuel buffer view timeoutMs start.

(** The [while (true)] loop of [lockSync]. *)
Fixpoint lockSync_loop (fuel : nat) (buffer : value) (view : view)
    (timeoutMs : number) (start : Z) : M value :=
  match fuel with
  | O => out_of_fuel
  | S fuel' =>
      let* now := Date_now in
      let elapsed := number_sub (Finite now) (Finite start) in
      if number_neq timeoutMs Infinity && number_gt elapsed timeoutMs then
        throw (MutexError (timed_out_message timeoutMs))
      else
        let* old := Atomics_compareExchange view 0 Unlocked Locked in
        if old =? Unlocked then ret (lock_handle buffer)
        else
          let remainingTime :=
            if number_eq timeoutMs Infinity then Infinity
            else Math_max (Finite 0) (number_sub timeoutMs elapsed) in
          let* waitResult := Atomics_wait view 0 Locked remainingTime in
          if String.eqb waitResult "timed-out" then
            throw (MutexError (timed_out_message timeoutMs))
          else if String.eqb waitResult "interrupted" then
            throw (MutexError interrupted_message)
          else lockSync_loop fuel' buffer view timeoutMs start
  end.

(** [lockSync(buffer, timeoutMs = Infinity)], the blocking acquisition. *)
Definition lockSync (fuel : nat) (buffer timeoutMs : value) : M value :=
  let timeoutMs := default_param timeoutMs (VNumber Infinity) in
  let* view := validateMutexBuffer buffer in
  let* timeoutMs := validateTimeout timeoutMs in
  let* start := Date_now in
  let* old := Atomics_compareExchange view 0 Unlocked Locked in
  if old =? Unlocked then ret (lock_handle buffer)
  else lockSync_loop fuel buffer view timeoutMs start.

(** [unlock(buffer, fromDispose = false)]. *)
Definition unlock (buffer : value) (fromDispose : bool) : M value :=
  let* view := validateMutexBuffer buffer in
  let* currentState := Atomics_compareExchange view 0 Locked Unlocked in
  if negb (currentState =? Locked) then
    if fromDispose then ret VUndefined
    else throw (MutexError not_locked_message)
  else
    let* _ := Atomics_notify view 0 in
    ret VUndefined.

(** [Math.ceil(a / b)] on natural numbers. *)
Definition ceil_div (a b : nat) : nat := ((a + (b - 1)) / b)%nat.

(** [createBufferFromString]. *)
Definition createBufferFromString (input : value) : M value :=
  if negb (truthy input) || negb (String.eqb (typeof input) "string") then
    throw (MutexError "Invalid input: must be a non-empty string")
  else
    let bytes := TextEncoder_encode (match input with VString s => s | _ => [] end) in
    let headerSize := 4%nat in
    let totalSize := (headerSize + length bytes)%nat in
    let alignedSize := (ceil_div totalSize 4 * 4)%nat in
    let* buffer := new_SharedArrayBuffer alignedSize in
    let* int32View := new_Int32Array buffer in
    let* uint8View := new_Uint8Array buffer in
    let* _ := set_int32 int32View 0 Unlocked in
    let* _ := Uint8Array_set uint8View bytes headerSize in
    let* _ := (if (totalSize <? alignedSize)%nat
               then Uint8Array_fill uint8View x00 totalSize alignedSize
               else ret tt) in
    ret (VTypedArray int32View).

(** The frozen object that [createMutex] and [withMutex] return. *)
Definition mutex_object (buffer : value) : value :=
  VObject [(KString "buffer", buffer);
           (KString "dispose", VSymbol "Symbol.dispose");
           (KString "lock", VFunction (CLock buffer));
           (KString "lockSync", VFunction (CLockSync buffer));
           (KString "unlock", VFunction (CUnlock buffer));
           (KString "isLocked", VFunction (CIsLocked buffer))].

(** [createMutex]. *)
Definition createMutex : M value :=
  let* sab := new_SharedArrayBuffer 4 in
  let* buffer := new_Int32Array sab in
  let* _ := set_int32 buffer 0 Unlocked in
  ret (mutex_object (VTypedArray buffer)).

(** [withMutex]. *)
Definition withMutex (input : value) : M value :=
  match input with
  | VUndefined | VNull =>
      throw (MutexError "Invalid input: must provide a string or Int32Array")
  | _ =>
      let* buffer := (if String.eqb (typeof input) "string"
                      then createBufferFromString input
                      else ret input) in
      let* _ := validateMutexBuffer buffer in
      ret (mutex_object buffer)
  end.

(** [() => Atomics.load(buffer, 0) === LockStatus.Locked]. *)
Definition isLocked (buffer : value) : M value :=
  match as_Int32Array buffer with
  | Some view =>
      let* current := Atomics_load view 0 in
      ret (VBoolean (current =? Locked))
  | None => throw (TypeError "[object] is not an integer shared typed array")
  end.

Section Calls.

(** What the functions written by the caller do when called (and, where
    the caller awaits them, awaited). *)
Variable user_function : nat → list value → M value.

(** [f(...args)]. *)
Definition call (fuel : nat) (f : value) (args : list value) : M value :=
  match f with
  | VFunction (CLock buffer) => lock fuel buffer (argument 0 args)
  | VFunction (CLockSync buffer) => lockSync fuel buffer (argument 0 args)
  | VFunction (CUnlock buffer) => unlock buffer false
  | VFunction (CIsLocked buffer) => isLocked buffer
  | VFunction (CDispose buffer) => unlock buffer true
  | VFunction (CUser id) => user_function id args
  | _ => throw (TypeError "not a function")
  end.

(** [o[k](...args)]. *)
Definition call_method (fuel : nat) (o : value) (k : key) (args : list value) : M value :=
  match o with
  | VUndefined | VNull => throw (TypeError "Cannot read properties of undefined")
  | _ => call fuel (property o k) args
  end.

(** [rapidGuard(mutex, fn, timeoutMs = Infinity)]. *)
Definition rapidGuard (fuel : nat) (mutex fn timeoutMs : value) : M value :=
  let timeoutMs := default_param timeoutMs (VNumber Infinity) in
  if negb (truthy mutex) ||
     negb (String.eqb (typeof (property mutex (KString "lock"))) "function") then
    throw (MutexError "Invalid mutex: must be a mutex object with lock method")
  else if negb (String.eqb (typeof fn) "function") then
    throw (MutexError "Invalid function: must provide a function to execute")
  else
    let* lockHandle := call_method fuel mutex (KString "lock") [timeoutMs] in
    try_finally (call fuel fn []) (call_method fuel lockHandle dispose []).

End Calls.

(** * Vocabulary of the statements *)

(** ** Memory, traces and environments *)

(** An environment in which no other participant stores anything. *)
Definition quiet (env : environment) : Prop := ∀ n, env_others env n = [].

(** Element 0 of the view exists in memory: what the atomic operations on
    the lock word need. *)
Definition lockable (m : gmap positive (list byte)) (v : view) : Prop :=
  ∃ bs, m !! ab_block (view_buffer v) = Some bs ∧
        (0 < view_length v)%nat ∧ (view_offset v + 4 ≤ length bs)%nat.

(** The lock word of a buffer. *)
Definition lock_word (w : world) (v : view) : option Z := load_int32 (mem w) v 0.

(** The events a run added to the trace. *)
Definition events_since (w w' : world) : list event :=
  drop (length (trace w)) (trace w').

(** The memory after the environment alone has acted at the [n]
    scheduling points from [from] on. *)
Fixpoint replay (env : environment) (from n : nat) (m : gmap positive (list byte))
    : gmap positive (list byte) :=
  match n with
  | O => m
  | S n' => replay env (S from) n' (apply_stores m (env_others env from))
  end.

(** A store this participant made: a successful compare-and-swap. *)
Definition is_own_write (e : event) : bool :=
  match e with
  | EvCompareExchange _ _ expected _ old => old =? expected
  | _ => false
  end.

Definition is_wait (e : event) : bool :=
  match e with
  | EvWait _ _ _ _ _ _ => true
  | _ => false
  end.

Definition is_notify (e : event) : bool :=
  match e with
  | EvNotify _ _ => true
  | _ => false
  end.

(** A wait that ended by a wake-up: outcome 'ok' (woken) or 'not-equal'
    (value mismatch). *)
Definition is_wake_up (e : event) : Prop :=
  ∃ async v index expected timeout outcome,
    e = EvWait async v index expected timeout outcome ∧
    (outcome = "ok" ∨ outcome = "not-equal").

(** [env_steps env w w']: from [w] to [w'] this participant performed
    primitives without storing anything; the memory changed only by what
    the environment did at those scheduling points. *)
Definition env_steps (env : environment) (w w' : world) : Prop :=
  ∃ evs, trace w' = trace w ++ evs ∧
         mem w' = replay env (length (trace w)) (length evs) (mem w) ∧
         Forall (λ e, is_own_write e = false) evs.

(** ** Validation and errors *)

(** What [validateMutexBuffer] accepts: an [Int32Array] of at least one
    element on a [SharedArrayBuffer]. *)
Definition valid_buffer (buffer : value) (v : view) : Prop :=
  buffer = VTypedArray v ∧ view_kind v = Int32 ∧
  (1 ≤ view_length v)%nat ∧ ab_shared (view_buffer v) = true.

(** The three messages of [validateMutexBuffer]. *)
Definition invalid_buffer_message (msg : string) : Prop :=
  msg = "Invalid buffer: must be an Int32Array" ∨
  msg = "Invalid buffer: must have length >= 1" ∨
  msg = "Invalid buffer: must be backed by a SharedArrayBuffer".

Definition invalid_timeout_message : string :=
  "Timeout must be a non-negative number or Infinity".

(** The errors an acquisition can end with. *)
Inductive acquisition_error (timeoutMs : number) : exn → Prop :=
  | acq_invalid_buffer msg :
      invalid_buffer_message msg → acquisition_error timeoutMs (MutexError msg)
  | acq_invalid_timeout :
      acquisition_error timeoutMs (MutexError invalid_timeout_message)
  | acq_timed_out :
      acquisition_error timeoutMs (MutexError (timed_out_message timeoutMs))
  | acq_interrupted :
      acquisition_error timeoutMs (MutexError interrupted_message)
  | acq_range :
      acquisition_error timeoutMs (RangeError "Invalid atomic access index").

(** [contains s sub]: the text [sub] occurs in [s]. *)
Definition contains (s sub : string) : Prop :=
  ∃ pre post, s = pre +:+ sub +:+ post.

(** How a timeout failure is told from the other failures: by the head of
    its message. *)
Definition is_timeout_message (msg : string) : bool :=
  String.prefix "Mutex lock acquisition timed out" msg.

(** The two argument checks of [rapidGuard]. *)
Definition has_lock_method (mutex : value) : bool :=
  truthy mutex && String.eqb (typeof (property mutex (KString "lock"))) "function".

Definition is_callable (fn : value) : bool := String.eqb (typeof fn) "function".

(** ** The acquisition loop *)

(** The two acquisition operations, by execution form. *)
Definition acquisition (async : bool) : nat → value → value → M value :=
  if async then lock else lockSync.

Definition acquisition_loop (async : bool)
    : nat → value → view → number → Z → M value :=
  if async then lock_loop else lockSync_loop.

(** The wait of the loop: [waitAsync] in [lock] ([fuel] bounds the polling
    of the fallback), [Atomics.wait] in [lockSync]. *)
Definition wait_of (async : bool) (fuel : nat) (v : view) : number → M string :=
  if async then waitAsync fuel v 0 Locked else Atomics_wait v 0 Locked.

(** The deadline test at the head of the loop. *)
Definition deadline_passed (timeoutMs : number) (start now : Z) : bool :=
  number_neq timeoutMs Infinity &&
  number_gt (number_sub (Finite now) (Finite start)) timeoutMs.

Definition remaining_time (timeoutMs : number) (start now : Z) : number :=
  if number_eq timeoutMs Infinity then Infinity
  else Math_max (Finite 0) (number_sub timeoutMs (number_sub (Finite now) (Finite start))).

(** One turn of the loop of [lock] / [lockSync] around the wait [wait]:
    [Some handle] when the lock was taken, [None] when the loop goes round
    again (see [acquisition_loop_succ]). *)
Definition iteration (wait : number → M string) (buffer : value) (view : view)
    (timeoutMs : number) (start : Z) : M (option value) :=
  let* now := Date_now in
  if deadline_passed timeoutMs start now then
    throw (MutexError (timed_out_message timeoutMs))
  else
    let* old := Atomics_compareExchange view 0 Unlocked Locked in
    if old =? Unlocked then ret (Some (lock_handle buffer))
    else
      let* waitResult := wait (remaining_time timeoutMs start now) in
      if String.eqb waitResult "timed-out" then
        throw (MutexError (timed_out_message timeoutMs))
      else if String.eqb waitResult "interrupted" then
        throw (MutexError interrupted_message)
      else ret None.

(** What the loop relies on in a wait on the lock word of [v]: it stores
    nothing; a wake-up is its last operation and is what it returns; and it
    throws only when the lock word is not in memory. *)
Definition wait_run (v : view) (env : environment) (w : world)
    (r : result string) (w' : world) : Prop :=
  env_steps env w w' ∧
  (∀ pre e post,
     events_since w w' = pre ++ e :: post → is_wake_up e →
     post = [] ∧ ∃ outcome, r = Ok outcome ∧ (outcome = "ok" ∨ outcome = "not-equal")) ∧
  (∀ e, r = Throw e →
        e = RangeError "Invalid atomic access index" ∧ ¬ lockable (mem w) v).

Definition wait_contract (v : view) (wait : number → M string) : Prop :=
  ∀ timeout env w r w', wait timeout env w = (r, w') → wait_run v env w r w'.

(** How a turn of the loop entered at clock reading [now] begins: with
    the clock reading, and then either the timeout failure (the deadline
    has passed) or the compare-and-swap. *)
Definition turn_head {A} (v : view) (timeoutMs : number) (start now : Z)
    (r : result A) (evs : list event) : Prop :=
  (deadline_passed timeoutMs start now = true ∧ evs = [EvNow now] ∧
   r = Throw (MutexError (timed_out_message timeoutMs))) ∨
  (deadline_passed timeoutMs start now = false ∧
   ∃ old rest, evs = EvNow now :: EvCompareExchange v 0 Unlocked Locked old :: rest).

(** What follows a wake-up in the trace of an acquisition that ends with
    [r]: nothing when the fuel is exhausted; otherwise a clock reading,
    and then either the timeout failure with no further operation (the
    deadline has passed) or the next compare-and-swap. *)
Definition after_wake_up (v : view) (timeoutMs : number) (start : Z)
    (r : result value) (post : list event) : Prop :=
  (post = [] ∧ r = OutOfFuel) ∨
  ∃ now, turn_head v timeoutMs start now r post.

(** The order of operations as the specification has it: after a wake-up
    the compare-and-swap comes first, so that a timeout failure raised
    after a wake-up is preceded by a failed compare-and-swap made after
    that wake-up. *)
Definition timeout_after_wake_up_follows_failed_cas : Prop :=
  ∀ async fuel buffer v T env w w' pre e post,
    valid_buffer buffer v → lockable (mem w) v →
    acquisition async fuel buffer (VNumber T) env w
      = (Throw (MutexError (timed_out_message T)), w') →
    events_since w w' = pre ++ e :: post →
    is_wake_up e →
    ∃ p old q, post = p ++ EvCompareExchange v 0 Unlocked Locked old :: q ∧
               old ≠ Unlocked.

(** ** Sample worlds, environments and scenarios *)

Definition empty_world : world := {| mem := ∅; trace := [] |}.

(** A one-word shared buffer at block 1, as [createMutex] allocates it in
    the empty world, and worlds in which its lock word is free or held. *)
Definition sample_view : view :=
  {| view_kind := Int32;
     view_buffer := {| ab_shared := true; ab_block := 1%positive |};
     view_offset := 0;
     view_length := 1 |}.

Definition sample_buffer : value := VTypedArray sample_view.

Definition free_world : world :=
  {| mem := {[ 1%positive := bytes_of_int32 Unlocked ]}; trace := [] |}.

Definition held_world : world :=
  {| mem := {[ 1%positive := bytes_of_int32 Locked ]}; trace := [] |}.

(** Environments in which nobody else acts and the clock advances by one
    millisecond at every operation.  In the first two every wait that
    blocks runs out of time (the second is a host without
    [Atomics.waitAsync]); in the third every wait that blocks is woken. *)
Definition still_environment : environment :=
  {| env_native_waitAsync := true;
     env_clock := λ n, Z.of_nat n;
     env_others := λ _, [];
     env_wait := λ _, "timed-out" |}.

Definition still_polling_environment : environment :=
  {| env_native_waitAsync := false;
     env_clock := λ n, Z.of_nat n;
     env_others := λ _, [];
     env_wait := λ _, "timed-out" |}.

Definition waking_environment : environment :=
  {| env_native_waitAsync := true;
     env_clock := λ n, Z.of_nat n;
     env_others := λ _, [];
     env_wait := λ _, "ok" |}.

(** The holder releases the lock while the participant waits, and the
    participant is scheduled again only after its deadline: the clock reads
    0 up to the wait and 11 afterwards, and the store of the release lands
    at the wait (scheduling point 4). *)
Definition late_release_environment : environment :=
  {| env_native_waitAsync := true;
     env_clock := λ n, if (n <? 5)%nat then 0 else 11;
     env_others := λ n, if (n =? 4)%nat
                        then [{| store_block := 1%positive; store_pos := 0; store_byte := x00 |}]
                        else [];
     env_wait := λ _, "ok" |}.

(** A caller that defines no function of its own. *)
Definition no_user_function : nat → list value → M value := λ _ _, ret VUndefined.

(** A caller whose function number 0 returns 42 and whose other functions
    throw the string "boom". *)
Definition sample_user_function : nat → list value → M value :=
  λ id _,
    match id with
    | O => ret (VNumber (Finite 42))
    | S _ => throw (Thrown (VString (jsstring_of_string "boom")))
    end.

(** A caller with a mutex of its own making: its function number 0
    returns 42; its function number 1, the [lock] of the mutex, returns an
    object that has no release. *)
Definition handmade_user_function : nat → list value → M value :=
  λ id _,
    match id with
    | O => ret (VNumber (Finite 42))
    | S _ => ret (VObject [])
    end.

Definition handmade_mutex : value := VObject [(KString "lock", VFunction (CUser 1))].

(** [rapidGuard] as the specification has it, for every mutex and function
    that pass its two checks: once the [lock] of the mutex has returned a
    handle and [fn] has ended with [r], the outcome of [rapidGuard] is
    [r]. *)
Definition rapidGuard_propagates_unchanged : Prop :=
  ∀ (uf : nat → list value → M value) fuel mutex fn timeoutMs env w handle w1 r w2,
    has_lock_method mutex = true → is_callable fn = true →
    call_method uf fuel mutex (KString "lock")
      [default_param timeoutMs (VNumber Infinity)] env w = (Ok handle, w1) →
    call uf fuel fn [] env w1 = (r, w2) →
    r ≠ OutOfFuel →
    ∃ w3, rapidGuard uf fuel mutex fn timeoutMs env w = (r, w3).

(** [m = createMutex(); h = m.lock(); m.isLocked(); h[dispose]();
    m.isLocked()], with [lock] or [lockSync]: the mutex, the handle and
    the two readings of [isLocked]. *)
Definition lock_release_scenario (user_function : nat → list value → M value)
    (async : bool) (fuel : nat) : M (value * value * value * value) :=
  let* m := createMutex in
  let* h := call_method user_function fuel m
              (KString (if async then "lock" else "lockSync")) [] in
  let* locked := call_method user_function fuel m (KString "isLocked") [] in
  let* _ := call_method user_function fuel h dispose [] in
  let* released := call_method user_function fuel m (KString "isLocked") [] in
  ret (m, h, locked, released).

(** A handle released, the lock taken again through the same mutex, and
    the first handle released a second time: the readings of [isLocked]
    before and after the second release. *)
Definition release_twice_scenario (user_function : nat → list value → M value)
    (fuel : nat) : M (value * value) :=
  let* m := createMutex in
  let* h1 := call_method user_function fuel m (KString "lock") [] in
  let* _ := call_method user_function fuel h1 dispose [] in
  let* h2 := call_method user_function fuel m (KString "lock") [] in
  let* before := call_method user_function fuel m (KString "isLocked") [] in
  let* _ := call_method user_function fuel h1 dispose [] in
  let* after := call_method user_function fuel m (KString "isLocked") [] in
  ret (before, after).

(** The result of an operation run in the empty world with nobody else
    acting, and a string literal as a value. *)
Definition run {A} (c : M A) : result A := (c still_environment empty_world).1.

Definition js (s : string) : value := VString (jsstring_of_string s).

(** ** Operations, memories and clocks *)

(** The operations of the polling loop of the [waitAsync] fallback: clock
    readings and blocking waits of one millisecond. *)
Definition is_polling_event (buffer : view) (index : nat) (value : Z) (e : event) : Prop :=
  (∃ t, e = EvNow t) ∨
  (∃ outcome, e = EvWait false buffer index value (Finite 1) outcome).

(** The operations of an acquisition on the buffer [v]: clock readings,
    compare-and-swaps from Unlocked to Locked on element 0, and waits on
    element 0 for as long as it holds Locked. *)
Definition is_acquisition_event (v : view) (e : event) : Prop :=
  match e with
  | EvNow _ => True
  | EvCompareExchange v' index expected replacement _ =>
      v' = v ∧ index = 0%nat ∧ expected = Unlocked ∧ replacement = Locked
  | EvWait _ v' index expected _ _ => v' = v ∧ index = 0%nat ∧ expected = Locked
  | _ => False
  end.

(** How the waits of an acquisition are made: suspending only in [lock] on
    a host that has [Atomics.waitAsync]; blocking otherwise, and in slices
    of one millisecond when [lock] falls back on polling. *)
Definition wait_form (async : bool) (env : environment) (e : event) : Prop :=
  match e with
  | EvWait a _ _ _ timeout _ =>
      a = async && env_native_waitAsync env ∧
      (async = true → env_native_waitAsync env = false → timeout = Finite 1)
  | _ => True
  end.

(** An operation with its wait, if it is one, taken as blocking: what
    [lock] and [lockSync] do up to the form of their waits. *)
Definition blocking (e : event) : event :=
  match e with
  | EvWait _ v index expected timeout outcome =>
      EvWait false v index expected timeout outcome
  | _ => e
  end.

(** Two worlds with the same memory and the same operations up to the
    form of the waits. *)
Definition same_up_to_waits (wa wb : world) : Prop :=
  mem wa = mem wb ∧ blocking <$> trace wa = blocking <$> trace wb.

(** [h = m.lock(); h[dispose]()] again and again, once for every element
    of [forms], which tells whether the turn uses [lock] or [lockSync]. *)
Fixpoint lock_release_cycles (user_function : nat → list value → M value)
    (fuel : nat) (m : value) (forms : list bool) : M unit :=
  match forms with
  | [] => ret tt
  | async :: rest =>
      let* h := call_method user_function fuel m
                  (KString (if async then "lock" else "lockSync")) [] in
      let* _ := call_method user_function fuel h dispose [] in
      lock_release_cycles user_function fuel m rest
  end.

(** [a = withMutex(m.buffer); h = m.lock(); a.isLocked(); a.unlock();
    m.isLocked()]: a second mutex made on the buffer of the first, and the
    two readings of [isLocked]. *)
Definition shared_buffer_scenario (user_function : nat → list value → M value)
    (fuel : nat) (m : value) : M (value * value) :=
  let* a := withMutex (property m (KString "buffer")) in
  let* h := call_method user_function fuel m (KString "lock") [] in
  let* seen := call_method user_function fuel a (KString "isLocked") [] in
  let* _ := call_method user_function fuel a (KString "unlock") [] in
  let* after := call_method user_function fuel m (KString "isLocked") [] in
  ret (seen, after).

(** Two memories with the same blocks, of the same lengths, that hold the
    same bytes everywhere but in the four bytes of the lock word of [v]. *)
Definition same_outside_lock_word (v : view) (m m' : gmap positive (list byte)) : Prop :=
  ∀ l, match m !! l, m' !! l with
       | Some bs, Some bs' =>
           length bs' = length bs ∧
           ∀ i, (l = ab_block (view_buffer v) ∧
                 view_offset v ≤ i < view_offset v + 4)%nat ∨
                bs' !! i = bs !! i
       | None, None => True
       | _, _ => False
       end.


Definition clock_monotone (env : environment) : Prop :=
  ∀ n, env_clock env n ≤ env_clock env (S n).



(** * Properties *)

(** ** Numbers and their text *)

(** Integers below 10^21 are printed digit by digit. *)
Example number_to_string_integers :
  number_to_string (Finite 0) = "0" ∧
  number_to_string (Finite 10) = "10" ∧
  number_to_string (Finite (-5)) = "-5" ∧
  number_to_string (Finite 5000) = "5000" ∧
  number_to_string (Finite 9007199254740991) = "9007199254740991" ∧
  number_to_string (Finite (10 ^ 20)) = "100000000000000000000".
Proof. vm_compute. by repeat split. Qed.

(** From 10^21 on the exponent notation is used, and above 2^53 only the
    digits that tell the value from its neighbours are printed. *)
Example number_to_string_large :
  number_to_string (Finite (10 ^ 21)) = "1e+21" ∧
  number_to_string (Finite (2 ^ 60)) = "1152921504606847000" ∧
  number_to_string (Finite (15 * 10 ^ 299)) = "1.5e+300" ∧
  number_to_string (Finite (2 ^ 1024 - 2 ^ 971)) = "1.7976931348623157e+308".
Proof. vm_compute. by repeat split. Qed.

(** Values that are no integers: a half, three halves, the binary64
    values nearest to a tenth and to 10^-7, and the smallest positive
    one. *)
Example number_to_string_fractions :
  number_to_string (Fraction 1 1) = "0.5" ∧
  number_to_string (Fraction 3 1) = "1.5" ∧
  number_to_string (Fraction (-3) 2) = "-0.75" ∧
  number_to_string (Fraction 3602879701896397 55) = "0.1" ∧
  to_binary64 (Fraction (2 ^ 300 / 10 ^ 7) 300) = Fraction 944473296573929 73 ∧
  number_to_string (Fraction 944473296573929 73) = "1e-7" ∧
  number_to_string (Fraction 1 1074) = "5e-324".
Proof. vm_compute. by repeat split. Qed.

(** Arithmetic on values that are no integers rounds: a tenth plus a
    fifth is not three tenths, and adding 10^-7 to a clock reading leaves
    the reading as it is. *)
Example number_add_rounds :
  number_add (Fraction 3602879701896397 55) (Fraction 3602879701896397 54)
  = Fraction 1351079888211149 52 ∧
  number_to_string (Fraction 1351079888211149 52) = "0.30000000000000004" ∧
  number_add (Finite 1700000000000) (Fraction 944473296573929 73)
  = Finite 1700000000000 ∧
  number_sub (Fraction 3 1) (Finite 1) = Fraction 1 1.
Proof. vm_compute. by repeat split. Qed.

(** Rounding leaves the integers below 2^53 as they are. *)
Lemma to_binary64_small_integer (z : Z) :
  Z.abs z < 2 ^ 53 → to_binary64 (Finite z) = Finite z.
Proof.
  intros Hz. unfold to_binary64, binary64. cbn [dyadic_of fst snd].
  destruct (Z.eqb_spec z 0) as [->|Hnz]; [done|].
  assert (Hlog : Z.log2 (Z.abs z) < 53) by (apply Z.log2_lt_pow2; lia).
  replace (Z.max 0 (Z.max (Z.log2 (Z.abs z) - 52) (0 - 1074))) with 0 by lia.
  cbv zeta. unfold round_half_even.
  change (0 - 0) with 0. change (- 0) with 0. change (0 <=? 0) with true.
  cbn [andb]. rewrite Z.pow_0_r, !Z.mul_1_r.
  destruct (Z.leb_spec (2 ^ 1024) (Z.abs z)) as [Hbig|_].
  { assert (2 ^ 53 < 2 ^ 1024) by (apply Z.pow_lt_mono_r; lia). lia. }
  replace (Z.sgn z * Z.abs z) with z by (rewrite <- (Z.sgn_abs z) at 1; lia).
  unfold normalise. change (0 <=? 0) with true. change (- 0) with 0.
  rewrite Z.pow_0_r, Z.mul_1_r. by destruct z.
Qed.

(** The text of the integers from -100 to 1100 is their decimal
    notation. *)
Example number_to_string_decimal :
  forallb (λ z, String.eqb (number_to_string (Finite z)) (pretty z)) (seqZ (-100) 1201)
  = true.
Proof. vm_compute. reflexivity. Qed.

(** ** Bytes and words *)

Lemma Z_of_byte_of_Z (z : Z) : Z_of_byte (byte_of_Z z) = z mod 256.
Proof.
  unfold Z_of_byte, byte_of_Z.
  assert (Hr : 0 ≤ z mod 256 < 256) by (apply Z.mod_pos_bound; lia).
  destruct (Byte.of_N (Z.to_N (z mod 256))) as [b|] eqn:E; simpl.
  - apply Byte.to_of_N in E. rewrite E. lia.
  - apply Byte.of_N_None_iff in E. lia.
Qed.

Lemma unsigned_of_bytes_of_int32 (z : Z) :
  unsigned_of_bytes (bytes_of_int32 z) = z mod 2 ^ 32.
Proof.
  unfold unsigned_of_bytes, bytes_of_int32. simpl foldr.
  rewrite !Z_of_byte_of_Z.
  change (2 ^ 8) with 256. change (2 ^ 16) with (256 * 256).
  change (2 ^ 24) with (256 * 256 * 256). change (2 ^ 32) with (256 * 256 * 256 * 256).
  rewrite !Z.rem_mul_r by lia.
  rewrite <- !Z.div_div by lia.
  generalize (z / 256 / 256 / 256 mod 256) (z / 256 / 256 mod 256)
    (z / 256 mod 256) (z mod 256).
  intros. lia.
Qed.

Lemma int32_of_bytes_of_int32 (z : Z) :
  - 2 ^ 31 ≤ z < 2 ^ 31 → int32_of_bytes (bytes_of_int32 z) = z.
Proof.
  intros Hz. unfold int32_of_bytes. rewrite unsigned_of_bytes_of_int32.
  destruct (Z.ltb_spec (z mod 2 ^ 32) (2 ^ 31)) as [H|H].
  - destruct (Z.le_gt_cases 0 z) as [Hp|Hn].
    + apply Z.mod_small. lia.
    + rewrite <- (Z.mod_add z 1) in H by lia. rewrite Z.mod_small in H by lia. lia.
  - destruct (Z.le_gt_cases 0 z) as [Hp|Hn].
    + rewrite Z.mod_small in H by lia. lia.
    + rewrite <- (Z.mod_add z 1) by lia. rewrite Z.mod_small by lia. lia.
Qed.

Lemma length_bytes_of_int32 (z : Z) : length (bytes_of_int32 z) = 4%nat.
Proof. reflexivity. Qed.

Lemma length_splice (pos : nat) (new bs : list byte) :
  (pos + length new ≤ length bs)%nat → length (splice pos new bs) = length bs.
Proof.
  intros H. unfold splice. rewrite !length_app, length_take, length_drop. lia.
Qed.

Lemma read_splice (pos : nat) (new bs : list byte) :
  (pos + length new ≤ length bs)%nat →
  take (length new) (drop pos (splice pos new bs)) = new.
Proof.
  intros H. unfold splice.
  rewrite drop_app_length' by (rewrite length_take; lia).
  apply take_app_length.
Qed.

(** ** Memory *)

Lemma lockable_load (m : gmap positive (list byte)) (v : view) :
  lockable m v ↔ is_Some (load_int32 m v 0).
Proof.
  unfold lockable, load_int32, int32_pos. split.
  - intros (bs & -> & Hpos & Hlen). rewrite decide_True by lia. eauto.
  - destruct (m !! ab_block (view_buffer v)) as [bs|]; [|by intros [? ?]].
    case_decide; [|by intros [? ?]]. intros _. exists bs. repeat split; [lia..].
Qed.

Lemma lockable_alter (f : list byte → list byte) (l : loc)
    (m : gmap positive (list byte)) (v : view) :
  (∀ bs, m !! l = Some bs → length (f bs) = length bs) →
  lockable m v → lockable (alter f l m) v.
Proof.
  intros Hf (bs & Hbs & Hpos & Hlen). unfold lockable.
  destruct (decide (l = ab_block (view_buffer v))) as [->|Hne].
  - exists (f bs). rewrite lookup_alter_eq, Hbs. simpl. split; [done|].
    rewrite (Hf bs Hbs). done.
  - exists bs. rewrite lookup_alter_ne by done. done.
Qed.

Lemma lockable_apply_store (m : gmap positive (list byte)) (s : store) (v : view) :
  lockable m v → lockable (apply_store m s) v.
Proof. apply lockable_alter. intros bs _. apply length_insert. Qed.

Lemma lockable_apply_stores (ss : list store) (m : gmap positive (list byte)) (v : view) :
  lockable m v → lockable (apply_stores m ss) v.
Proof.
  revert m. induction ss as [|s ss IH]; intros m H; simpl; [done|].
  apply IH, lockable_apply_store, H.
Qed.

Lemma lockable_store_int32 (m : gmap positive (list byte)) (v v' : view) (z : Z) :
  lockable m v → lockable m v' → lockable (store_int32 m v 0 z) v'.
Proof.
  intros (bs & Hbs & Hpos & Hlen). apply lockable_alter.
  intros bs' Hbs'. rewrite Hbs in Hbs'. injection Hbs' as <-.
  apply length_splice. unfold int32_pos. rewrite length_bytes_of_int32. lia.
Qed.

Lemma load_store_int32 (m : gmap positive (list byte)) (v : view) (z : Z) :
  lockable m v → - 2 ^ 31 ≤ z < 2 ^ 31 →
  load_int32 (store_int32 m v 0 z) v 0 = Some z.
Proof.
  intros (bs & Hbs & Hpos & Hlen) Hz. unfold load_int32, store_int32.
  rewrite lookup_alter_eq, Hbs. simpl.
  assert (Hfit : (int32_pos v 0 + length (bytes_of_int32 z) ≤ length bs)%nat)
    by (unfold int32_pos; rewrite length_bytes_of_int32; lia).
  rewrite length_splice by done.
  rewrite decide_True by (rewrite length_bytes_of_int32 in Hfit; lia).
  rewrite <- (length_bytes_of_int32 z), read_splice by done.
  by rewrite int32_of_bytes_of_int32.
Qed.

Lemma apply_stores_nil (m : gmap positive (list byte)) : apply_stores m [] = m.
Proof. reflexivity. Qed.

Lemma replay_quiet (env : environment) (from n : nat) (m : gmap positive (list byte)) :
  quiet env → replay env from n m = m.
Proof.
  intros Hq. revert from m. induction n as [|n IH]; intros from m; simpl; [done|].
  rewrite Hq. apply IH.
Qed.

Lemma lockable_replay (env : environment) (from n : nat)
    (m : gmap positive (list byte)) (v : view) :
  lockable m v → lockable (replay env from n m) v.
Proof.
  revert from m. induction n as [|n IH]; intros from m H; simpl; [done|].
  by apply IH, lockable_apply_stores.
Qed.

Lemma lockable_interfered env w v : lockable (mem w) v → lockable (interfered env w) v.
Proof. apply lockable_apply_stores. Qed.

Lemma interfered_quiet env w : quiet env → interfered env w = mem w.
Proof. intros Hq. unfold interfered. by rewrite Hq. Qed.

Lemma interfered_after_one env w e :
  interfered env {| mem := interfered env w; trace := trace w ++ [e] |} =
  replay env (length (trace w)) 2 (mem w).
Proof.
  unfold interfered. simpl. by rewrite length_app, Nat.add_1_r.
Qed.

(** ** Traces and steps of the environment *)

Lemma events_since_app w w' evs :
  trace w' = trace w ++ evs → events_since w w' = evs.
Proof. intros H. unfold events_since. rewrite H. apply drop_app_length. Qed.

Lemma events_since_refl w : events_since w w = [].
Proof. apply events_since_app. by rewrite app_nil_r. Qed.

(** Where an element of a concatenation sits. *)
Lemma app_eq_cons_split {A} (l1 l2 pre : list A) (e : A) (post : list A) :
  l1 ++ l2 = pre ++ e :: post →
  (∃ post1, l1 = pre ++ e :: post1 ∧ post = post1 ++ l2) ∨
  (∃ pre2, pre = l1 ++ pre2 ∧ l2 = pre2 ++ e :: post).
Proof.
  revert pre. induction l1 as [|x l1 IH]; intros pre H; simpl in H.
  - right. by exists pre.
  - destruct pre as [|p pre]; simpl in H; injection H as <- H.
    + left. by exists l1.
    + destruct (IH pre H) as [(post1 & -> & ->)|(pre2 & -> & ->)].
      * left. by exists post1.
      * right. by exists pre2.
Qed.

Lemma not_in_forall {A} (P : A → Prop) (l pre : list A) (e : A) (post : list A) :
  Forall (λ x, ¬ P x) l → l = pre ++ e :: post → ¬ P e.
Proof.
  intros Hall ->. apply Forall_app in Hall as [_ Hall].
  by apply Forall_cons in Hall as [? _].
Qed.

Lemma not_wake_up_now t : ¬ is_wake_up (EvNow t).
Proof. by intros (? & ? & ? & ? & ? & ? & [=] & _). Qed.

Lemma not_wake_up_cas v i x y z : ¬ is_wake_up (EvCompareExchange v i x y z).
Proof. by intros (? & ? & ? & ? & ? & ? & [=] & _). Qed.

Lemma wake_up_outcome a v i x t o :
  is_wake_up (EvWait a v i x t o) → o = "ok" ∨ o = "not-equal".
Proof. by intros (? & ? & ? & ? & ? & ? & [= _ _ _ _ _ ->] & H). Qed.

Lemma env_steps_refl env w : env_steps env w w.
Proof. exists []. rewrite app_nil_r. by repeat split. Qed.

Lemma replay_add env from n k (m : gmap positive (list byte)) :
  replay env from (n + k) m = replay env (from + n) k (replay env from n m).
Proof.
  revert from m. induction n as [|n IH]; intros from m; simpl.
  - by rewrite Nat.add_0_r.
  - rewrite IH. by replace (S from + n)%nat with (from + S n)%nat by lia.
Qed.

Lemma env_steps_trans env w1 w2 w3 :
  env_steps env w1 w2 → env_steps env w2 w3 → env_steps env w1 w3.
Proof.
  intros (e1 & Ht1 & Hm1 & Hf1) (e2 & Ht2 & Hm2 & Hf2).
  exists (e1 ++ e2). split; [|split].
  - by rewrite Ht2, Ht1, app_assoc.
  - rewrite Hm2, Hm1, Ht1, !length_app. symmetry. apply replay_add.
  - by apply Forall_app.
Qed.

(** One primitive that did not store. *)
Lemma env_steps_one env w e :
  is_own_write e = false →
  env_steps env w {| mem := interfered env w; trace := trace w ++ [e] |}.
Proof.
  intros He. exists [e]. split; [done|]. split; [done|]. by constructor.
Qed.

Lemma env_steps_now env w :
  env_steps env w {| mem := interfered env w;
                     trace := trace w ++ [EvNow (env_clock env (length (trace w)))] |}.
Proof. by apply env_steps_one. Qed.

Lemma env_steps_events env w w' :
  env_steps env w w' → trace w' = trace w ++ events_since w w'.
Proof. intros (evs & Ht & _). by rewrite (events_since_app _ _ _ Ht). Qed.

Lemma env_steps_lockable env w w' v :
  env_steps env w w' → lockable (mem w) v → lockable (mem w') v.
Proof. intros (evs & _ & -> & _). apply lockable_replay. Qed.

Lemma events_since_trans env w1 w2 w3 :
  env_steps env w1 w2 → env_steps env w2 w3 →
  events_since w1 w3 = events_since w1 w2 ++ events_since w2 w3.
Proof.
  intros H12 H23. apply events_since_app.
  rewrite (env_steps_events _ _ _ H23), (env_steps_events _ _ _ H12) at 1.
  by rewrite app_assoc.
Qed.

(** ** The waits of the loop *)

Lemma wait_run_no_wake_up v env w r w' :
  wait_run v env w r w' →
  (∀ o, r = Ok o → o ≠ "ok" ∧ o ≠ "not-equal") →
  Forall (λ e, ¬ is_wake_up e) (events_since w w').
Proof.
  intros (_ & Hwake & _) Hr. apply Forall_forall. intros e Hin Hw.
  apply list_elem_of_split in Hin as (pre & post & Heq).
  destruct (Hwake _ _ _ Heq Hw) as (_ & o & Ho & Hcases).
  destruct (Hr o Ho) as [? ?]. by destruct Hcases.
Qed.

(** Steps without a wake-up, then a wait. *)
Lemma wait_run_trans v env w w1 r w' :
  env_steps env w w1 →
  Forall (λ e, ¬ is_wake_up e) (events_since w w1) →
  wait_run v env w1 r w' →
  wait_run v env w r w'.
Proof.
  intros Hs Hnone (Hs' & Hwake & Hthrow). split; [by eapply env_steps_trans|]. split.
  - intros pre e post Heq Hw.
    rewrite (events_since_trans _ _ _ _ Hs Hs') in Heq.
    apply app_eq_cons_split in Heq as [(post1 & Heq & _)|(pre2 & _ & Heq)].
    + by destruct (not_in_forall _ _ _ _ _ Hnone Heq).
    + by eapply Hwake.
  - intros e He. destruct (Hthrow e He) as [-> Hl]. split; [done|].
    intros Hl0. by eapply Hl, env_steps_lockable.
Qed.

Lemma wait_run_refl v env w (r : result string) :
  (∀ e, r ≠ Throw e) → wait_run v env w r w.
Proof.
  intros Hr. split; [apply env_steps_refl|]. split.
  - intros pre e post Heq. rewrite events_since_refl in Heq. by destruct pre.
  - intros e He. by destruct (Hr e).
Qed.

Lemma wait_primitive_contract async v :
  wait_contract v (wait_primitive async v 0 Locked).
Proof.
  intros t env w r w' H. unfold wait_primitive in H.
  destruct (load_int32 (interfered env w) v 0) as [cur|] eqn:Hcur;
    injection H as <- <-.
  - split; [by apply env_steps_one|]. split; [|by intros e [=]].
    intros pre e post Heq Hw.
    rewrite (events_since_app w _ [EvWait async v 0 Locked t
               (if cur =? Locked then env_wait env (length (trace w)) else "not-equal")])
      in Heq by done.
    destruct pre as [|e1 pre]; simpl in Heq.
    + injection Heq as <- <-. split; [done|]. eexists. split; [done|].
      by eapply wake_up_outcome.
    + injection Heq as _ Heq. by destruct pre.
  - split; [apply env_steps_refl|]. split.
    + intros pre e post Heq. rewrite events_since_refl in Heq. by destruct pre.
    + intros e [= <-]. split; [done|]. intros Hl.
      apply (lockable_interfered env), lockable_load in Hl as [z Hz].
      by rewrite Hz in Hcur.
Qed.

Lemma waitAsync_loop_contract fuel v deadline env w r w' :
  waitAsync_loop fuel v 0 Locked deadline env w = (r, w') →
  wait_run v env w r w'.
Proof.
  revert w. induction fuel as [|fuel IH]; intros w H; simpl in H.
  { injection H as <- <-. by apply wait_run_refl. }
  unfold bind, Date_now in H.
  set (w1 := {| mem := interfered env w; trace := _ |}) in *.
  assert (Hs1 : env_steps env w w1) by apply env_steps_now.
  assert (Hn1 : Forall (λ e, ¬ is_wake_up e) (events_since w w1)).
  { rewrite (events_since_app w w1 [EvNow (env_clock env (length (trace w)))]) by done.
    repeat constructor. apply not_wake_up_now. }
  destruct (number_ge _ deadline).
  { injection H as <- <-. eapply wait_run_trans; [done..|]. by apply wait_run_refl. }
  destruct (Atomics_wait v 0 Locked (Finite 1) env w1) as [[res| |] w2] eqn:Hwait;
    apply wait_primitive_contract in Hwait.
  - destruct (String.eqb_spec res "ok") as [->|Hok]; simpl in H.
    { injection H as <- <-. by eapply wait_run_trans. }
    destruct (String.eqb_spec res "not-equal") as [->|Hne].
    { injection H as <- <-. by eapply wait_run_trans. }
    apply IH in H.
    assert (Hs2 : env_steps env w1 w2) by apply Hwait.
    assert (Hn2 : Forall (λ e, ¬ is_wake_up e) (events_since w1 w2)).
    { eapply wait_run_no_wake_up; [done|]. by intros o [= <-]. }
    eapply wait_run_trans; [by eapply env_steps_trans| |done].
    rewrite (events_since_trans _ _ _ _ Hs1 Hs2). by apply Forall_app.
  - injection H as <- <-. by eapply wait_run_trans.
  - injection H as <- <-. by eapply wait_run_trans.
Qed.

Lemma waitAsync_contract fuel v : wait_contract v (waitAsync fuel v 0 Locked).
Proof.
  intros t env w r w' H. unfold waitAsync in H.
  destruct (env_native_waitAsync env); [by eapply wait_primitive_contract|].
  unfold waitAsync_fallback, bind in H.
  destruct (number_eq t Infinity).
  - unfold ret in H. by eapply waitAsync_loop_contract.
  - unfold Date_now, ret in H. apply waitAsync_loop_contract in H.
    eapply wait_run_trans; [apply env_steps_now| |done].
    rewrite (events_since_app w _ [EvNow (env_clock env (length (trace w)))]) by done.
    repeat constructor. apply not_wake_up_now.
Qed.

Lemma wait_of_contract async fuel v : wait_contract v (wait_of async fuel v).
Proof.
  destruct async; [apply waitAsync_contract|apply wait_primitive_contract].
Qed.

(** ** The loop, one turn at a time *)

Lemma acquisition_loop_zero async buffer v T start env w :
  acquisition_loop async 0 buffer v T start env w = (OutOfFuel, w).
Proof. by destruct async. Qed.

Lemma acquisition_loop_succ async fuel buffer v T start env w :
  acquisition_loop async (S fuel) buffer v T start env w =
  match iteration (wait_of async fuel v) buffer v T start env w with
  | (Ok (Some handle), w') => (Ok handle, w')
  | (Ok None, w') => acquisition_loop async fuel buffer v T start env w'
  | (Throw e, w') => (Throw e, w')
  | (OutOfFuel, w') => (OutOfFuel, w')
  end.
Proof.
  destruct async; simpl;
    unfold iteration, bind, deadline_passed, remaining_time; simpl;
    (destruct (_ && _); [done|]);
    (destruct (Atomics_compareExchange _ _ _ _ _ _) as [[old| |] w1]; [|done..]);
    (destruct (old =? Unlocked); [done|]);
    match goal with
    | |- context [let (_, _) := ?wait_call in _] =>
        destruct wait_call as [[outcome| |] w2]; [|done..]
    end;
    (destruct (String.eqb outcome "timed-out"); [done|]);
    (destruct (String.eqb outcome "interrupted"); done).
Qed.

Section Turn.

Variables (wait : number → M string) (buffer : value) (v : view).
Variables (T : number) (start : Z).
Hypothesis wait_ok : wait_contract v wait.

(** The run of a turn, operation by operation. *)
Lemma iteration_run env w :
  let now := env_clock env (length (trace w)) in
  let w1 := {| mem := interfered env w; trace := trace w ++ [EvNow now] |} in
  iteration wait buffer v T start env w =
  if deadline_passed T start now then (Throw (MutexError (timed_out_message T)), w1)
  else
    match load_int32 (interfered env w1) v 0 with
    | None => (Throw (RangeError "Invalid atomic access index"), w1)
    | Some old =>
        if old =? Unlocked then
          (Ok (Some (lock_handle buffer)),
           {| mem := store_int32 (interfered env w1) v 0 Locked;
              trace := trace w1 ++ [EvCompareExchange v 0 Unlocked Locked old] |})
        else
          match wait (remaining_time T start now) env
                  {| mem := interfered env w1;
                     trace := trace w1 ++ [EvCompareExchange v 0 Unlocked Locked old] |} with
          | (Ok outcome, w3) =>
              if String.eqb outcome "timed-out"
              then (Throw (MutexError (timed_out_message T)), w3)
              else if String.eqb outcome "interrupted"
                   then (Throw (MutexError interrupted_message), w3)
                   else (Ok None, w3)
          | (Throw e, w3) => (Throw e, w3)
          | (OutOfFuel, w3) => (OutOfFuel, w3)
          end
    end.
Proof.
  intros now w1. unfold iteration, bind, Date_now. fold now. fold w1.
  destruct (deadline_passed T start now); [done|].
  unfold Atomics_compareExchange.
  destruct (load_int32 (interfered env w1) v 0) as [old|]; [|done].
  destruct (old =? Unlocked); [done|].
  destruct (wait _ env _) as [[outcome| |] w3]; [|done..].
  destruct (String.eqb outcome "timed-out"); [done|].
  by destruct (String.eqb outcome "interrupted").
Qed.

(** Case analysis on a run of [iteration]. *)
Ltac turn_cases H :=
  rewrite iteration_run in H; cbv zeta in H;
  let Hdl := fresh "Hdl" in
  let Hold := fresh "Hold" in
  let Hcmp := fresh "Hcmp" in
  let Hwait := fresh "Hwait" in
  destruct (deadline_passed T start _) eqn:Hdl;
  [| destruct (load_int32 (interfered _ _) v 0) as [old|] eqn:Hold;
     [ destruct (old =? Unlocked) eqn:Hcmp;
       [| destruct (wait _ _ _) as [[outcome| |] w3] eqn:Hwait;
          [ apply wait_ok in Hwait;
            destruct (String.eqb_spec outcome "timed-out");
            [| destruct (String.eqb_spec outcome "interrupted") ]
          | apply wait_ok in Hwait
          | apply wait_ok in Hwait ] ]
     | ] ];
  first [discriminate H | injection H as <- <-].

Lemma iteration_env_steps env w r w' :
  iteration wait buffer v T start env w = (r, w') →
  (∀ handle, r ≠ Ok (Some handle)) →
  env_steps env w w'.
Proof.
  intros H Hr. turn_cases H.
  all: try (by destruct (Hr (lock_handle buffer) eq_refl)).
  all: try (eapply env_steps_trans; [|apply Hwait]).
  all: try (eapply env_steps_trans; [apply env_steps_now|];
            apply env_steps_one; simpl; done).
  all: apply env_steps_now.
Qed.

Lemma iteration_acquired env w handle w' :
  iteration wait buffer v T start env w = (Ok (Some handle), w') →
  handle = lock_handle buffer ∧
  load_int32 (replay env (length (trace w)) 2 (mem w)) v 0 = Some Unlocked ∧
  trace w' = trace w ++ [EvNow (env_clock env (length (trace w)));
                         EvCompareExchange v 0 Unlocked Locked Unlocked] ∧
  mem w' = store_int32 (replay env (length (trace w)) 2 (mem w)) v 0 Locked.
Proof.
  rewrite iteration_run. cbv zeta.
  destruct (deadline_passed T start _); [discriminate|].
  rewrite interfered_after_one.
  destruct (load_int32 _ v 0) as [old|]; [|discriminate].
  destruct (Z.eqb_spec old Unlocked) as [Heq|Hne].
  - intros [= <- <-]. rewrite Heq. cbn [mem trace]. by rewrite <- app_assoc.
  - destruct (wait _ env _) as [[outcome| |] w3]; [|discriminate..].
    destruct (String.eqb outcome "timed-out"); [discriminate|].
    by destruct (String.eqb outcome "interrupted").
Qed.

Lemma iteration_throws env w e w' :
  iteration wait buffer v T start env w = (Throw e, w') →
  acquisition_error T e.
Proof.
  intros H. turn_cases H;
    first [apply acq_timed_out | apply acq_interrupted | apply acq_range | idtac].
  destruct Hwait as (_ & _ & Hthrow). destruct (Hthrow _ eq_refl) as [-> _].
  apply acq_range.
Qed.

(** The shape of a turn on a lock word that is in memory. *)
Lemma iteration_shape env w r w' :
  lockable (mem w) v →
  iteration wait buffer v T start env w = (r, w') →
  lockable (mem w') v ∧
  (∀ msg, r ≠ Throw (RangeError msg)) ∧
  ∃ evs, trace w' = trace w ++ evs ∧
    turn_head v T start (env_clock env (length (trace w))) r evs ∧
    ∀ pre ev post, evs = pre ++ ev :: post → is_wake_up ev → post = [] ∧ r = Ok None.
Proof.
  intros Hl H. rewrite iteration_run in H. cbv zeta in H.
  set (now := env_clock env (length (trace w))) in *.
  set (w1 := {| mem := interfered env w; trace := trace w ++ [EvNow now] |}) in *.
  assert (Hhead : ∀ old, Forall (λ x, ¬ is_wake_up x)
                    [EvNow now; EvCompareExchange v 0 Unlocked Locked old]).
  { intros old. repeat constructor; [apply not_wake_up_now|apply not_wake_up_cas]. }
  destruct (deadline_passed T start now) eqn:Hdl.
  { injection H as <- <-. split; [by apply lockable_interfered|]. split; [done|].
    eexists. split; [done|]. split; [by left|].
    intros pre ev post Heq Hw. destruct pre as [|? [|]]; try discriminate.
    injection Heq as <-. by apply not_wake_up_now in Hw. }
  assert (Hl1 : lockable (mem w1) v) by (by apply lockable_interfered).
  destruct (proj1 (lockable_load _ _) (lockable_interfered env w1 v Hl1)) as [old Hold].
  rewrite Hold in H.
  destruct (old =? Unlocked) eqn:Hcmp.
  { injection H as <- <-.
    split; [by apply lockable_store_int32; apply lockable_interfered|]. split; [done|].
    eexists. split; [cbn [trace]; by rewrite <- app_assoc|].
    split; [right; split; [done|]; by eexists old, []|].
    intros pre ev post Heq Hw. by destruct (not_in_forall _ _ _ _ _ (Hhead old) Heq). }
  set (w2 := {| mem := interfered env w1; trace := _ |}) in *.
  assert (Hl2 : lockable (mem w2) v) by (by apply lockable_interfered).
  destruct (wait _ env w2) as [rw w3] eqn:Hwait.
  apply wait_ok in Hwait as (Hsteps & Hwake & Hthrow).
  assert (Hgen : ∀ r' : result (option value),
    (∀ msg, r' ≠ Throw (RangeError msg)) →
    (∀ o, rw = Ok o → o = "ok" ∨ o = "not-equal" → r' = Ok None) →
    lockable (mem w3) v ∧
    (∀ msg, r' ≠ Throw (RangeError msg)) ∧
    ∃ evs, trace w3 = trace w ++ evs ∧
      turn_head v T start now r' evs ∧
      ∀ pre ev post, evs = pre ++ ev :: post → is_wake_up ev → post = [] ∧ r' = Ok None).
  { intros r' Hr' Hnone. split; [by eapply env_steps_lockable|]. split; [done|].
    exists ([EvNow now; EvCompareExchange v 0 Unlocked Locked old] ++ events_since w2 w3).
    split; [|split].
    - rewrite (env_steps_events _ _ _ Hsteps). unfold w2, w1. cbn [trace].
      by rewrite <- !app_assoc.
    - right. split; [done|]. by eexists old, _.
    - intros pre ev post Heq Hw.
      apply app_eq_cons_split in Heq as [(post1 & Heq & _)|(pre2 & _ & Heq)].
      + by destruct (not_in_forall _ _ _ _ _ (Hhead old) Heq).
      + destruct (Hwake _ _ _ Heq Hw) as (-> & o & Ho & Hcases). split; [done|].
        by eapply Hnone. }
  destruct rw as [outcome| |].
  - destruct (String.eqb_spec outcome "timed-out") as [->|Hto].
    { injection H as <- <-. apply Hgen; [done|]. by intros o [= <-] [|]. }
    destruct (String.eqb_spec outcome "interrupted") as [->|Hint].
    { injection H as <- <-. apply Hgen; [done|]. by intros o [= <-] [|]. }
    injection H as <- <-. by apply Hgen.
  - by destruct (Hthrow _ eq_refl) as [_ []].
  - injection H as <- <-. apply Hgen; [done|]. by intros o [=].
Qed.

End Turn.

(** ** The loop as a whole *)

Lemma loop_env_steps async fuel buffer v T start env w r w' :
  acquisition_loop async fuel buffer v T start env w = (r, w') →
  (∀ handle, r ≠ Ok handle) →
  env_steps env w w'.
Proof.
  revert w. induction fuel as [|fuel IH]; intros w H Hr.
  - rewrite acquisition_loop_zero in H. injection H as <- <-. apply env_steps_refl.
  - rewrite acquisition_loop_succ in H.
    destruct (iteration _ buffer v T start env w) as [[[h|]| |] w1] eqn:Hit.
    + injection H as <- <-. by destruct (Hr h).
    + eapply env_steps_trans; [|by eapply IH].
      eapply iteration_env_steps; [apply wait_of_contract|done|]. intros h'. discriminate.
    + injection H as <- <-.
      eapply iteration_env_steps; [apply wait_of_contract|done|]. intros h'. discriminate.
    + injection H as <- <-.
      eapply iteration_env_steps; [apply wait_of_contract|done|]. intros h'. discriminate.
Qed.

Lemma loop_acquired async fuel buffer v T start env w handle w' :
  acquisition_loop async fuel buffer v T start env w = (Ok handle, w') →
  handle = lock_handle buffer ∧
  ∃ w0 now, env_steps env w w0 ∧
    load_int32 (replay env (length (trace w0)) 2 (mem w0)) v 0 = Some Unlocked ∧
    trace w' = trace w0 ++ [EvNow now; EvCompareExchange v 0 Unlocked Locked Unlocked] ∧
    mem w' = store_int32 (replay env (length (trace w0)) 2 (mem w0)) v 0 Locked.
Proof.
  revert w. induction fuel as [|fuel IH]; intros w H.
  - rewrite acquisition_loop_zero in H. discriminate.
  - rewrite acquisition_loop_succ in H.
    destruct (iteration _ buffer v T start env w) as [[[h|]| |] w1] eqn:Hit;
      [| |discriminate..].
    + injection H as <- <-.
      apply iteration_acquired in Hit as (-> & Hl & Ht & Hm).
      split; [done|]. exists w, (env_clock env (length (trace w))).
      split; [apply env_steps_refl|]. done.
    + destruct (IH _ H) as (-> & w0 & now & Hs & Hl & Ht & Hm).
      split; [done|]. exists w0, now. split; [|done].
      eapply env_steps_trans; [|done].
      eapply iteration_env_steps; [apply wait_of_contract|done|]. intros h'. discriminate.
Qed.

Lemma loop_throws async fuel buffer v T start env w e w' :
  acquisition_loop async fuel buffer v T start env w = (Throw e, w') →
  acquisition_error T e.
Proof.
  revert w. induction fuel as [|fuel IH]; intros w H.
  - rewrite acquisition_loop_zero in H. discriminate.
  - rewrite acquisition_loop_succ in H.
    destruct (iteration _ buffer v T start env w) as [[[h|]| |] w1] eqn:Hit;
      [discriminate| | |discriminate].
    + by eapply IH.
    + injection H as <- <-. eapply iteration_throws; [apply wait_of_contract|done].
Qed.

(** ** Validation *)

Lemma validateMutexBuffer_ok buffer v env w :
  valid_buffer buffer v → validateMutexBuffer buffer env w = (Ok v, w).
Proof.
  intros (-> & Hk & Hl & Hs). unfold validateMutexBuffer, as_Int32Array.
  rewrite Hk, Hs. destruct (Nat.ltb_spec (view_length v) 1); [lia|done].
Qed.

Lemma validateMutexBuffer_inv buffer env w r w' :
  validateMutexBuffer buffer env w = (r, w') →
  w' = w ∧
  ((∃ v, r = Ok v ∧ valid_buffer buffer v) ∨
   (∃ msg, r = Throw (MutexError msg) ∧ invalid_buffer_message msg)).
Proof.
  unfold validateMutexBuffer, as_Int32Array, valid_buffer, invalid_buffer_message.
  intros H.
  destruct buffer as [| | | | | | |v| |];
    try solve [injection H as <- <-; eauto 6].
  destruct (view_kind v) eqn:Hk; try solve [injection H as <- <-; eauto 6].
  destruct (view_length v <? 1)%nat eqn:Hlen;
    [injection H as <- <-; naive_solver|].
  apply Nat.ltb_ge in Hlen.
  destruct (ab_shared (view_buffer v)) eqn:Hs; simpl in H; injection H as <- <-;
    naive_solver.
Qed.

(** A value that passes [validateTimeout] is a number. *)
Lemma validateTimeout_number timeoutMs :
  invalid_timeout timeoutMs = false → ∃ n, timeoutMs = VNumber n.
Proof. destruct timeoutMs; try discriminate. eauto. Qed.

Lemma validateTimeout_inv timeoutMs env w r w' :
  validateTimeout timeoutMs env w = (r, w') →
  w' = w ∧
  ((invalid_timeout timeoutMs = true ∧ r = Throw (MutexError invalid_timeout_message)) ∨
   (invalid_timeout timeoutMs = false ∧ ∃ n, timeoutMs = VNumber n ∧ r = Ok n)).
Proof.
  unfold validateTimeout. intros H.
  destruct (invalid_timeout timeoutMs) eqn:Hinv.
  - injection H as <- <-. eauto.
  - destruct (validateTimeout_number _ Hinv) as [n ->].
    injection H as <- <-. eauto 6.
Qed.

Lemma acquisition_unfold async fuel buffer timeoutMs env w :
  acquisition async fuel buffer timeoutMs env w =
  (let* view := validateMutexBuffer buffer in
   let* T := validateTimeout (default_param timeoutMs (VNumber Infinity)) in
   let* start := Date_now in
   let* old := Atomics_compareExchange view 0 Unlocked Locked in
   if old =? Unlocked then ret (lock_handle buffer)
   else acquisition_loop async fuel buffer view T start) env w.
Proof. by destruct async. Qed.

(** ** The fast path *)

(** C2: on a valid buffer whose lock word is Unlocked when the first
    compare-and-swap reads it, [lock] and [lockSync] succeed for every
    valid timeout (0 included) and whatever the fuel: they return a handle
    after exactly one clock reading and one compare-and-swap, with no wait
    and no notify, and leave the word Locked. *)
Theorem fast_path_acquires_without_waiting async fuel buffer v timeoutMs env w :
  valid_buffer buffer v →
  invalid_timeout (default_param timeoutMs (VNumber Infinity)) = false →
  load_int32 (replay env (length (trace w)) 2 (mem w)) v 0 = Some Unlocked →
  ∃ w', acquisition async fuel buffer timeoutMs env w = (Ok (lock_handle buffer), w') ∧
        events_since w w' = [EvNow (env_clock env (length (trace w)));
                             EvCompareExchange v 0 Unlocked Locked Unlocked] ∧
        Forall (λ e, is_wait e = false ∧ is_notify e = false) (events_since w w') ∧
        lock_word w' v = Some Locked.
Proof.
  intros Hv Ht Hword.
  destruct (validateTimeout_number _ Ht) as [T HT].
  rewrite acquisition_unfold. unfold bind.
  rewrite (validateMutexBuffer_ok _ _ _ _ Hv).
  unfold validateTimeout. rewrite Ht, HT.
  unfold ret, Date_now, Atomics_compareExchange.
  rewrite interfered_after_one, Hword. cbn -[replay].
  eexists. split; [done|].
  match goal with
  | |- events_since w ?w1 = _ ∧ _ =>
      assert (Hev : events_since w w1 =
                [EvNow (env_clock env (length (trace w)));
                 EvCompareExchange v 0 Unlocked Locked Unlocked])
        by (apply events_since_app; simpl; by rewrite <- app_assoc)
  end.
  rewrite Hev. split; [done|]. split; [by repeat constructor|].
  unfold lock_word. cbn [mem]. apply load_store_int32.
  - apply lockable_load. by rewrite Hword.
  - unfold Locked. lia.
Qed.

Lemma fast_path_witness :
  ∃ w', acquisition true 0 sample_buffer (VNumber (Finite 0)) still_environment free_world
          = (Ok (lock_handle sample_buffer), w') ∧
        events_since free_world w' =
          [EvNow 0; EvCompareExchange sample_view 0 Unlocked Locked Unlocked] ∧
        Forall (λ e, is_wait e = false ∧ is_notify e = false) (events_since free_world w') ∧
        lock_word w' sample_view = Some Locked.
Proof.
  apply (fast_path_acquires_without_waiting true 0 sample_buffer sample_view
           (VNumber (Finite 0)) still_environment free_world).
  - repeat split; simpl; lia.
  - reflexivity.
  - vm_compute. reflexivity.
Defined.

(** ** Release *)

(** What [unlock] does on a valid buffer, by the value [old] that its
    compare-and-swap finds in the lock word. *)
Lemma unlock_run buffer v fromDispose env w :
  valid_buffer buffer v → lockable (mem w) v →
  ∃ old, load_int32 (interfered env w) v 0 = Some old ∧
    unlock buffer fromDispose env w =
    if old =? Locked then
      (Ok VUndefined,
       {| mem := apply_stores (store_int32 (interfered env w) v 0 Unlocked)
                   (env_others env (S (length (trace w))));
          trace := trace w ++ [EvCompareExchange v 0 Locked Unlocked old; EvNotify v 0] |})
    else
      (if fromDispose then Ok VUndefined else Throw (MutexError not_locked_message),
       {| mem := interfered env w;
          trace := trace w ++ [EvCompareExchange v 0 Locked Unlocked old] |}).
Proof.
  intros Hv Hl.
  destruct (proj1 (lockable_load _ _) (lockable_interfered env w v Hl)) as [old Hold].
  exists old. split; [done|].
  unfold unlock, bind. rewrite (validateMutexBuffer_ok _ _ _ _ Hv).
  unfold Atomics_compareExchange. rewrite Hold.
  destruct (old =? Locked) eqn:Hcmp; simpl; [|by destruct fromDispose].
  unfold Atomics_notify, interfered. cbn [mem trace].
  rewrite length_app, Nat.add_1_r.
  assert (Hl' : lockable (apply_stores (store_int32 (interfered env w) v 0 Unlocked)
                            (env_others env (S (length (trace w))))) v).
  { apply lockable_apply_stores, lockable_store_int32; by apply lockable_interfered. }
  apply lockable_load in Hl' as [z Hz]. unfold interfered in Hz. rewrite Hz.
  by rewrite <- app_assoc.
Qed.

(** The release of a handle on a valid buffer: it never throws, and it
    leaves the lock word not Locked unless others act at once. *)
Lemma release_run buffer v env w :
  valid_buffer buffer v → lockable (mem w) v →
  ∃ old w',
    unlock buffer true env w = (Ok VUndefined, w') ∧
    events_since w w' = EvCompareExchange v 0 Locked Unlocked old ::
                        (if old =? Locked then [EvNotify v 0] else []) ∧
    trace w' = trace w ++ events_since w w' ∧
    lockable (mem w') v ∧
    (quiet env → lock_word w' v ≠ Some Locked).
Proof.
  intros Hv Hl.
  destruct (unlock_run buffer v true env w Hv Hl) as (old & Hold & Hrun).
  exists old. rewrite Hrun.
  destruct (Z.eqb_spec old Locked) as [Heq|Hne].
  - eexists. split; [done|].
    rewrite (events_since_app w _
               [EvCompareExchange v 0 Locked Unlocked old; EvNotify v 0]) by done.
    split; [done|]. split; [done|]. split.
    { cbn [mem]. apply lockable_apply_stores, lockable_store_int32;
        by apply lockable_interfered. }
    intros Hq. unfold lock_word. cbn [mem]. rewrite Hq, apply_stores_nil.
    rewrite load_store_int32; [done| |unfold Unlocked; lia].
    by apply lockable_interfered.
  - eexists. split; [done|].
    rewrite (events_since_app w _ [EvCompareExchange v 0 Locked Unlocked old]) by done.
    split; [done|]. split; [done|]. split; [by apply lockable_interfered|].
    intros _. unfold lock_word. cbn [mem]. rewrite Hold. by intros [= ->].
Qed.

(** [unlock] only ever throws the errors of validation and NotLocked. *)
Lemma unlock_not_locked_inv buffer fromDispose env w w' :
  unlock buffer fromDispose env w = (Throw (MutexError not_locked_message), w') →
  ∃ v old, valid_buffer buffer v ∧ fromDispose = false ∧
    load_int32 (interfered env w) v 0 = Some old ∧ old ≠ Locked ∧
    w' = {| mem := interfered env w;
            trace := trace w ++ [EvCompareExchange v 0 Locked Unlocked old] |}.
Proof.
  unfold unlock, bind. intros H.
  destruct (validateMutexBuffer buffer env w) as [[v| |] w0] eqn:Hval;
    apply validateMutexBuffer_inv in Hval as [-> Hval].
  - destruct Hval as [(v' & [= <-] & Hv)|(msg & [=] & _)].
    exists v. unfold Atomics_compareExchange in H.
    destruct (load_int32 (interfered env w) v 0) as [old|] eqn:Hold; [|discriminate].
    exists old. destruct (Z.eqb_spec old Locked) as [->|Hne]; simpl in H.
    + unfold Atomics_notify in H.
      match type of H with
      | context [match load_int32 ?m ?a ?b with _ => _ end] =>
          destruct (load_int32 m a b)
      end; discriminate.
    + destruct fromDispose; [discriminate|]. by injection H as <-.
  - destruct Hval as [(v' & [=] & _)|(msg & [= ->] & Hmsg)].
    injection H as -> _. by destruct Hmsg as [|[|]].
  - by destruct Hval as [(v' & [=] & _)|(msg & [=] & _)].
Qed.

(** C10: when [unlock] raises NotLocked, the value it observed in the lock
    word was not Locked, its only operation is the failed compare-and-swap
    (no notification is issued), and it stored nothing: the memory is what
    the other participants made of it at that one scheduling point, the
    lock word still holds the observed value, and in a quiet environment
    the memory is exactly as before the call. *)
Theorem unlock_not_locked_is_atomic buffer fromDispose env w w' :
  unlock buffer fromDispose env w = (Throw (MutexError not_locked_message), w') →
  ∃ v old, valid_buffer buffer v ∧ old ≠ Locked ∧
    events_since w w' = [EvCompareExchange v 0 Locked Unlocked old] ∧
    Forall (λ e, is_notify e = false ∧ is_own_write e = false) (events_since w w') ∧
    mem w' = replay env (length (trace w)) 1 (mem w) ∧
    lock_word w' v = Some old ∧
    (quiet env → mem w' = mem w).
Proof.
  intros H. apply unlock_not_locked_inv in H as (v & old & Hv & _ & Hold & Hne & ->).
  exists v, old. split; [done|]. split; [done|].
  rewrite (events_since_app w _ [EvCompareExchange v 0 Locked Unlocked old]) by done.
  split; [done|]. split.
  { constructor; [|done]. split; [done|]. simpl. by apply Z.eqb_neq. }
  split; [done|]. split; [done|].
  intros Hq. cbn [mem]. unfold interfered. by rewrite Hq.
Qed.

Lemma unlock_not_locked_witness :
  ∃ v old, valid_buffer sample_buffer v ∧ old ≠ Locked ∧
    events_since free_world
      {| mem := mem free_world;
         trace := [EvCompareExchange sample_view 0 Locked Unlocked Unlocked] |}
      = [EvCompareExchange v 0 Locked Unlocked old] ∧
    Forall (λ e, is_notify e = false ∧ is_own_write e = false)
      (events_since free_world
         {| mem := mem free_world;
            trace := [EvCompareExchange sample_view 0 Locked Unlocked Unlocked] |}) ∧
    mem free_world = replay still_environment 0 1 (mem free_world) ∧
    lock_word {| mem := mem free_world;
                 trace := [EvCompareExchange sample_view 0 Locked Unlocked Unlocked] |} v
      = Some old ∧
    (quiet still_environment → mem free_world = mem free_world).
Proof.
  apply (unlock_not_locked_is_atomic sample_buffer false still_environment free_world
           {| mem := mem free_world;
              trace := [EvCompareExchange sample_view 0 Locked Unlocked Unlocked] |}).
  vm_compute. reflexivity.
Defined.

Lemma dispose_is_unlock uf fuel buffer env w :
  call_method uf fuel (lock_handle buffer) dispose [] env w = unlock buffer true env w.
Proof. reflexivity. Qed.

Lemma mutex_unlock_is_unlock uf fuel buffer env w :
  call_method uf fuel (mutex_object buffer) (KString "unlock") [] env w
  = unlock buffer false env w.
Proof. reflexivity. Qed.

(** C3, as the code has it.  A handle keeps no record of having been
    released, so a second release is a release in whatever world the
    participant then finds.  On a valid buffer such a release never
    throws; when the lock word is not Locked at the moment the release
    reads it, the release is a no-op: it performs one failed
    compare-and-swap, issues no notification and stores nothing, so that in
    a quiet environment the memory is unchanged.  In particular, in a
    quiet environment, a second release that follows the first one leaves
    the memory as the first one left it.  The [unlock] method of the
    mutex, called when the lock word is Unlocked, throws NotLocked. *)
Theorem repeated_release_is_silent uf fuel buffer v env w :
  valid_buffer buffer v → lockable (mem w) v →
  (∃ w', call_method uf fuel (lock_handle buffer) dispose [] env w = (Ok VUndefined, w') ∧
     (load_int32 (interfered env w) v 0 ≠ Some Locked →
      (∃ old, old ≠ Locked ∧
         events_since w w' = [EvCompareExchange v 0 Locked Unlocked old]) ∧
      mem w' = interfered env w ∧
      (quiet env → mem w' = mem w))) ∧
  (quiet env →
   ∀ w1, call_method uf fuel (lock_handle buffer) dispose [] env w = (Ok VUndefined, w1) →
   ∃ old w2,
     call_method uf fuel (lock_handle buffer) dispose [] env w1 = (Ok VUndefined, w2) ∧
     old ≠ Locked ∧
     events_since w1 w2 = [EvCompareExchange v 0 Locked Unlocked old] ∧
     mem w2 = mem w1) ∧
  (load_int32 (interfered env w) v 0 = Some Unlocked →
   ∃ w', call_method uf fuel (mutex_object buffer) (KString "unlock") [] env w
         = (Throw (MutexError not_locked_message), w')).
Proof.
  intros Hv Hl. rewrite !dispose_is_unlock, mutex_unlock_is_unlock.
  destruct (unlock_run buffer v true env w Hv Hl) as (old & Hold & Hrun).
  destruct (unlock_run buffer v false env w Hv Hl) as (old' & Hold' & Hrun').
  rewrite Hold in Hold'. injection Hold' as <-.
  split; [|split].
  - rewrite Hrun, Hold. destruct (Z.eqb_spec old Locked) as [->|Hne].
    + eexists. split; [done|]. intros Hc. by destruct Hc.
    + eexists. split; [done|]. intros _. split; [|split].
      * exists old. split; [done|]. by apply events_since_app.
      * done.
      * intros Hq. cbn [mem]. unfold interfered. by rewrite Hq.
  - intros Hq w1 Hfirst. setoid_rewrite dispose_is_unlock.
    destruct (release_run buffer v env w Hv Hl) as (o & w1' & Hrel & _ & _ & Hl1 & Hfree).
    rewrite Hfirst in Hrel. injection Hrel as <-. specialize (Hfree Hq).
    destruct (unlock_run buffer v true env w1 Hv Hl1) as (old2 & Hold2 & Hrun2).
    rewrite interfered_quiet in Hold2 by done.
    assert (Hne : old2 ≠ Locked).
    { intros ->. by apply Hfree. }
    apply Z.eqb_neq in Hne as Hcmp. rewrite Hcmp in Hrun2.
    exists old2. eexists. split; [exact Hrun2|]. split; [done|].
    split; [by apply events_since_app|].
    cbn [mem]. by apply interfered_quiet.
  - rewrite Hrun', Hold. intros [= ->]. simpl. eauto.
Qed.

Lemma repeated_release_witness :
  (∃ w', call_method no_user_function 0 (lock_handle sample_buffer) dispose []
           still_environment held_world = (Ok VUndefined, w') ∧
     (load_int32 (interfered still_environment held_world) sample_view 0 ≠ Some Locked →
      (∃ old, old ≠ Locked ∧
         events_since held_world w' =
           [EvCompareExchange sample_view 0 Locked Unlocked old]) ∧
      mem w' = interfered still_environment held_world ∧
      (quiet still_environment → mem w' = mem held_world))) ∧
  (quiet still_environment →
   ∀ w1, call_method no_user_function 0 (lock_handle sample_buffer) dispose []
           still_environment held_world = (Ok VUndefined, w1) →
   ∃ old w2,
     call_method no_user_function 0 (lock_handle sample_buffer) dispose []
       still_environment w1 = (Ok VUndefined, w2) ∧
     old ≠ Locked ∧
     events_since w1 w2 = [EvCompareExchange sample_view 0 Locked Unlocked old] ∧
     mem w2 = mem w1) ∧
  (load_int32 (interfered still_environment held_world) sample_view 0 = Some Unlocked →
   ∃ w', call_method no_user_function 0 (mutex_object sample_buffer) (KString "unlock") []
           still_environment held_world
         = (Throw (MutexError not_locked_message), w')).
Proof.
  apply (repeated_release_is_silent no_user_function 0 sample_buffer sample_view
           still_environment held_world).
  - repeat split; simpl; lia.
  - exists (bytes_of_int32 Locked). repeat split; simpl; lia.
Defined.

(** C3 as stated fails: once the lock has been taken again, a second
    release of the first handle sets the lock word back to Unlocked
    ([isLocked] is true before it and false after it). *)
Lemma second_release_frees_new_holder :
  (release_twice_scenario no_user_function 0 still_environment empty_world).1
  = Ok (VBoolean true, VBoolean false).
Proof. vm_compute. reflexivity. Qed.

(** ** Creation *)

Lemma lookup_insert_block (m : gmap positive (list byte)) l bs :
  <[l := bs]> m !! l = Some bs.
Proof. apply lookup_insert_eq. Qed.

Lemma alter_insert_block (m : gmap positive (list byte)) l bs f :
  alter f l (<[l := bs]> m) = <[l := f bs]> m.
Proof. apply alter_insert_eq. Qed.

Lemma createMutex_run env w :
  ∃ v, valid_buffer (VTypedArray v) v ∧
    (ab_block (view_buffer v) ∉ dom (mem w)) ∧
    v = {| view_kind := Int32;
           view_buffer := {| ab_shared := true; ab_block := fresh (dom (mem w)) |};
           view_offset := 0; view_length := 1 |} ∧
    createMutex env w =
      (Ok (mutex_object (VTypedArray v)),
       {| mem := (<[ab_block (view_buffer v) := bytes_of_int32 Unlocked]> (mem w));
          trace := trace w |}).
Proof.
  eexists. split; [|split; [|split; [reflexivity|]]].
  - repeat split; simpl; lia.
  - simpl. apply is_fresh.
  - unfold createMutex, bind, new_SharedArrayBuffer, new_Int32Array, byteLength, bind.
    cbn [mem trace ab_block]. rewrite lookup_insert_block. cbn -[fresh].
    unfold set_int32, load_int32. cbn -[fresh]. rewrite lookup_insert_block.
    cbn -[fresh]. unfold update_block. cbn -[fresh].
    by rewrite alter_insert_block.
Qed.

(** [withMutex] on a buffer that passes validation wraps that buffer. *)
Lemma withMutex_buffer buffer v env w :
  valid_buffer buffer v → withMutex buffer env w = (Ok (mutex_object buffer), w).
Proof.
  intros Hv. pose proof Hv as (-> & _). unfold withMutex, bind.
  change (String.eqb (typeof (VTypedArray v)) "string") with false. unfold ret at 1.
  by rewrite (validateMutexBuffer_ok _ _ _ _ Hv).
Qed.

Lemma isLocked_run buffer v env w :
  valid_buffer buffer v → lockable (mem w) v →
  ∃ current, load_int32 (interfered env w) v 0 = Some current ∧
    isLocked buffer env w =
      (Ok (VBoolean (current =? Locked)),
       {| mem := interfered env w; trace := trace w ++ [EvLoad v 0 current] |}).
Proof.
  intros (-> & Hk & _ & _) Hl.
  destruct (proj1 (lockable_load _ _) (lockable_interfered env w v Hl)) as [z Hz].
  exists z. split; [done|].
  unfold isLocked, as_Int32Array, bind, Atomics_load. by rewrite Hk, Hz.
Qed.

Lemma mutex_lock_is_acquisition uf (async : bool) fuel buffer args env w :
  call_method uf fuel (mutex_object buffer)
    (KString (if async then "lock" else "lockSync")) args env w
  = acquisition async fuel buffer (argument 0 args) env w.
Proof. by destruct async. Qed.

Lemma mutex_isLocked_is_isLocked uf fuel buffer env w :
  call_method uf fuel (mutex_object buffer) (KString "isLocked") [] env w
  = isLocked buffer env w.
Proof. reflexivity. Qed.

(** ** The life of an uncontended lock *)

(** C1: on a freshly created mutex and with no other participant acting,
    [lock()] (and [lockSync()]) returns a handle, [isLocked()] is then
    true, and after the handle's release [isLocked()] is false and the
    lock word is Unlocked. *)
Theorem uncontended_lock_then_release uf async fuel env w :
  quiet env →
  ∃ v w',
    lock_release_scenario uf async fuel env w
    = (Ok (mutex_object (VTypedArray v), lock_handle (VTypedArray v),
           VBoolean true, VBoolean false), w') ∧
    valid_buffer (VTypedArray v) v ∧
    lock_word w' v = Some Unlocked.
Proof.
  intros Hq.
  destruct (createMutex_run env w) as (v & Hv & Hfresh & Hveq & Hcreate).
  exists v. unfold lock_release_scenario, bind at 1. rewrite Hcreate.
  set (w1 := {| mem := _; trace := trace w |}).
  assert (Hword1 : load_int32 (mem w1) v 0 = Some Unlocked).
  { unfold w1, load_int32. cbn [mem]. rewrite lookup_insert_block.
    rewrite Hveq. reflexivity. }
  destruct (fast_path_acquires_without_waiting async fuel (VTypedArray v) v VUndefined
              env w1 Hv eq_refl) as (w2 & Hlock & _ & _ & Hword2).
  { by rewrite replay_quiet. }
  unfold lock_word in Hword2. unfold bind at 1. rewrite mutex_lock_is_acquisition. cbn [argument nth].
  rewrite Hlock.
  assert (Hl2 : lockable (mem w2) v) by (apply lockable_load; by rewrite Hword2).
  destruct (isLocked_run _ v env w2 Hv Hl2) as (c & Hc & Hread).
  rewrite interfered_quiet in Hc by done. rewrite Hword2 in Hc. injection Hc as <-.
  unfold bind at 1. rewrite mutex_isLocked_is_isLocked, Hread.
  set (w3 := {| mem := interfered env w2; trace := _ |}).
  assert (Hm3 : mem w3 = mem w2) by (by apply interfered_quiet).
  assert (Hl3 : lockable (mem w3) v) by (by rewrite Hm3).
  destruct (unlock_run _ v true env w3 Hv Hl3) as (old & Hold & Hrel).
  rewrite interfered_quiet, Hm3, Hword2 in Hold by done. injection Hold as <-.
  unfold bind at 1. rewrite dispose_is_unlock, Hrel.
  cbn [Z.eqb Locked Pos.eqb].
  set (w4 := {| mem := apply_stores _ _; trace := _ |}).
  assert (Hm4 : mem w4 = store_int32 (mem w2) v 0 Unlocked).
  { unfold w4. cbn [mem]. by rewrite Hq, interfered_quiet, Hm3. }
  assert (Hword4 : load_int32 (mem w4) v 0 = Some Unlocked).
  { rewrite Hm4. apply load_store_int32; [done|]. unfold Unlocked. lia. }
  assert (Hl4 : lockable (mem w4) v) by (apply lockable_load; by rewrite Hword4).
  destruct (isLocked_run _ v env w4 Hv Hl4) as (c & Hc & Hread').
  rewrite interfered_quiet in Hc by done. rewrite Hword4 in Hc. injection Hc as <-.
  unfold bind at 1. rewrite mutex_isLocked_is_isLocked, Hread'.
  eexists. split; [reflexivity|]. split; [done|].
  unfold lock_word. cbn [mem]. by rewrite interfered_quiet.
Qed.

Lemma still_environment_quiet : quiet still_environment.
Proof. intros n. reflexivity. Defined.

Lemma uncontended_lock_then_release_witness :
  ∃ v w',
    lock_release_scenario no_user_function true 0 still_environment empty_world
    = (Ok (mutex_object (VTypedArray v), lock_handle (VTypedArray v),
           VBoolean true, VBoolean false), w') ∧
    valid_buffer (VTypedArray v) v ∧
    lock_word w' v = Some Unlocked.
Proof.
  apply (uncontended_lock_then_release no_user_function true 0 still_environment
           empty_world).
  apply still_environment_quiet.
Defined.

(** ** Failed acquisitions *)

Lemma append_empty_r (s : string) : s +:+ "" = s.
Proof.
  induction s as [|a s IH]; [done|].
  change (String a (s +:+ "") = String a s). by rewrite IH.
Qed.

(** An acquisition that does not return a handle stored nothing. *)
Lemma acquisition_env_steps async fuel buffer timeoutMs env w r w' :
  acquisition async fuel buffer timeoutMs env w = (r, w') →
  (∀ handle, r ≠ Ok handle) →
  env_steps env w w'.
Proof.
  rewrite acquisition_unfold. unfold bind. intros H Hr.
  destruct (validateMutexBuffer buffer env w) as [[v| |] w0] eqn:Hval;
    apply validateMutexBuffer_inv in Hval as [-> _];
    [|injection H as <- <-; apply env_steps_refl..].
  destruct (validateTimeout _ env w) as [[T| |] w0] eqn:Htm;
    apply validateTimeout_inv in Htm as [-> _];
    [|injection H as <- <-; apply env_steps_refl..].
  unfold Date_now, Atomics_compareExchange in H.
  set (w1 := {| mem := interfered env w; trace := _ |}) in *.
  assert (H1 : env_steps env w w1) by apply env_steps_now.
  destruct (load_int32 (interfered env w1) v 0) as [old|]; [|by injection H as <- <-].
  destruct (old =? Unlocked) eqn:Hold.
  - injection H as <- <-. by destruct (Hr (lock_handle buffer)).
  - eapply env_steps_trans; [exact H1|].
    eapply env_steps_trans; [|by eapply loop_env_steps].
    by apply env_steps_one.
Qed.

(** C6: an acquisition attempt that fails (by a validation error, a
    timeout or an interruption) made no store: none of its operations is
    a successful compare-and-swap, the memory it leaves is the memory it
    found changed only by what the other participants did meanwhile, and
    in a quiet environment it is exactly the memory it found. *)
Theorem failed_acquisition_never_writes async fuel buffer timeoutMs env w e w' :
  acquisition async fuel buffer timeoutMs env w = (Throw e, w') →
  Forall (λ ev, is_own_write ev = false) (events_since w w') ∧
  mem w' = replay env (length (trace w)) (length (events_since w w')) (mem w) ∧
  (quiet env → mem w' = mem w).
Proof.
  intros H. apply acquisition_env_steps in H as (evs & Ht & Hm & Hf); [|done].
  rewrite (events_since_app _ _ _ Ht). split; [done|]. split; [done|].
  intros Hq. by rewrite Hm, replay_quiet.
Qed.

Lemma failed_acquisition_witness :
  let w' := (acquisition false 1 sample_buffer (VNumber (Finite 10))
               still_environment held_world).2 in
  Forall (λ ev, is_own_write ev = false) (events_since held_world w') ∧
  mem w' = replay still_environment (length (trace held_world))
             (length (events_since held_world w')) (mem held_world) ∧
  (quiet still_environment → mem w' = mem held_world).
Proof.
  apply (failed_acquisition_never_writes false 1 sample_buffer (VNumber (Finite 10))
           still_environment held_world
           (MutexError (timed_out_message (Finite 10)))).
  vm_compute. reflexivity.
Defined.

(** The errors of an acquisition whose timeout argument is the number [T]. *)
Lemma acquisition_throws async fuel buffer timeoutMs T env w e w' :
  default_param timeoutMs (VNumber Infinity) = VNumber T →
  acquisition async fuel buffer timeoutMs env w = (Throw e, w') →
  acquisition_error T e.
Proof.
  rewrite acquisition_unfold. unfold bind. intros HT H. rewrite HT in H.
  destruct (validateMutexBuffer buffer env w) as [[v| |] w0] eqn:Hval;
    apply validateMutexBuffer_inv in Hval as [-> Hval]; [| |discriminate].
  2:{ destruct Hval as [(? & [=] & _)|(msg & [= ->] & Hmsg)].
      injection H as <- _. by apply acq_invalid_buffer. }
  destruct (validateTimeout _ env w) as [[T'| |] w0] eqn:Htm;
    apply validateTimeout_inv in Htm as [-> Htm]; [| |discriminate].
  2:{ destruct Htm as [(_ & [= ->])|(_ & ? & _ & [=])].
      injection H as <- _. apply acq_invalid_timeout. }
  destruct Htm as [(_ & [=])|(_ & n & [= <-] & [= <-])].
  unfold Date_now, Atomics_compareExchange in H.
  match type of H with
  | context [match load_int32 ?m ?a ?b with _ => _ end] =>
      destruct (load_int32 m a b) as [old|]
  end.
  2:{ injection H as <- _. apply acq_range. }
  destruct (old =? Unlocked); [discriminate|].
  by eapply loop_throws.
Qed.

(** C7: when [lock] or [lockSync], called with the timeout [T], fails with
    a timeout error -- raised by the deadline test or after a wait that
    reported 'timed-out' -- the message of the error contains the text of
    [T], as the template literal prints it, followed by "ms": "10ms" for
    10, "0.5ms" for a half, "1e+21ms" for 10^21. *)
Theorem timeout_message_embeds_timeout async fuel buffer (T : number) env w msg w' :
  acquisition async fuel buffer (VNumber T) env w = (Throw (MutexError msg), w') →
  is_timeout_message msg = true →
  contains msg (number_to_string T +:+ "ms").
Proof.
  intros H Hmsg.
  apply (acquisition_throws _ _ _ _ T) in H; [|done].
  inversion H as [m [Hm|[Hm|Hm]]| | | |]; subst; try discriminate.
  exists "Mutex lock acquisition timed out after ", "".
  unfold timed_out_message. by rewrite append_empty_r.
Qed.

Lemma timeout_message_witness :
  contains "Mutex lock acquisition timed out after 10ms" "10ms" ∧
  contains "Mutex lock acquisition timed out after 0.5ms" "0.5ms" ∧
  contains "Mutex lock acquisition timed out after 1e+21ms" "1e+21ms".
Proof.
  split; [|split].
  - apply (timeout_message_embeds_timeout true 20 sample_buffer (Finite 10)
             still_polling_environment held_world
             "Mutex lock acquisition timed out after 10ms"
             (acquisition true 20 sample_buffer (VNumber (Finite 10))
                still_polling_environment held_world).2).
    + vm_compute. reflexivity.
    + reflexivity.
  - apply (timeout_message_embeds_timeout false 1 sample_buffer (Fraction 1 1)
             still_environment held_world
             "Mutex lock acquisition timed out after 0.5ms"
             (acquisition false 1 sample_buffer (VNumber (Fraction 1 1))
                still_environment held_world).2).
    + vm_compute. reflexivity.
    + reflexivity.
  - apply (timeout_message_embeds_timeout false 1 sample_buffer (Finite (10 ^ 21))
             still_environment held_world
             "Mutex lock acquisition timed out after 1e+21ms"
             (acquisition false 1 sample_buffer (VNumber (Finite (10 ^ 21)))
                still_environment held_world).2).
    + vm_compute. reflexivity.
    + reflexivity.
Defined.

(** ** The order of operations in the loop *)

Lemma turn_head_result {A B} v T start now (r : result A) (r' : result B) evs :
  turn_head v T start now r evs →
  (∀ e, r = Throw e → r' = Throw e) →
  turn_head v T start now r' evs.
Proof.
  intros [(Hd & -> & ->)|(Hd & Hevs)] Hr; [left|right]; [|done].
  split; [done|]. split; [done|]. by apply Hr.
Qed.

Lemma loop_wake_ups async fuel buffer v T start env w r w' :
  lockable (mem w) v →
  acquisition_loop async fuel buffer v T start env w = (r, w') →
  ∃ evs, trace w' = trace w ++ evs ∧
    after_wake_up v T start r evs ∧
    ∀ pre e post, evs = pre ++ e :: post → is_wake_up e →
                  after_wake_up v T start r post.
Proof.
  revert w. induction fuel as [|fuel IH]; intros w Hl H.
  { rewrite acquisition_loop_zero in H. injection H as <- <-.
    exists []. rewrite app_nil_r. split; [done|]. split; [by left|].
    intros pre e post Heq. by destruct pre. }
  rewrite acquisition_loop_succ in H.
  destruct (iteration _ buffer v T start env w) as [r1 w1] eqn:Hit.
  apply iteration_shape in Hit as (Hl1 & _ & evs1 & Ht1 & Hhead & Hwake);
    [|apply wait_of_contract|done].
  assert (Hlast : ∀ r' : result value,
    r1 ≠ Ok None → (∀ e, r1 = Throw e → r' = Throw e) →
    ∃ evs, trace w1 = trace w ++ evs ∧
      after_wake_up v T start r' evs ∧
      ∀ pre e post, evs = pre ++ e :: post → is_wake_up e →
                    after_wake_up v T start r' post).
  { intros r' Hr1 Hr'. exists evs1. split; [done|]. split.
    - right. eexists. by eapply turn_head_result.
    - intros pre e post Heq Hw. by destruct (Hwake _ _ _ Heq Hw) as [_ ?]. }
  destruct r1 as [[h|]| |].
  - injection H as <- <-. apply Hlast; [done|]. by intros e [=].
  - destruct (IH _ Hl1 H) as (evs2 & Ht2 & Hhead2 & Hrest).
    exists (evs1 ++ evs2). split; [by rewrite Ht2, Ht1, <- app_assoc|]. split.
    + right. eexists. destruct Hhead as [(_ & _ & [=])|(Hd & old & rest & ->)].
      right. split; [done|]. by exists old, (rest ++ evs2).
    + intros pre e post Heq Hw.
      apply app_eq_cons_split in Heq as [(post1 & Heq & ->)|(pre2 & _ & Heq)].
      * by destruct (Hwake _ _ _ Heq Hw) as [-> _].
      * by eapply Hrest.
  - injection H as <- <-. apply Hlast; [done|]. by intros e0 [= ->].
  - injection H as <- <-. apply Hlast; [done|]. by intros e [=].
Qed.

(** C4, as the code has it.  When the wait of [lock] or [lockSync]
    returns 'ok' (woken) or 'not-equal' (value mismatch), control goes back
    to the head of the loop, which reads the clock and tests the deadline
    before anything else: if the deadline has passed, the timeout failure
    is raised at once, with no compare-and-swap after the wake-up; only
    otherwise is the compare-and-swap the next operation. *)
Theorem wake_up_rechecks_deadline_first
    async fuel buffer v timeoutMs T env w r w' pre e post :
  valid_buffer buffer v → lockable (mem w) v →
  default_param timeoutMs (VNumber Infinity) = VNumber T →
  acquisition async fuel buffer timeoutMs env w = (r, w') →
  events_since w w' = pre ++ e :: post →
  is_wake_up e →
  after_wake_up v T (env_clock env (length (trace w))) r post.
Proof.
  intros Hv Hl HT H Hsplit Hw.
  rewrite acquisition_unfold in H. unfold bind in H.
  rewrite (validateMutexBuffer_ok _ _ _ _ Hv), HT in H.
  destruct (validateTimeout (VNumber T) env w) as [[T'| |] w0] eqn:Htm;
    apply validateTimeout_inv in Htm as [-> Htm].
  2,3: injection H as <- <-; rewrite events_since_refl in Hsplit; by destruct pre.
  destruct Htm as [(_ & [=])|(_ & n & [= <-] & [= <-])].
  unfold Date_now in H.
  set (start := env_clock env (length (trace w))) in *.
  set (w1 := {| mem := interfered env w; trace := trace w ++ [EvNow start] |}) in *.
  assert (Hl1 : lockable (mem w1) v) by (by apply lockable_interfered).
  unfold Atomics_compareExchange in H.
  destruct (proj1 (lockable_load _ _) (lockable_interfered env w1 v Hl1)) as [old Hold].
  rewrite Hold in H.
  assert (Hhead : Forall (λ x, ¬ is_wake_up x)
                    [EvNow start; EvCompareExchange v 0 Unlocked Locked old]).
  { repeat constructor; [apply not_wake_up_now|apply not_wake_up_cas]. }
  destruct (old =? Unlocked) eqn:Hcmp.
  { injection H as <- <-.
    rewrite (events_since_app w _ [EvNow start; EvCompareExchange v 0 Unlocked Locked old])
      in Hsplit by (cbn [trace]; by rewrite <- app_assoc).
    by destruct (not_in_forall _ _ _ _ _ Hhead Hsplit). }
  set (w2 := {| mem := interfered env w1; trace := _ |}) in *.
  assert (Hl2 : lockable (mem w2) v) by (by apply lockable_interfered).
  destruct (loop_wake_ups _ _ _ _ _ _ _ _ _ _ Hl2 H) as (evs & Ht & _ & Hrest).
  rewrite (events_since_app w _
             ([EvNow start; EvCompareExchange v 0 Unlocked Locked old] ++ evs))
    in Hsplit by (rewrite Ht; unfold w2, w1; cbn [trace]; by rewrite <- !app_assoc).
  apply app_eq_cons_split in Hsplit as [(post1 & Heq & _)|(pre2 & _ & Heq)].
  - by destruct (not_in_forall _ _ _ _ _ Hhead Heq).
  - by eapply Hrest.
Qed.

Lemma wake_up_rechecks_deadline_witness :
  after_wake_up sample_view (Finite 10) 0
    (Throw (MutexError (timed_out_message (Finite 10)))) [EvNow 11].
Proof.
  apply (wake_up_rechecks_deadline_first true 2 sample_buffer sample_view
           (VNumber (Finite 10)) (Finite 10)
           late_release_environment held_world
           (Throw (MutexError (timed_out_message (Finite 10))))
           (acquisition true 2 sample_buffer (VNumber (Finite 10))
              late_release_environment held_world).2
           [EvNow 0; EvCompareExchange sample_view 0 Unlocked Locked Locked;
            EvNow 0; EvCompareExchange sample_view 0 Unlocked Locked Locked]
           (EvWait true sample_view 0 Locked (Finite 10) "not-equal")
           [EvNow 11]).
  - repeat split; simpl; lia.
  - exists (bytes_of_int32 Locked). repeat split; simpl; lia.
  - reflexivity.
  - vm_compute. reflexivity.
  - vm_compute. reflexivity.
  - repeat eexists. by right.
Defined.

(** C4 as stated fails: the holder releases while the participant waits,
    the wait returns 'not-equal', and the participant, scheduled after its
    deadline, fails with the timeout error after a clock reading alone --
    no compare-and-swap follows the wake-up, although the lock is free. *)
Lemma wake_up_then_timeout_without_cas :
  ¬ timeout_after_wake_up_follows_failed_cas.
Proof.
  intros Hclaim.
  destruct (Hclaim true 2%nat sample_buffer sample_view (Finite 10)
              late_release_environment held_world
              (acquisition true 2 sample_buffer (VNumber (Finite 10))
                 late_release_environment held_world).2
              [EvNow 0; EvCompareExchange sample_view 0 Unlocked Locked Locked;
               EvNow 0; EvCompareExchange sample_view 0 Unlocked Locked Locked]
              (EvWait true sample_view 0 Locked (Finite 10) "not-equal")
              [EvNow 11]) as (p & old & q & Hpost & _).
  - repeat split; simpl; lia.
  - exists (bytes_of_int32 Locked). repeat split; simpl; lia.
  - vm_compute. reflexivity.
  - vm_compute. reflexivity.
  - repeat eexists. by right.
  - destruct p as [|e1 [|e2 p]]; discriminate.
Qed.

(** ** Validation of the timeout *)

(** The values that [validateTimeout] rejects: anything but [Infinity]
    that is not of type number or is below zero. *)
Lemma invalid_timeout_spec timeoutMs :
  invalid_timeout timeoutMs = true ↔
  timeoutMs ≠ VNumber Infinity ∧
  (typeof timeoutMs ≠ "number" ∨
   ∃ n, timeoutMs = VNumber n ∧ number_lt n (Finite 0) = true).
Proof.
  split.
  - destruct timeoutMs as [| | |n| | | | | |]; try (intros _; split; [done|by left]).
    destruct n as [| | |z|m e]; simpl; try done.
    + intros _. split; [done|]. right. by exists NegInfinity.
    + intros Hz. split; [done|]. right. by exists (Finite z).
    + intros Hm. split; [done|]. right. by exists (Fraction m e).
  - intros [Hne [Hty|(n & -> & Hlt)]].
    + by destruct timeoutMs.
    + by destruct n.
Qed.

(** A rejected timeout fails the acquisition before the clock is read and
    before any atomic operation: the world is untouched. *)
Lemma rejected_timeout_fails_first async fuel buffer v timeoutMs env w :
  valid_buffer buffer v →
  invalid_timeout (default_param timeoutMs (VNumber Infinity)) = true →
  acquisition async fuel buffer timeoutMs env w
  = (Throw (MutexError invalid_timeout_message), w).
Proof.
  intros Hv Hinv. rewrite acquisition_unfold. unfold bind.
  rewrite (validateMutexBuffer_ok _ _ _ _ Hv). unfold validateTimeout.
  by rewrite Hinv.
Qed.

(** C5 fails on NaN: NaN is neither [Infinity] nor a non-negative number,
    yet [validateTimeout] lets it through, and an acquisition with that
    timeout goes on to read the clock, to compare-and-swap and to wait
    (with a NaN time limit) instead of failing with the invalid-timeout
    error. *)
Theorem nan_timeout_is_not_rejected :
  number_eq NaN Infinity = false ∧
  number_le (Finite 0) NaN = false ∧
  invalid_timeout (VNumber NaN) = false ∧
  ∃ w', acquisition true 1 sample_buffer (VNumber NaN) waking_environment held_world
        = (OutOfFuel, w') ∧
        trace w' = [EvNow 0; EvCompareExchange sample_view 0 Unlocked Locked Locked;
                    EvNow 2; EvCompareExchange sample_view 0 Unlocked Locked Locked;
                    EvWait true sample_view 0 Locked NaN "ok"].
Proof.
  repeat split. eexists. split; vm_compute; reflexivity.
Qed.

(** ** Buffers derived from a string *)

Lemma splice_app (pre old new post : list byte) :
  length old = length new →
  splice (length pre) new (pre ++ old ++ post) = pre ++ new ++ post.
Proof.
  intros Hlen. unfold splice.
  rewrite take_app_length. do 2 f_equal.
  rewrite drop_app_add, <- Hlen. apply drop_app_length.
Qed.

Lemma splice_head (old new post : list byte) :
  length old = length new → splice 0 new (old ++ post) = new ++ post.
Proof. apply (splice_app []). Qed.

Lemma splice_tail (pre old new : list byte) :
  length old = length new → splice (length pre) new (pre ++ old) = pre ++ new.
Proof.
  intros H. rewrite <- (app_nil_r old), splice_app by done. by rewrite !app_nil_r.
Qed.

Lemma ceil_div_4 (n : nat) :
  ∃ pad, (pad < 4 ∧ ceil_div n 4 * 4 = n + pad)%nat.
Proof.
  unfold ceil_div. simpl Nat.sub.
  pose proof (Nat.div_mod_eq (n + 3) 4) as Hdm.
  pose proof (Nat.mod_upper_bound (n + 3) 4) as Hub.
  exists (3 - (n + 3) `mod` 4)%nat. lia.
Qed.

Lemma replicate_add (n k : nat) (b : byte) :
  replicate (n + k) b = replicate n b ++ replicate k b.
Proof. induction n as [|n IH]; simpl; [done|]. by rewrite IH. Qed.

Lemma load_int32_insert_head (m : gmap positive (list byte)) (v : view) (z : Z)
    (rest : list byte) :
  view_offset v = 0%nat → (0 < view_length v)%nat → - 2 ^ 31 ≤ z < 2 ^ 31 →
  load_int32 (<[ab_block (view_buffer v) := bytes_of_int32 z ++ rest]> m) v 0 = Some z.
Proof.
  intros Hoff Hlen Hz. unfold load_int32, int32_pos.
  rewrite lookup_insert_block, Hoff.
  rewrite decide_True by (rewrite length_app, length_bytes_of_int32; lia).
  change (0 + 4 * 0)%nat with 0%nat. rewrite drop_0.
  rewrite (take_app_length' (bytes_of_int32 z) rest 4) by done.
  by rewrite int32_of_bytes_of_int32.
Qed.

Lemma lockable_insert (m : gmap positive (list byte)) (v : view) (bs : list byte) :
  (0 < view_length v)%nat → (view_offset v + 4 ≤ length bs)%nat →
  lockable (<[ab_block (view_buffer v) := bs]> m) v.
Proof. intros Hl Hb. exists bs. by rewrite lookup_insert_block. Qed.

(** C9: for a non-empty string, [createBufferFromString] allocates a new
    shared block made of the four bytes of the lock word Unlocked, the
    UTF-8 bytes of the string, and fewer than four zero bytes that bring
    the length to a multiple of 4, and returns the [Int32Array] on all of
    it; the first word reads Unlocked.  For the empty string and for
    anything that is not a string it throws the invalid-input error and
    changes nothing. *)
Theorem createBufferFromString_layout input env w :
  match input with
  | VString (c :: s') =>
      let bytes := TextEncoder_encode (c :: s') in
      ∃ l pad v w',
        mem w !! l = None ∧
        (pad < 4)%nat ∧ ((4 + length bytes + pad) `mod` 4 = 0)%nat ∧
        v = {| view_kind := Int32;
               view_buffer := {| ab_shared := true; ab_block := l |};
               view_offset := 0;
               view_length := (4 + length bytes + pad) / 4 |} ∧
        w' = {| mem := (<[l := bytes_of_int32 Unlocked ++ bytes ++ replicate pad x00]> (mem w));
                trace := trace w |} ∧
        createBufferFromString input env w = (Ok (VTypedArray v), w') ∧
        lock_word w' v = Some Unlocked
  | _ =>
      createBufferFromString input env w
      = (Throw (MutexError "Invalid input: must be a non-empty string"), w)
  end.
Proof.
  destruct input as [| |b|n|s| | | | |]; try reflexivity.
  { by destruct b. }
  { by destruct n as [| | |z|m e]; [| | |destruct z|destruct m]. }
  destruct s as [|c s']; [reflexivity|].
  set (s := c :: s'). set (bytes := TextEncoder_encode s). cbn zeta.
  destruct (ceil_div_4 (4 + length bytes)) as (pad & Hpad & Halign).
  set (l := fresh (dom (mem w))).
  assert (Hfresh : mem w !! l = None) by (apply not_elem_of_dom, is_fresh).
  assert (Hmod : ((4 + length bytes + pad) `mod` 4 = 0)%nat).
  { rewrite <- Halign. apply Nat.Div0.mod_mul. }
  assert (Hdiv : ((4 + length bytes + pad) / 4 = ceil_div (4 + length bytes) 4)%nat).
  { rewrite <- Halign. apply Nat.div_mul. lia. }
  eexists l, pad, _, _. split; [done|]. split; [done|]. split; [done|].
  split; [reflexivity|]. split; [reflexivity|].
  assert (Hword : load_int32
            (<[l := bytes_of_int32 Unlocked ++ bytes ++ replicate pad x00]> (mem w))
            {| view_kind := Int32;
               view_buffer := {| ab_shared := true; ab_block := l |};
               view_offset := 0;
               view_length := (4 + length bytes + pad) / 4 |} 0 = Some Unlocked).
  { apply (load_int32_insert_head (mem w)
             {| view_kind := Int32;
                view_buffer := {| ab_shared := true; ab_block := l |};
                view_offset := 0;
                view_length := (4 + length bytes + pad) / 4 |}); [done| |done].
    cbn [view_length]. apply Nat.div_str_pos. lia. }
  split; [|exact Hword]. clear Hword.
  unfold createBufferFromString. fold s. fold bytes. cbn [truthy typeof negb orb].
  replace (bool_decide (s = [])) with false by done.
  cbn [negb String.eqb Ascii.eqb Bool.eqb andb orb]. cbn match.
  unfold bind at 1, new_SharedArrayBuffer at 1. fold l.
  set (aligned := (ceil_div (4 + length bytes) 4 * 4)%nat) in *.
  unfold bind at 1, new_Int32Array, bind at 1, byteLength. cbn [mem ab_block].
  rewrite lookup_insert_block, length_replicate.
  replace (aligned `mod` 4 =? 0)%nat with true
    by (symmetry; apply Nat.eqb_eq; unfold aligned; apply Nat.Div0.mod_mul).
  unfold ret at 1.
  unfold bind at 1, new_Uint8Array, bind at 1, byteLength. cbn [mem ab_block].
  rewrite lookup_insert_block, length_replicate. unfold ret at 1.
  replace (aligned / 4)%nat with ((4 + length bytes + pad) / 4)%nat
    by (by rewrite Halign).
  unfold bind at 1, set_int32.
  assert (Hzero : load_int32 (<[l := replicate aligned x00]> (mem w))
            {| view_kind := Int32;
               view_buffer := {| ab_shared := true; ab_block := l |};
               view_offset := 0;
               view_length := (4 + length bytes + pad) / 4 |} 0 ≠ None).
  { intros Hnone.
    assert (Hl : lockable (<[l := replicate aligned x00]> (mem w))
              {| view_kind := Int32;
                 view_buffer := {| ab_shared := true; ab_block := l |};
                 view_offset := 0;
                 view_length := (4 + length bytes + pad) / 4 |}).
    { apply (lockable_insert (mem w)
               {| view_kind := Int32;
                  view_buffer := {| ab_shared := true; ab_block := l |};
                  view_offset := 0;
                  view_length := (4 + length bytes + pad) / 4 |}).
      - cbn [view_length]. apply Nat.div_str_pos. lia.
      - cbn [view_offset]. rewrite length_replicate. lia. }
    apply lockable_load in Hl as [z Hz]. by rewrite Hz in Hnone. }
  cbn [mem].
  destruct (load_int32 (<[l := replicate aligned x00]> (mem w)) _ 0) as [z|];
    [clear Hzero|done].
  unfold update_block. cbn [mem trace view_buffer ab_block view_offset view_length].
  rewrite alter_insert_block.
  unfold bind at 1, Uint8Array_set. cbn [view_length view_buffer view_offset ab_block].
  rewrite decide_True by lia.
  unfold update_block. cbn [mem trace]. rewrite alter_insert_block.
  assert (Hblock :
    splice (0 + 4) bytes (splice (int32_pos
       {| view_kind := Int32;
          view_buffer := {| ab_shared := true; ab_block := l |};
          view_offset := 0;
          view_length := (4 + length bytes + pad) / 4 |} 0)
       (bytes_of_int32 Unlocked) (replicate aligned x00))
    = bytes_of_int32 Unlocked ++ bytes ++ replicate pad x00).
  { rewrite Halign, !replicate_add.
    rewrite <- (app_assoc (replicate 4 x00)).
    change (int32_pos _ 0) with 0%nat.
    rewrite (splice_head (replicate 4 x00) (bytes_of_int32 Unlocked)) by done.
    change (0 + 4)%nat with (length (bytes_of_int32 Unlocked)).
    rewrite (splice_app (bytes_of_int32 Unlocked) (replicate (length bytes) x00) bytes)
      by apply length_replicate.
    done. }
  rewrite Hblock.
  destruct (4 + length bytes <? aligned)%nat eqn:Hlt.
  - unfold bind at 1, Uint8Array_fill, update_block.
    cbn [mem trace view_length view_buffer view_offset ab_block].
    rewrite alter_insert_block. unfold ret. do 3 f_equal.
    replace (aligned `min` aligned - (4 + length bytes))%nat with pad by lia.
    rewrite (app_assoc (bytes_of_int32 Unlocked)).
    replace (0 + (4 + length bytes))%nat
      with (length (bytes_of_int32 Unlocked ++ bytes))
      by (rewrite length_app; done).
    by rewrite (splice_tail _ (replicate pad x00) (replicate pad x00)).
  - unfold bind at 1, ret. done.
Qed.

(** ** Guarded execution *)

(** A mutex made by the caller passes the check of [rapidGuard] as soon
    as it has a callable [lock].  When that [lock] returns an object
    without a release, [fn] runs and returns 42, and [rapidGuard] fails
    with the TypeError of the call of the missing release: the result of
    [fn] is not what the caller gets. *)
Lemma rapidGuard_handle_without_release : ¬ rapidGuard_propagates_unchanged.
Proof.
  intros Hclaim.
  destruct (Hclaim handmade_user_function 0%nat handmade_mutex (VFunction (CUser 0))
              VUndefined still_environment empty_world
              (VObject []) empty_world (Ok (VNumber (Finite 42))) empty_world)
    as [w3 H]; [reflexivity..|discriminate|].
  vm_compute in H. discriminate.
Qed.

(** C8: [rapidGuard] throws the invalid-mutex error, touching nothing,
    when its first argument is falsy or has no callable [lock], and the
    invalid-function error when its second argument is not a function.
    Otherwise it calls the [lock] of the mutex with the timeout; when that
    fails the failure is passed on and [fn] is not run; when it returns a
    handle, [fn] is run, and whether [fn] returns or throws, the release of
    the handle is called afterwards, and the result or failure of [fn] is
    the outcome of [rapidGuard] when the release returns, while a release
    that throws puts its own failure in its place.  On a mutex made by
    [createMutex] or [withMutex] the release (a compare-and-swap from
    Locked to Unlocked on the mutex's buffer, followed by a notification
    when it succeeded) never throws, so that the result or failure of [fn]
    is the outcome of [rapidGuard]. *)
Theorem rapidGuard_releases_on_every_exit uf fuel mutex fn timeoutMs env w :
  (has_lock_method mutex = false →
   rapidGuard uf fuel mutex fn timeoutMs env w
   = (Throw (MutexError "Invalid mutex: must be a mutex object with lock method"), w)) ∧
  (has_lock_method mutex = true → is_callable fn = false →
   rapidGuard uf fuel mutex fn timeoutMs env w
   = (Throw (MutexError "Invalid function: must provide a function to execute"), w)) ∧
  (has_lock_method mutex = true → is_callable fn = true →
   (∀ e w1,
      call_method uf fuel mutex (KString "lock")
        [default_param timeoutMs (VNumber Infinity)] env w = (Throw e, w1) →
      rapidGuard uf fuel mutex fn timeoutMs env w = (Throw e, w1)) ∧
   (∀ handle w1 r w2 released w3,
      call_method uf fuel mutex (KString "lock")
        [default_param timeoutMs (VNumber Infinity)] env w = (Ok handle, w1) →
      call uf fuel fn [] env w1 = (r, w2) →
      r ≠ OutOfFuel →
      call_method uf fuel handle dispose [] env w2 = (released, w3) →
      rapidGuard uf fuel mutex fn timeoutMs env w
      = (match released with
         | Ok _ => r
         | Throw e => Throw e
         | OutOfFuel => OutOfFuel
         end, w3))) ∧
  (∀ buffer v,
     mutex = mutex_object buffer → valid_buffer buffer v → is_callable fn = true →
     (∀ e w1,
        lock fuel buffer (default_param timeoutMs (VNumber Infinity)) env w = (Throw e, w1) →
        rapidGuard uf fuel mutex fn timeoutMs env w = (Throw e, w1)) ∧
     (∀ handle w1 r w2,
        lock fuel buffer (default_param timeoutMs (VNumber Infinity)) env w = (Ok handle, w1) →
        call uf fuel fn [] env w1 = (r, w2) →
        r ≠ OutOfFuel → lockable (mem w2) v →
        ∃ old w3,
          rapidGuard uf fuel mutex fn timeoutMs env w = (r, w3) ∧
          events_since w2 w3 = EvCompareExchange v 0 Locked Unlocked old ::
                               (if old =? Locked then [EvNotify v 0] else []) ∧
          trace w3 = trace w2 ++ events_since w2 w3 ∧
          (quiet env → lock_word w3 v ≠ Some Locked))).
Proof.
  unfold has_lock_method, is_callable, rapidGuard. cbv zeta. split; [|split; [|split]].
  - intros Hm. apply andb_false_iff in Hm as [->| ->]; [done|].
    by rewrite orb_true_r.
  - intros Hm Hf. apply andb_true_iff in Hm as [-> ->]. by rewrite Hf.
  - intros Hm Hf. apply andb_true_iff in Hm as [-> ->]. rewrite Hf.
    cbn [negb orb]. split.
    + intros e w1 Hlock. unfold bind. by rewrite Hlock.
    + intros handle w1 r w2 released w3 Hlock Hfn Hr Hrel.
      unfold bind. rewrite Hlock. unfold try_finally. rewrite Hfn, Hrel.
      by destruct r, released.
  - intros buffer v -> Hv Hf. rewrite Hf.
    change (truthy (mutex_object buffer)) with true.
    change (typeof (property (mutex_object buffer) (KString "lock"))) with "function".
    cbn [String.eqb Ascii.eqb Bool.eqb andb negb orb].
    change (call_method uf fuel (mutex_object buffer) (KString "lock")
              [default_param timeoutMs (VNumber Infinity)])
      with (lock fuel buffer (default_param timeoutMs (VNumber Infinity))).
    split.
    + intros e w1 Hlock. unfold bind. by rewrite Hlock.
    + intros handle w1 r w2 Hlock Hfn Hr Hl2.
      assert (Hh : handle = lock_handle buffer).
      { change lock with (acquisition true) in Hlock.
        rewrite acquisition_unfold in Hlock. unfold bind in Hlock.
        rewrite (validateMutexBuffer_ok _ _ _ _ Hv) in Hlock.
        destruct (validateTimeout _ env w) as [[T| |] w0]; [|discriminate..].
        destruct (Date_now env w0) as [[start| |] w0']; [|discriminate..].
        destruct (Atomics_compareExchange v 0 Unlocked Locked env w0')
          as [[old| |] w0'']; [|discriminate..].
        destruct (old =? Unlocked); [by injection Hlock as <- _|].
        by apply loop_acquired in Hlock as [-> _]. }
      subst handle.
      destruct (release_run buffer v env w2 Hv Hl2)
        as (old & w3 & Hrel & Hev & Htr & _ & Hq).
      exists old, w3. unfold bind. rewrite Hlock. unfold try_finally.
      rewrite Hfn, dispose_is_unlock, Hrel. split; [by destruct r|done].
Qed.

Lemma rapidGuard_witness :
  let w1 := (lock 0 sample_buffer (VNumber Infinity) still_environment free_world).2 in
  let w2 := (call sample_user_function 0 (VFunction (CUser 1)) [] still_environment w1).2 in
  (∃ old w3,
     rapidGuard sample_user_function 0 (mutex_object sample_buffer) (VFunction (CUser 1))
       VUndefined still_environment free_world
     = (Throw (Thrown (VString (jsstring_of_string "boom"))), w3) ∧
     events_since w2 w3 = EvCompareExchange sample_view 0 Locked Unlocked old ::
                          (if old =? Locked then [EvNotify sample_view 0] else []) ∧
     trace w3 = trace w2 ++ events_since w2 w3 ∧
     (quiet still_environment → lock_word w3 sample_view ≠ Some Locked)) ∧
  rapidGuard handmade_user_function 0 handmade_mutex (VFunction (CUser 0))
    VUndefined still_environment empty_world
  = (Throw (TypeError "not a function"), empty_world).
Proof.
  intros w1 w2. split.
  - destruct (rapidGuard_releases_on_every_exit sample_user_function 0
                (mutex_object sample_buffer) (VFunction (CUser 1)) VUndefined
                still_environment free_world) as (_ & _ & _ & H).
    assert (Hv : valid_buffer sample_buffer sample_view) by (repeat split; simpl; lia).
    destruct (H sample_buffer sample_view eq_refl Hv eq_refl) as [_ H2].
    apply (H2 (lock_handle sample_buffer) w1
             (Throw (Thrown (VString (jsstring_of_string "boom")))) w2).
    + vm_compute. reflexivity.
    + vm_compute. reflexivity.
    + discriminate.
    + exists (bytes_of_int32 Locked). repeat split; simpl; lia.
  - destruct (rapidGuard_releases_on_every_exit handmade_user_function 0
                handmade_mutex (VFunction (CUser 0)) VUndefined
                still_environment empty_world) as (_ & _ & H & _).
    destruct (H eq_refl eq_refl) as [_ H2].
    apply (H2 (VObject []) empty_world (Ok (VNumber (Finite 42))) empty_world
             (Throw (TypeError "not a function")) empty_world).
    + reflexivity.
    + reflexivity.
    + discriminate.
    + reflexivity.
Defined.

(** ** Cases of the test suite, replayed

    The expectations of the module's own tests that do not depend on
    timing, evaluated in the empty world with nobody else acting. *)

(** 'encodes as UTF-8': an ideograph and a surrogate pair. *)
Example TextEncoder_encode_sample :
  TextEncoder_encode [0x6D4B; 0xD83D; 0xDD12]%N
  = [xe6; xb5; x8b; xf0; x9f; x94; x92].
Proof. reflexivity. Qed.

(** 'creates an unlocked mutex by default'. *)
Example createMutex_is_unlocked :
  run (let* m := createMutex in
       call_method no_user_function 0 m (KString "isLocked") [])
  = Ok (VBoolean false).
Proof. vm_compute. reflexivity. Qed.

(** 'unlock throws on an unlocked mutex'. *)
Example unlock_fresh_mutex_throws :
  run (let* m := createMutex in
       call_method no_user_function 0 m (KString "unlock") [])
  = Throw (MutexError "Cannot unlock mutex that is not locked").
Proof. vm_compute. reflexivity. Qed.

(** 'withMutex creates from string', and the bytes behind it. *)
Example withMutex_string_memory :
  mem (withMutex (js "test") still_environment empty_world).2 !! 1%positive
  = Some [x00; x00; x00; x00; x74; x65; x73; x74].
Proof. vm_compute. reflexivity. Qed.

(** 'withMutex throws on invalid input'. *)
Example withMutex_rejects_invalid_input :
  run (withMutex VNull) = Throw (MutexError "Invalid input: must provide a string or Int32Array") ∧
  run (withMutex VUndefined) = Throw (MutexError "Invalid input: must provide a string or Int32Array") ∧
  run (withMutex (js "")) = Throw (MutexError "Invalid input: must be a non-empty string") ∧
  run (withMutex (VNumber (Finite 123))) = Throw (MutexError "Invalid buffer: must be an Int32Array").
Proof. vm_compute. done. Qed.

(** 'withMutex throws on a non-shared buffer'. *)
Example withMutex_rejects_unshared_buffer :
  run (withMutex (VTypedArray {| view_kind := Int32;
                                 view_buffer := {| ab_shared := false; ab_block := 1 |};
                                 view_offset := 0;
                                 view_length := 4 |}))
  = Throw (MutexError "Invalid buffer: must be backed by a SharedArrayBuffer").
Proof. vm_compute. reflexivity. Qed.

(** 'handles zero timeout' on a held mutex, for both entry points. *)
Example zero_timeout_on_held_mutex :
  run (let* m := createMutex in
       let* _ := call_method no_user_function 3 m (KString "lock") [] in
       call_method no_user_function 3 m (KString "lock") [VNumber (Finite 0)])
  = Throw (MutexError "Mutex lock acquisition timed out after 0ms") ∧
  run (let* m := createMutex in
       let* _ := call_method no_user_function 3 m (KString "lock") [] in
       call_method no_user_function 3 m (KString "lockSync") [VNumber (Finite 0)])
  = Throw (MutexError "Mutex lock acquisition timed out after 0ms").
Proof. vm_compute. done. Qed.

(** 'throws on negative timeout' and 'throws on invalid timeout type'. *)
Example lock_rejects_invalid_timeouts :
  Forall (λ t, run (let* m := createMutex in
                    call_method no_user_function 3 m (KString "lock") [t])
               = Throw (MutexError "Timeout must be a non-negative number or Infinity"))
    [VNumber (Finite (-1)); js "invalid"; VNull].
Proof. repeat constructor. Qed.

(** 'rapidGuard returns the function result' and leaves the mutex free. *)
Example rapidGuard_returns_result :
  run (let* m := createMutex in
       let* r := rapidGuard sample_user_function 3 m (VFunction (CUser 0)) VUndefined in
       let* l := call_method no_user_function 3 m (KString "isLocked") [] in
       ret (r, l))
  = Ok (VNumber (Finite 42), VBoolean false).
Proof. vm_compute. reflexivity. Qed.

(** 'rapidGuard releases the lock on error'. *)
Example rapidGuard_releases_on_error :
  (let* m := createMutex in
   let* _ := λ env w,
       match rapidGuard sample_user_function 3 m (VFunction (CUser 1)) VUndefined env w with
       | (Throw (Thrown _), w') => (Ok tt, w')
       | (_, w') => (OutOfFuel, w')
       end in
   call_method no_user_function 3 m (KString "isLocked") []) still_environment empty_world
  = (Ok (VBoolean false),
     {| mem := {[ 1%positive := bytes_of_int32 Unlocked ]};
        trace := [EvNow 0;
                  EvCompareExchange sample_view 0 Unlocked Locked Unlocked;
                  EvCompareExchange sample_view 0 Locked Unlocked Locked;
                  EvNotify sample_view 0;
                  EvLoad sample_view 0 Unlocked] |}).
Proof. vm_compute. reflexivity. Qed.

(** 'rapidGuard throws on invalid mutex' and 'on invalid function'. *)
Example rapidGuard_rejects_invalid_arguments :
  run (rapidGuard sample_user_function 3 VNull (VFunction (CUser 0)) VUndefined)
  = Throw (MutexError "Invalid mutex: must be a mutex object with lock method") ∧
  run (rapidGuard sample_user_function 3 (VObject []) (VFunction (CUser 0)) VUndefined)
  = Throw (MutexError "Invalid mutex: must be a mutex object with lock method") ∧
  run (let* m := createMutex in
       rapidGuard sample_user_function 3 m (js "not-a-function") VUndefined)
  = Throw (MutexError "Invalid function: must provide a function to execute").
Proof. vm_compute. done. Qed.

(** ** Successful acquisitions *)

(** An acquisition that returns a handle: what it did before its last two
    operations stored nothing, and the last two are a clock reading and the
    compare-and-swap that found the word Unlocked. *)
Lemma acquisition_acquired async fuel buffer timeoutMs env w handle w' :
  acquisition async fuel buffer timeoutMs env w = (Ok handle, w') →
  ∃ v w0 now, valid_buffer buffer v ∧ handle = lock_handle buffer ∧
    env_steps env w w0 ∧
    load_int32 (replay env (length (trace w0)) 2 (mem w0)) v 0 = Some Unlocked ∧
    trace w' = trace w0 ++ [EvNow now; EvCompareExchange v 0 Unlocked Locked Unlocked] ∧
    mem w' = store_int32 (replay env (length (trace w0)) 2 (mem w0)) v 0 Locked.
Proof.
  rewrite acquisition_unfold. unfold bind. intros H.
  destruct (validateMutexBuffer buffer env w) as [[v| |] w0] eqn:Hval;
    apply validateMutexBuffer_inv in Hval as [-> Hval]; [|discriminate..].
  destruct Hval as [(v' & [= <-] & Hv)|(msg & [=] & _)].
  destruct (validateTimeout _ env w) as [[T| |] w0] eqn:Htm;
    apply validateTimeout_inv in Htm as [-> _]; [|discriminate..].
  unfold Date_now in H.
  set (w1 := {| mem := interfered env w; trace := _ |}) in *.
  unfold Atomics_compareExchange in H.
  destruct (load_int32 (interfered env w1) v 0) as [old|] eqn:Hold; [|discriminate].
  destruct (Z.eqb_spec old Unlocked) as [->|Hne].
  - injection H as <- <-. exists v, w, (env_clock env (length (trace w))).
    split; [done|]. split; [done|]. split; [apply env_steps_refl|].
    unfold w1 in *. rewrite interfered_after_one in Hold.
    split; [done|]. cbn [mem trace]. rewrite interfered_after_one, <- app_assoc.
    by split.
  - apply loop_acquired in H as (-> & w0 & now & Hs & Hl & Ht & Hm).
    exists v, w0, now. split; [done|]. split; [done|]. split; [|done].
    eapply env_steps_trans; [apply env_steps_now|].
    eapply env_steps_trans; [|exact Hs]. apply env_steps_one. by apply Z.eqb_neq.
Qed.

Lemma acquisition_acquired_memory async fuel buffer timeoutMs env w handle w' :
  acquisition async fuel buffer timeoutMs env w = (Ok handle, w') →
  ∃ v pre now, valid_buffer buffer v ∧ handle = lock_handle buffer ∧
    events_since w w' = pre ++ [EvNow now; EvCompareExchange v 0 Unlocked Locked Unlocked] ∧
    Forall (λ e, is_own_write e = false) (pre ++ [EvNow now]) ∧
    load_int32 (replay env (length (trace w)) (length (events_since w w')) (mem w)) v 0
      = Some Unlocked ∧
    mem w' = store_int32 (replay env (length (trace w)) (length (events_since w w')) (mem w))
               v 0 Locked.
Proof.
  intros H.
  apply acquisition_acquired in H as (v & w0 & now & Hv & -> & Hs & Hl & Ht & Hm).
  destruct Hs as (pre & Ht0 & Hm0 & Hf).
  exists v, pre, now. split; [done|]. split; [done|].
  assert (Hev : events_since w w' =
                pre ++ [EvNow now; EvCompareExchange v 0 Unlocked Locked Unlocked]).
  { apply events_since_app. by rewrite Ht, Ht0, <- app_assoc. }
  rewrite Hev. split; [done|].
  split; [apply Forall_app; split; [done|by repeat constructor]|].
  rewrite length_app. cbn [length].
  rewrite replay_add, <- Hm0.
  replace (length (trace w) + length pre)%nat with (length (trace w0))
    by (by rewrite Ht0, length_app).
  done.
Qed.

(** X1: [lock] and [lockSync] return a handle only through their own
    compare-and-swap: the last operation of a successful acquisition is
    the compare-and-swap that found the lock word Unlocked and stored
    Locked, it is the only store of the acquisition, the memory it leaves
    is what the other participants made of the memory it found with the
    lock word set to Locked, and the handle is the one of the buffer. *)
Theorem acquisition_succeeds_by_own_cas async fuel buffer timeoutMs env w handle w' :
  acquisition async fuel buffer timeoutMs env w = (Ok handle, w') →
  ∃ v pre now, valid_buffer buffer v ∧ handle = lock_handle buffer ∧
    events_since w w' = pre ++ [EvNow now; EvCompareExchange v 0 Unlocked Locked Unlocked] ∧
    Forall (λ e, is_own_write e = false) (pre ++ [EvNow now]) ∧
    load_int32 (replay env (length (trace w)) (length (events_since w w')) (mem w)) v 0
      = Some Unlocked ∧
    mem w' = store_int32 (replay env (length (trace w)) (length (events_since w w')) (mem w))
               v 0 Locked ∧
    lock_word w' v = Some Locked.
Proof.
  intros H.
  apply acquisition_acquired_memory in H as (v & pre & now & Hv & Hh & Hev & Hf & Hl & Hm).
  exists v, pre, now. repeat (split; [done|]).
  unfold lock_word. rewrite Hm. apply load_store_int32; [|unfold Locked; lia].
  apply lockable_load. by rewrite Hl.
Qed.

Lemma acquisition_succeeds_witness :
  ∃ v pre now,
    valid_buffer sample_buffer v ∧ lock_handle sample_buffer = lock_handle sample_buffer ∧
    events_since free_world
      (lock 0 sample_buffer VUndefined still_environment free_world).2
    = pre ++ [EvNow now; EvCompareExchange v 0 Unlocked Locked Unlocked] ∧
    Forall (λ e, is_own_write e = false) (pre ++ [EvNow now]) ∧
    load_int32 (replay still_environment (length (trace free_world))
                  (length (events_since free_world
                     (lock 0 sample_buffer VUndefined still_environment free_world).2))
                  (mem free_world)) v 0 = Some Unlocked ∧
    mem (lock 0 sample_buffer VUndefined still_environment free_world).2
    = store_int32 (replay still_environment (length (trace free_world))
                     (length (events_since free_world
                        (lock 0 sample_buffer VUndefined still_environment free_world).2))
                     (mem free_world)) v 0 Locked ∧
    lock_word (lock 0 sample_buffer VUndefined still_environment free_world).2 v
    = Some Locked.
Proof.
  apply (acquisition_succeeds_by_own_cas true 0 sample_buffer VUndefined
           still_environment free_world).
  vm_compute. reflexivity.
Defined.

(** X2: a lock that nobody frees is never acquired.  When the lock word
    is not Unlocked in the memory the acquisition finds, and does not become
    Unlocked by the stores of the other participants, [lock] and [lockSync]
    return no handle, whatever the timeout and however long they run, and
    they store nothing.  In particular the lock is not re-entrant. *)
Theorem held_lock_is_not_acquired async fuel buffer v timeoutMs env w r w' :
  valid_buffer buffer v →
  (∀ n, load_int32 (replay env (length (trace w)) n (mem w)) v 0 ≠ Some Unlocked) →
  acquisition async fuel buffer timeoutMs env w = (r, w') →
  (∀ handle, r ≠ Ok handle) ∧
  Forall (λ e, is_own_write e = false) (events_since w w') ∧
  mem w' = replay env (length (trace w)) (length (events_since w w')) (mem w).
Proof.
  intros Hv Hheld H.
  assert (Hr : ∀ handle, r ≠ Ok handle).
  { intros handle ->.
    apply acquisition_acquired_memory in H as (v' & pre & now & Hv' & _ & _ & _ & Hl & _).
    destruct Hv as (-> & _), Hv' as ([= <-] & _). by eapply Hheld. }
  split; [done|].
  apply acquisition_env_steps in H as (evs & Ht & Hm & Hf); [|done].
  by rewrite (events_since_app _ _ _ Ht).
Qed.

Lemma held_lock_witness :
  let run := acquisition true 2 sample_buffer (VNumber (Finite 10))
               still_environment held_world in
  (∀ handle, run.1 ≠ Ok handle) ∧
  Forall (λ e, is_own_write e = false) (events_since held_world run.2) ∧
  mem run.2 = replay still_environment (length (trace held_world))
                (length (events_since held_world run.2)) (mem held_world).
Proof.
  intros run.
  apply (held_lock_is_not_acquired true 2 sample_buffer sample_view (VNumber (Finite 10))
           still_environment held_world run.1 run.2).
  - repeat split; simpl; lia.
  - intros n. rewrite replay_quiet by apply still_environment_quiet. vm_compute. discriminate.
  - vm_compute. reflexivity.
Defined.

(** ** The polling fallback of [waitAsync] *)

Lemma waitAsync_loop_polls fuel buffer index value deadline env w r w' :
  waitAsync_loop fuel buffer index value deadline env w = (r, w') →
  ∃ evs, trace w' = trace w ++ evs ∧
    Forall (is_polling_event buffer index value) evs ∧
    ∀ outcome, r = Ok outcome →
      (outcome = "timed-out" ∧
       ∃ pre now, evs = pre ++ [EvNow now] ∧ number_ge (Finite now) deadline = true) ∨
      ((outcome = "ok" ∨ outcome = "not-equal") ∧
       ∃ pre, evs = pre ++ [EvWait false buffer index value (Finite 1) outcome]).
Proof.
  revert w. induction fuel as [|fuel IH]; intros w H; simpl in H.
  { injection H as <- <-. exists []. rewrite app_nil_r. by repeat split. }
  unfold bind, Date_now in H.
  set (now := env_clock env (length (trace w))) in *.
  set (w1 := {| mem := interfered env w; trace := trace w ++ [EvNow now] |}) in *.
  assert (Hnow : is_polling_event buffer index value (EvNow now)) by (left; eauto).
  destruct (number_ge (Finite now) deadline) eqn:Hge.
  { injection H as <- <-. exists [EvNow now]. split; [done|].
    split; [repeat (constructor; [assumption|]); constructor|].
    intros outcome [= <-]. left. split; [done|]. by exists [], now. }
  unfold Atomics_wait, wait_primitive in H.
  destruct (load_int32 (interfered env w1) buffer index) as [current|].
  2:{ injection H as <- <-. exists [EvNow now]. split; [done|].
      split; [repeat (constructor; [assumption|]); constructor|]. intros outcome [=]. }
  set (res := if current =? value then _ else _) in *.
  set (w2 := {| mem := interfered env w1; trace := _ |}) in *.
  assert (Hwait : is_polling_event buffer index value
                    (EvWait false buffer index value (Finite 1) res)) by (right; eauto).
  assert (Hdone : res = "ok" ∨ res = "not-equal" →
            ∃ evs, trace w2 = trace w ++ evs ∧
              Forall (is_polling_event buffer index value) evs ∧
              ∀ outcome, Ok res = Ok outcome →
                (outcome = "timed-out" ∧
                 ∃ pre now, evs = pre ++ [EvNow now] ∧ number_ge (Finite now) deadline = true) ∨
                ((outcome = "ok" ∨ outcome = "not-equal") ∧
                 ∃ pre, evs = pre ++ [EvWait false buffer index value (Finite 1) outcome])).
  { intros Hres. exists [EvNow now; EvWait false buffer index value (Finite 1) res].
    split; [unfold w2, w1; cbn [trace]; by rewrite <- app_assoc|].
    split; [repeat (constructor; [assumption|]); constructor|].
    intros outcome [= <-]. right. split; [done|]. by exists [EvNow now]. }
  destruct (String.eqb_spec res "ok") as [Hok|Hok]; simpl in H.
  { injection H as <- <-. apply Hdone. by left. }
  destruct (String.eqb_spec res "not-equal") as [Hne|Hne].
  { injection H as <- <-. apply Hdone. by right. }
  destruct (IH _ H) as (evs & Ht & Hall & Hout).
  exists ([EvNow now; EvWait false buffer index value (Finite 1) res] ++ evs).
  split; [rewrite Ht; unfold w2, w1; cbn [trace]; by rewrite <- !app_assoc|].
  split; [apply Forall_app; split; [repeat (constructor; [assumption|]); constructor|done]|].
  intros outcome Hr. destruct (Hout outcome Hr) as [(-> & pre & t & -> & Ht')|(Ho & pre & ->)].
  - left. split; [done|]. eexists (_ ++ pre), t. by rewrite <- app_assoc.
  - right. split; [done|]. eexists (_ ++ pre). by rewrite <- app_assoc.
Qed.

(** The run of the fallback. *)
Lemma waitAsync_fallback_run fuel buffer index value timeoutMs env w r w' :
  env_native_waitAsync env = false →
  waitAsync fuel buffer index value timeoutMs env w = (r, w') →
  ∃ evs, trace w' = trace w ++ evs ∧
    Forall (is_polling_event buffer index value) evs ∧
    ∀ outcome, r = Ok outcome →
      (outcome = "timed-out" ∧ timeoutMs ≠ Infinity ∧
       ∃ pre now, evs = pre ++ [EvNow now] ∧
         number_ge (Finite now)
           (number_add (Finite (env_clock env (length (trace w)))) timeoutMs) = true) ∨
      ((outcome = "ok" ∨ outcome = "not-equal") ∧
       ∃ pre, evs = pre ++ [EvWait false buffer index value (Finite 1) outcome]).
Proof.
  intros Hhost H. unfold waitAsync in H. rewrite Hhost in H.
  unfold waitAsync_fallback, bind in H.
  destruct (number_eq timeoutMs Infinity) eqn:Hinf.
  - unfold ret in H. apply waitAsync_loop_polls in H as (evs & Ht & Hall & Hout).
    exists evs. split; [done|]. split; [done|].
    intros outcome Hr. destruct (Hout outcome Hr) as [(_ & pre & now & _ & Hge)|Hwake].
    + discriminate.
    + by right.
  - unfold Date_now, ret in H.
    set (t0 := env_clock env (length (trace w))) in *.
    apply waitAsync_loop_polls in H as (evs & Ht & Hall & Hout). cbn [trace] in Ht.
    exists (EvNow t0 :: evs).
    split; [by rewrite Ht, <- app_assoc|].
    split; [constructor; [left; eauto|done]|].
    intros outcome Hr. destruct (Hout outcome Hr) as [(-> & pre & now & -> & Hge)|(Ho & pre & ->)].
    + left. split; [done|]. split; [by intros ->|]. by exists (EvNow t0 :: pre), now.
    + right. split; [done|]. by exists (EvNow t0 :: pre).
Qed.

(** X3: on a host without [Atomics.waitAsync], [waitAsync] performs only
    clock readings and blocking waits of one millisecond on the element it
    was given; it answers 'ok' or 'not-equal' when its last wait did, and
    'timed-out' only after a clock reading that is not below the deadline
    (the first clock reading plus the timeout), hence never when the timeout
    is [Infinity]; it answers nothing else, whatever its waits report. *)
Theorem waitAsync_fallback_polls fuel buffer index value timeoutMs env w r w' :
  env_native_waitAsync env = false →
  waitAsync fuel buffer index value timeoutMs env w = (r, w') →
  trace w' = trace w ++ events_since w w' ∧
  Forall (is_polling_event buffer index value) (events_since w w') ∧
  ∀ outcome, r = Ok outcome →
    (outcome = "timed-out" ∧ timeoutMs ≠ Infinity ∧
     ∃ pre now, events_since w w' = pre ++ [EvNow now] ∧
       number_ge (Finite now)
         (number_add (Finite (env_clock env (length (trace w)))) timeoutMs) = true) ∨
    ((outcome = "ok" ∨ outcome = "not-equal") ∧
     ∃ pre, events_since w w'
            = pre ++ [EvWait false buffer index value (Finite 1) outcome]).
Proof.
  intros Hhost H.
  apply waitAsync_fallback_run in H as (evs & Ht & Hall & Hout); [|done].
  rewrite (events_since_app _ _ _ Ht). by repeat split.
Qed.

Lemma waitAsync_fallback_witness :
  let run := waitAsync 3 sample_view 0 Locked (Finite 2) still_polling_environment held_world in
  trace run.2 = trace held_world ++ events_since held_world run.2 ∧
  Forall (is_polling_event sample_view 0 Locked) (events_since held_world run.2) ∧
  ∀ outcome, run.1 = Ok outcome →
    (outcome = "timed-out" ∧ Finite 2 ≠ Infinity ∧
     ∃ pre now, events_since held_world run.2 = pre ++ [EvNow now] ∧
       number_ge (Finite now)
         (number_add (Finite (env_clock still_polling_environment
                                (length (trace held_world)))) (Finite 2)) = true) ∨
    ((outcome = "ok" ∨ outcome = "not-equal") ∧
     ∃ pre, events_since held_world run.2
            = pre ++ [EvWait false sample_view 0 Locked (Finite 1) outcome]).
Proof.
  intros run.
  apply (waitAsync_fallback_polls 3 sample_view 0 Locked (Finite 2)
           still_polling_environment held_world run.1 run.2).
  - reflexivity.
  - vm_compute. reflexivity.
Defined.

(** ** The operations of an acquisition *)

Lemma wait_of_events async fuel v timeout env w r w' :
  wait_of async fuel v timeout env w = (r, w') →
  ∃ evs, trace w' = trace w ++ evs ∧
    Forall (λ e, is_acquisition_event v e ∧ wait_form async env e) evs.
Proof.
  assert (Hprim : ∀ a, a = async && env_native_waitAsync env →
            (async = true → env_native_waitAsync env = false → timeout = Finite 1) →
            wait_primitive a v 0 Locked timeout env w = (r, w') →
            ∃ evs, trace w' = trace w ++ evs ∧
              Forall (λ e, is_acquisition_event v e ∧ wait_form async env e) evs).
  { intros a Ha Ht H. unfold wait_primitive in H.
    destruct (load_int32 (interfered env w) v 0) as [cur|]; injection H as <- <-.
    - eexists [_]. split; [done|]. by repeat constructor.
    - exists []. by rewrite app_nil_r. }
  destruct async; simpl.
  - unfold waitAsync. destruct (env_native_waitAsync env) eqn:Hhost.
    + by apply Hprim.
    + intros H. pose proof H as H'. unfold waitAsync in H'.
      assert (Hrun : waitAsync fuel v 0 Locked timeout env w = (r, w'))
        by (unfold waitAsync; by rewrite Hhost).
      apply waitAsync_fallback_run in Hrun as (evs & Ht & Hall & _); [|done].
      exists evs. split; [done|].
      eapply Forall_impl; [exact Hall|]. intros e [[t ->]|[o ->]]; simpl; [done|].
      rewrite Hhost. by repeat split.
  - apply Hprim; [done|]. by intros [=].
Qed.

(** What holds of the clock readings, of the compare-and-swaps of the
    acquisition and of the operations of its waits holds of every
    operation of the loop. *)
Lemma loop_events (P : event → Prop) async fuel buffer v T start env w r w' :
  (∀ t, P (EvNow t)) →
  (∀ old, P (EvCompareExchange v 0 Unlocked Locked old)) →
  (∀ fuel t w r w', wait_of async fuel v t env w = (r, w') →
     ∃ evs, trace w' = trace w ++ evs ∧ Forall P evs) →
  acquisition_loop async fuel buffer v T start env w = (r, w') →
  ∃ evs, trace w' = trace w ++ evs ∧ Forall P evs.
Proof.
  intros Hnow Hcas Hwait. revert w.
  induction fuel as [|fuel IH]; intros w H.
  { rewrite acquisition_loop_zero in H. injection H as <- <-.
    exists []. by rewrite app_nil_r. }
  rewrite acquisition_loop_succ, iteration_run in H. cbv zeta in H.
  set (now := env_clock env (length (trace w))) in *.
  set (w1 := {| mem := interfered env w; trace := trace w ++ [EvNow now] |}) in *.
  destruct (deadline_passed T start now).
  { injection H as <- <-. exists [EvNow now]. split; [done|]. by repeat constructor. }
  destruct (load_int32 (interfered env w1) v 0) as [old|].
  2:{ injection H as <- <-. exists [EvNow now]. split; [done|]. by repeat constructor. }
  destruct (old =? Unlocked).
  { injection H as <- <-. exists [EvNow now; EvCompareExchange v 0 Unlocked Locked old].
    split; [cbn [trace]; by rewrite <- app_assoc|]. by repeat constructor. }
  set (w2 := {| mem := interfered env w1; trace := _ |}) in *.
  destruct (wait_of async fuel v _ env w2) as [rw w3] eqn:Hw.
  apply Hwait in Hw as (evs & Ht & Hall).
  assert (Ht3 : trace w3 = trace w ++
                  [EvNow now; EvCompareExchange v 0 Unlocked Locked old] ++ evs).
  { rewrite Ht. unfold w2, w1. cbn [trace]. by rewrite <- !app_assoc. }
  assert (Hall3 : Forall P ([EvNow now; EvCompareExchange v 0 Unlocked Locked old] ++ evs)).
  { apply Forall_app. split; [by repeat constructor|done]. }
  destruct rw as [outcome| |]; [|injection H as <- <-; eauto..].
  destruct (String.eqb outcome "timed-out"); [injection H as <- <-; eauto|].
  destruct (String.eqb outcome "interrupted"); [injection H as <- <-; eauto|].
  destruct (IH _ H) as (evs' & Ht' & Hall').
  exists (([EvNow now; EvCompareExchange v 0 Unlocked Locked old] ++ evs) ++ evs').
  split; [by rewrite Ht', Ht3, <- !app_assoc|]. by apply Forall_app.
Qed.

Lemma acquisition_events (P : event → Prop) async fuel buffer v timeoutMs env w r w' :
  valid_buffer buffer v →
  (∀ t, P (EvNow t)) →
  (∀ old, P (EvCompareExchange v 0 Unlocked Locked old)) →
  (∀ fuel t w r w', wait_of async fuel v t env w = (r, w') →
     ∃ evs, trace w' = trace w ++ evs ∧ Forall P evs) →
  acquisition async fuel buffer timeoutMs env w = (r, w') →
  ∃ evs, trace w' = trace w ++ evs ∧ Forall P evs.
Proof.
  intros Hv Hnow Hcas Hwait. rewrite acquisition_unfold. unfold bind.
  rewrite (validateMutexBuffer_ok _ _ _ _ Hv).
  destruct (validateTimeout _ env w) as [[T| |] w0] eqn:Htm;
    apply validateTimeout_inv in Htm as [-> _].
  2,3: intros [= <- <-]; exists []; by rewrite app_nil_r.
  unfold Date_now, Atomics_compareExchange.
  set (now := env_clock env (length (trace w))) in *.
  set (w1 := {| mem := interfered env w; trace := trace w ++ [EvNow now] |}) in *.
  destruct (load_int32 (interfered env w1) v 0) as [old|].
  2:{ intros [= <- <-]. exists [EvNow now]. split; [done|]. by repeat constructor. }
  destruct (old =? Unlocked).
  { intros [= <- <-]. exists [EvNow now; EvCompareExchange v 0 Unlocked Locked old].
    split; [cbn [trace]; by rewrite <- app_assoc|]. by repeat constructor. }
  intros H. eapply loop_events in H as (evs & Ht & Hall); [|done..].
  exists ([EvNow now; EvCompareExchange v 0 Unlocked Locked old] ++ evs).
  split; [rewrite Ht; unfold w1; cbn [trace]; by rewrite <- !app_assoc|].
  apply Forall_app. split; [by repeat constructor|done].
Qed.

(** X4: the only operations of [lock] and [lockSync] are clock readings,
    compare-and-swaps from Unlocked to Locked on element 0 of the buffer,
    and waits on element 0 while it holds Locked: an acquisition never
    notifies, never stores anything but Locked, and never touches another
    element.  Its waits suspend only in [lock] on a host with
    [Atomics.waitAsync]; [lockSync] blocks, and so does [lock] on a host
    without it, one millisecond at a time. *)
Theorem acquisition_operations async fuel buffer v timeoutMs env w r w' :
  valid_buffer buffer v →
  acquisition async fuel buffer timeoutMs env w = (r, w') →
  trace w' = trace w ++ events_since w w' ∧
  Forall (is_acquisition_event v) (events_since w w') ∧
  Forall (wait_form async env) (events_since w w').
Proof.
  intros Hv H.
  eapply (acquisition_events (λ e, is_acquisition_event v e ∧ wait_form async env e))
    in H as (evs & Ht & Hall); [|done|done|done|].
  - rewrite (events_since_app _ _ _ Ht). split; [done|].
    split; (eapply Forall_impl; [exact Hall|]); by intros e [? ?].
  - intros fuel' t w0 r0 w0'. apply wait_of_events.
Qed.

Lemma acquisition_operations_witness :
  let run := acquisition true 4 sample_buffer (VNumber (Finite 3))
               still_polling_environment held_world in
  trace run.2 = trace held_world ++ events_since held_world run.2 ∧
  Forall (is_acquisition_event sample_view) (events_since held_world run.2) ∧
  Forall (wait_form true still_polling_environment) (events_since held_world run.2).
Proof.
  intros run.
  apply (acquisition_operations true 4 sample_buffer sample_view (VNumber (Finite 3))
           still_polling_environment held_world run.1 run.2).
  - repeat split; simpl; lia.
  - vm_compute. reflexivity.
Defined.

(** ** Acquisitions without a timeout *)

(** A wait of the loop without a time limit, on a host whose waits end
    only by a wake-up or on the polling fallback, answers neither
    'timed-out' nor 'interrupted'. *)
Lemma wait_of_untimed async fuel v env w outcome w' :
  (async = true ∧ env_native_waitAsync env = false) ∨
  (∀ n, env_wait env n ≠ "timed-out" ∧ env_wait env n ≠ "interrupted") →
  wait_of async fuel v Infinity env w = (Ok outcome, w') →
  outcome ≠ "timed-out" ∧ outcome ≠ "interrupted".
Proof.
  intros Hhost H.
  assert (Hprim : ∀ a, (∀ n, env_wait env n ≠ "timed-out" ∧ env_wait env n ≠ "interrupted") →
            wait_primitive a v 0 Locked Infinity env w = (Ok outcome, w') →
            outcome ≠ "timed-out" ∧ outcome ≠ "interrupted").
  { intros a Hw Hp. unfold wait_primitive in Hp.
    destruct (load_int32 (interfered env w) v 0) as [cur|]; [|discriminate].
    injection Hp as <- _. destruct (cur =? Locked); [apply Hw|done]. }
  assert (Hpoll : env_native_waitAsync env = false →
            waitAsync fuel v 0 Locked Infinity env w = (Ok outcome, w') →
            outcome ≠ "timed-out" ∧ outcome ≠ "interrupted").
  { intros Hn Hp. apply waitAsync_fallback_run in Hp as (evs & _ & _ & Hout); [|done].
    destruct (Hout outcome eq_refl) as [(_ & Hne & _)|([-> | ->] & _)]; done. }
  destruct async; simpl in H.
  - destruct (env_native_waitAsync env) eqn:Hn.
    + destruct Hhost as [[_ [=]]|Hw]. apply (Hprim true Hw).
      unfold waitAsync in H. by rewrite Hn in H.
    + by apply Hpoll.
  - destruct Hhost as [[[=] _]|Hw]. by apply (Hprim false Hw).
Qed.

Lemma loop_untimed async fuel buffer v start env w r w' :
  (async = true ∧ env_native_waitAsync env = false) ∨
  (∀ n, env_wait env n ≠ "timed-out" ∧ env_wait env n ≠ "interrupted") →
  lockable (mem w) v →
  acquisition_loop async fuel buffer v Infinity start env w = (r, w') →
  ∀ e, r ≠ Throw e.
Proof.
  intros Hhost. revert w. induction fuel as [|fuel IH]; intros w Hl H.
  { rewrite acquisition_loop_zero in H. by injection H as <- <-. }
  rewrite acquisition_loop_succ, iteration_run in H. cbv zeta in H.
  change (deadline_passed Infinity start _) with false in H. cbv iota in H.
  set (w1 := {| mem := interfered env w; trace := _ |}) in *.
  assert (Hl1 : lockable (mem w1) v) by (by apply lockable_interfered).
  destruct (proj1 (lockable_load _ _) (lockable_interfered env w1 v Hl1)) as [old Hold].
  rewrite Hold in H.
  destruct (old =? Unlocked); [by injection H as <- <-|].
  set (w2 := {| mem := interfered env w1; trace := _ |}) in *.
  assert (Hl2 : lockable (mem w2) v) by (by apply lockable_interfered).
  change (remaining_time Infinity start _) with Infinity in H.
  destruct (wait_of async fuel v Infinity env w2) as [rw w3] eqn:Hw.
  pose proof (wait_of_contract _ _ _ _ _ _ _ _ Hw) as (Hs & _ & Hthrow).
  destruct rw as [outcome| |].
  - destruct (wait_of_untimed _ _ _ _ _ _ _ Hhost Hw) as [Hto Hint].
    apply String.eqb_neq in Hto, Hint. rewrite Hto, Hint in H.
    eapply IH; [|exact H]. by eapply env_steps_lockable.
  - by destruct (Hthrow _ eq_refl) as [_ []].
  - by injection H as <- <-.
Qed.

Lemma untimed_acquisition_no_throw async fuel buffer v timeoutMs env w r w' :
  valid_buffer buffer v → lockable (mem w) v →
  default_param timeoutMs (VNumber Infinity) = VNumber Infinity →
  (async = true ∧ env_native_waitAsync env = false) ∨
  (∀ n, env_wait env n ≠ "timed-out" ∧ env_wait env n ≠ "interrupted") →
  acquisition async fuel buffer timeoutMs env w = (r, w') →
  ∀ e, r ≠ Throw e.
Proof.
  intros Hv Hl HT Hhost. rewrite acquisition_unfold. unfold bind.
  rewrite (validateMutexBuffer_ok _ _ _ _ Hv), HT.
  change (validateTimeout (VNumber Infinity) env w) with (Ok Infinity, w).
  unfold Date_now, Atomics_compareExchange.
  set (w1 := {| mem := interfered env w; trace := _ |}) in *.
  assert (Hl1 : lockable (mem w1) v) by (by apply lockable_interfered).
  destruct (proj1 (lockable_load _ _) (lockable_interfered env w1 v Hl1)) as [old Hold].
  rewrite Hold.
  destruct (old =? Unlocked); [by intros [= <- <-]|].
  apply loop_untimed; [done|]. by apply lockable_interfered.
Qed.

(** X5: without a timeout ([timeoutMs] omitted or [Infinity]), [lock] and
    [lockSync] on a valid buffer whose lock word is in memory never fail:
    they return the handle of the buffer or go on waiting.  This holds on
    any host whose waits without a time limit end only by a wake-up, and
    for [lock] on a host without [Atomics.waitAsync] it holds whatever the
    one-millisecond waits of the polling report. *)
Theorem untimed_acquisition_never_fails async fuel buffer v timeoutMs env w r w' :
  valid_buffer buffer v → lockable (mem w) v →
  default_param timeoutMs (VNumber Infinity) = VNumber Infinity →
  (async = true ∧ env_native_waitAsync env = false) ∨
  (∀ n, env_wait env n ≠ "timed-out" ∧ env_wait env n ≠ "interrupted") →
  acquisition async fuel buffer timeoutMs env w = (r, w') →
  r = Ok (lock_handle buffer) ∨ r = OutOfFuel.
Proof.
  intros Hv Hl HT Hhost H. destruct r as [handle|e|].
  - apply acquisition_acquired in H as (_ & _ & _ & _ & -> & _). by left.
  - by destruct (untimed_acquisition_no_throw _ _ _ _ _ _ _ _ _ Hv Hl HT Hhost H e).
  - by right.
Qed.

Lemma untimed_acquisition_witness :
  let run := acquisition true 5 sample_buffer VUndefined still_polling_environment held_world in
  run.1 = Ok (lock_handle sample_buffer) ∨ run.1 = OutOfFuel.
Proof.
  intros run.
  apply (untimed_acquisition_never_fails true 5 sample_buffer sample_view VUndefined
           still_polling_environment held_world run.1 run.2).
  - repeat split; simpl; lia.
  - exists (bytes_of_int32 Locked). repeat split; simpl; lia.
  - reflexivity.
  - left. by split.
  - vm_compute. reflexivity.
Defined.

(** ** [lock] and [lockSync] side by side *)

Lemma same_up_to_waits_length wa wb :
  same_up_to_waits wa wb → length (trace wa) = length (trace wb).
Proof.
  intros [_ Ht]. by rewrite <- (length_fmap blocking (trace wa)), Ht, length_fmap.
Qed.

Lemma same_up_to_waits_interfered env wa wb :
  same_up_to_waits wa wb → interfered env wa = interfered env wb.
Proof.
  intros H. unfold interfered.
  rewrite (same_up_to_waits_length _ _ H). by destruct H as [-> _].
Qed.

Lemma same_up_to_waits_step wa wb m ea eb :
  same_up_to_waits wa wb → blocking ea = blocking eb →
  same_up_to_waits {| mem := m; trace := trace wa ++ [ea] |}
                   {| mem := m; trace := trace wb ++ [eb] |}.
Proof.
  intros [_ Ht] He. split; [done|]. cbn [trace].
  by rewrite !fmap_app, Ht, !list_fmap_singleton, He.
Qed.

Lemma loops_agree fuel buffer v T start env wa wb :
  env_native_waitAsync env = true →
  same_up_to_waits wa wb →
  (lock_loop fuel buffer v T start env wa).1 = (lockSync_loop fuel buffer v T start env wb).1 ∧
  same_up_to_waits (lock_loop fuel buffer v T start env wa).2
                   (lockSync_loop fuel buffer v T start env wb).2.
Proof.
  intros Hhost. revert wa wb. induction fuel as [|fuel IH]; intros wa wb Hab; [done|].
  change lock_loop with (acquisition_loop true).
  change lockSync_loop with (acquisition_loop false).
  rewrite !acquisition_loop_succ, !iteration_run. cbv zeta.
  rewrite (same_up_to_waits_length _ _ Hab), (same_up_to_waits_interfered env _ _ Hab).
  set (now := env_clock env (length (trace wb))).
  destruct (deadline_passed T start now).
  { split; [done|]. by apply same_up_to_waits_step. }
  set (w1a := {| mem := interfered env wb; trace := trace wa ++ [EvNow now] |}).
  set (w1b := {| mem := interfered env wb; trace := trace wb ++ [EvNow now] |}).
  assert (H1 : same_up_to_waits w1a w1b) by (by apply same_up_to_waits_step).
  rewrite (same_up_to_waits_interfered env _ _ H1).
  destruct (load_int32 (interfered env w1b) v 0) as [old|]; [|done].
  destruct (old =? Unlocked).
  { split; [done|]. by apply same_up_to_waits_step. }
  set (w2a := {| mem := interfered env w1b; trace := trace w1a ++ _ |}).
  set (w2b := {| mem := interfered env w1b; trace := trace w1b ++ _ |}).
  assert (H2 : same_up_to_waits w2a w2b) by (by apply same_up_to_waits_step).
  cbn [wait_of]. unfold waitAsync. rewrite Hhost.
  unfold Atomics_waitAsync, Atomics_wait, wait_primitive.
  rewrite (same_up_to_waits_length _ _ H2), (same_up_to_waits_interfered env _ _ H2).
  destruct (load_int32 (interfered env w2b) v 0) as [cur|]; [|done].
  set (outcome := if cur =? Locked then _ else _).
  destruct (String.eqb outcome "timed-out").
  { split; [done|]. by apply same_up_to_waits_step. }
  destruct (String.eqb outcome "interrupted").
  { split; [done|]. by apply same_up_to_waits_step. }
  change (acquisition_loop true) with lock_loop.
  change (acquisition_loop false) with lockSync_loop.
  apply IH. by apply same_up_to_waits_step.
Qed.

(** X6: on a host with [Atomics.waitAsync], [lock] and [lockSync] are one
    protocol: from the same world and with the same arguments they end
    with the same result and the same memory after the same operations,
    the only difference being that the waits of [lock] suspend where those
    of [lockSync] block. *)
Theorem lock_and_lockSync_agree fuel buffer timeoutMs env w :
  env_native_waitAsync env = true →
  (lock fuel buffer timeoutMs env w).1 = (lockSync fuel buffer timeoutMs env w).1 ∧
  mem (lock fuel buffer timeoutMs env w).2 = mem (lockSync fuel buffer timeoutMs env w).2 ∧
  blocking <$> trace (lock fuel buffer timeoutMs env w).2
  = blocking <$> trace (lockSync fuel buffer timeoutMs env w).2.
Proof.
  intros Hhost.
  enough (H : (lock fuel buffer timeoutMs env w).1 = (lockSync fuel buffer timeoutMs env w).1 ∧
              same_up_to_waits (lock fuel buffer timeoutMs env w).2
                               (lockSync fuel buffer timeoutMs env w).2)
    by (destruct H as (? & ? & ?); done).
  unfold lock, lockSync, bind.
  destruct (validateMutexBuffer buffer env w) as [[v| |] w0]; [|done..].
  destruct (validateTimeout _ env w0) as [[T| |] w1]; [|done..].
  unfold Date_now, Atomics_compareExchange.
  destruct (load_int32 _ v 0) as [old|]; [|done].
  destruct (old =? Unlocked); [done|].
  by apply loops_agree.
Qed.

Lemma lock_and_lockSync_witness :
  (lock 3 sample_buffer (VNumber (Finite 4)) waking_environment held_world).1
  = (lockSync 3 sample_buffer (VNumber (Finite 4)) waking_environment held_world).1 ∧
  mem (lock 3 sample_buffer (VNumber (Finite 4)) waking_environment held_world).2
  = mem (lockSync 3 sample_buffer (VNumber (Finite 4)) waking_environment held_world).2 ∧
  blocking <$> trace (lock 3 sample_buffer (VNumber (Finite 4)) waking_environment held_world).2
  = blocking <$> trace (lockSync 3 sample_buffer (VNumber (Finite 4))
                          waking_environment held_world).2.
Proof.
  apply (lock_and_lockSync_agree 3 sample_buffer (VNumber (Finite 4))
           waking_environment held_world).
  reflexivity.
Defined.

(** ** Validation of the arguments *)

Lemma validateMutexBuffer_invalid buffer env w :
  (∀ v, ¬ valid_buffer buffer v) →
  ∃ msg, validateMutexBuffer buffer env w = (Throw (MutexError msg), w) ∧
    invalid_buffer_message msg ∧
    (as_Int32Array buffer = None → msg = "Invalid buffer: must be an Int32Array") ∧
    (∀ v, as_Int32Array buffer = Some v →
       msg = if (view_length v <? 1)%nat
             then "Invalid buffer: must have length >= 1"
             else "Invalid buffer: must be backed by a SharedArrayBuffer").
Proof.
  intros Hinv. unfold validateMutexBuffer, invalid_buffer_message.
  destruct (as_Int32Array buffer) as [v|] eqn:Hview.
  - destruct (Nat.ltb_spec (view_length v) 1) as [Hlen|Hlen].
    + eexists. split; [done|]. split; [auto|]. split; [done|].
      intros v' [= <-]. by rewrite (proj2 (Nat.ltb_lt _ _) Hlen).
    + destruct (ab_shared (view_buffer v)) eqn:Hs; simpl.
      * destruct (Hinv v). unfold as_Int32Array in Hview.
        destruct buffer as [| | | | | | |v'| |]; try discriminate.
        destruct (view_kind v') eqn:Hk; try discriminate.
        injection Hview as ->. by repeat split.
      * eexists. split; [done|]. split; [auto|]. split; [done|].
        intros v' [= <-]. by rewrite (proj2 (Nat.ltb_ge _ _) Hlen).
  - eexists. split; [done|]. split; [auto|]. by split.
Qed.

(** X7: a buffer that is not an [Int32Array] of at least one element on
    a [SharedArrayBuffer] is rejected by [lock], [lockSync], [unlock]
    (also when called from a handle) and [withMutex] with one and the same
    error, before anything else is looked at (the timeout may be invalid
    too) and before any operation: the world is untouched.  Of the three
    reasons the first that applies is reported: not an [Int32Array], then
    no element, then not shared. *)
Theorem invalid_buffer_fails_first async fuel buffer timeoutMs fromDispose env w :
  (∀ v, ¬ valid_buffer buffer v) →
  ∃ msg, invalid_buffer_message msg ∧
    (as_Int32Array buffer = None → msg = "Invalid buffer: must be an Int32Array") ∧
    (∀ v, as_Int32Array buffer = Some v →
       msg = if (view_length v <? 1)%nat
             then "Invalid buffer: must have length >= 1"
             else "Invalid buffer: must be backed by a SharedArrayBuffer") ∧
    acquisition async fuel buffer timeoutMs env w = (Throw (MutexError msg), w) ∧
    unlock buffer fromDispose env w = (Throw (MutexError msg), w) ∧
    (typeof buffer ≠ "string" → buffer ≠ VUndefined → buffer ≠ VNull →
     withMutex buffer env w = (Throw (MutexError msg), w)).
Proof.
  intros Hinv.
  destruct (validateMutexBuffer_invalid buffer env w Hinv) as (msg & Hval & Hmsg & H1 & H2).
  exists msg. repeat (split; [done|]). split; [|split].
  - rewrite acquisition_unfold. unfold bind. by rewrite Hval.
  - unfold unlock, bind. by rewrite Hval.
  - intros Hty Hu Hn. unfold withMutex.
    destruct buffer; try done; simpl; unfold bind, ret; by rewrite Hval.
Qed.

Lemma invalid_buffer_witness :
  let buffer := VTypedArray {| view_kind := Int32;
                               view_buffer := {| ab_shared := false; ab_block := 1 |};
                               view_offset := 0;
                               view_length := 0 |} in
  ∃ msg, invalid_buffer_message msg ∧
    (as_Int32Array buffer = None → msg = "Invalid buffer: must be an Int32Array") ∧
    (∀ v, as_Int32Array buffer = Some v →
       msg = if (view_length v <? 1)%nat
             then "Invalid buffer: must have length >= 1"
             else "Invalid buffer: must be backed by a SharedArrayBuffer") ∧
    acquisition true 0 buffer (VNumber (Finite (-1))) still_environment held_world
    = (Throw (MutexError msg), held_world) ∧
    unlock buffer true still_environment held_world = (Throw (MutexError msg), held_world) ∧
    (typeof buffer ≠ "string" → buffer ≠ VUndefined → buffer ≠ VNull →
     withMutex buffer still_environment held_world = (Throw (MutexError msg), held_world)).
Proof.
  intros buffer.
  apply (invalid_buffer_fails_first true 0 buffer (VNumber (Finite (-1))) true
           still_environment held_world).
  intros v (Hb & _ & Hlen & _). injection Hb as <-. simpl in Hlen. lia.
Defined.

(** The errors of the loop: a timeout, an interruption, or an access to a
    lock word that is not in memory. *)
Lemma loop_throws_cases async fuel buffer v T start env w e w' :
  acquisition_loop async fuel buffer v T start env w = (Throw e, w') →
  e = MutexError (timed_out_message T) ∨ e = MutexError interrupted_message ∨
  e = RangeError "Invalid atomic access index".
Proof.
  revert w. induction fuel as [|fuel IH]; intros w H.
  { rewrite acquisition_loop_zero in H. discriminate. }
  rewrite acquisition_loop_succ, iteration_run in H. cbv zeta in H.
  destruct (deadline_passed T start _); [injection H as <- _; auto|].
  destruct (load_int32 _ v 0) as [old|]; [|injection H as <- _; auto].
  destruct (old =? Unlocked); [discriminate|].
  destruct (wait_of async fuel v _ env _) as [[outcome| |] w3] eqn:Hw;
    [| |discriminate].
  - destruct (String.eqb outcome "timed-out"); [injection H as <- _; auto|].
    destruct (String.eqb outcome "interrupted"); [injection H as <- _; auto|].
    by eapply IH.
  - injection H as <- _. apply wait_of_contract in Hw as (_ & _ & Hthrow).
    destruct (Hthrow _ eq_refl) as [-> _]. auto.
Qed.

(** X8: which timeouts [lock] and [lockSync] reject.  On a valid buffer
    the acquisition fails with the invalid-timeout error exactly when the
    timeout is given (not [undefined]) and is not a number or is a number
    below zero ([-Infinity] included); it then fails before the clock is
    read and before any atomic operation.  [null], booleans and strings,
    numeric ones too, are rejected; [Infinity], NaN and the numbers from
    zero on are accepted. *)
Theorem timeout_rejected_iff async fuel buffer v timeoutMs env w r w' :
  valid_buffer buffer v →
  acquisition async fuel buffer timeoutMs env w = (r, w') →
  (r = Throw (MutexError invalid_timeout_message) ↔
   timeoutMs ≠ VUndefined ∧ ∀ n, timeoutMs = VNumber n → number_lt n (Finite 0) = true) ∧
  (r = Throw (MutexError invalid_timeout_message) → w' = w).
Proof.
  intros Hv H.
  destruct (invalid_timeout (default_param timeoutMs (VNumber Infinity))) eqn:Hinv.
  - rewrite (rejected_timeout_fails_first _ _ _ _ _ _ _ Hv Hinv) in H.
    injection H as <- <-. split; [|done]. split; [intros _|done].
    apply invalid_timeout_spec in Hinv as [Hne Hcases].
    split; [by intros ->|]. intros n ->. simpl in *.
    destruct Hcases as [Hty|(n' & [= <-] & Hlt)]; done.
  - assert (Hr : r ≠ Throw (MutexError invalid_timeout_message)).
    { intros ->. rewrite acquisition_unfold in H. unfold bind in H.
      rewrite (validateMutexBuffer_ok _ _ _ _ Hv) in H.
      unfold validateTimeout in H. rewrite Hinv in H.
      destruct (validateTimeout_number _ Hinv) as [T HT]. rewrite HT in H.
      unfold ret at 1 in H. unfold Date_now, Atomics_compareExchange in H.
      destruct (load_int32 _ v 0) as [old|]; [|discriminate].
      destruct (old =? Unlocked); [discriminate|].
      apply loop_throws_cases in H as [H|[H|H]]; discriminate. }
    split; [|done]. split; [done|]. intros [Hu Hn]. exfalso.
    destruct timeoutMs as [| | |n| | | | | |]; try discriminate; [done|].
    specialize (Hn n eq_refl). simpl in Hinv. destruct n as [| | |z|m e]; try discriminate.
    all: unfold invalid_timeout in Hinv; simpl in Hinv, Hn; by rewrite Hn in Hinv.
Qed.

Lemma timeout_rejected_witness :
  let run := acquisition false 0 sample_buffer VNull still_environment free_world in
  (run.1 = Throw (MutexError invalid_timeout_message) ↔
   VNull ≠ VUndefined ∧ ∀ n, VNull = VNumber n → number_lt n (Finite 0) = true) ∧
  (run.1 = Throw (MutexError invalid_timeout_message) → run.2 = free_world).
Proof.
  intros run.
  apply (timeout_rejected_iff false 0 sample_buffer sample_view VNull
           still_environment free_world run.1 run.2).
  - repeat split; simpl; lia.
  - vm_compute. reflexivity.
Defined.

(** ** Words in memory *)

Lemma byte_of_Z_of_byte (b : byte) : byte_of_Z (Z_of_byte b) = b.
Proof.
  unfold byte_of_Z, Z_of_byte.
  pose proof (Byte.to_N_bounded b) as Hb.
  rewrite Z.mod_small by lia. by rewrite N2Z.id, Byte.of_to_N.
Qed.

Lemma Z_of_byte_range (b : byte) : 0 ≤ Z_of_byte b < 256.
Proof. unfold Z_of_byte. pose proof (Byte.to_N_bounded b). lia. Qed.

Lemma byte_of_Z_low (z q : Z) (b : byte) :
  z = Z_of_byte b + 256 * q → byte_of_Z z = b ∧ z / 256 = q.
Proof.
  intros ->. pose proof (Z_of_byte_range b) as Hb.
  replace (Z_of_byte b + 256 * q) with (Z_of_byte b + q * 256) by lia. split.
  - rewrite <- (byte_of_Z_of_byte b) at 2. unfold byte_of_Z. do 3 f_equal.
    rewrite Z.mod_add by lia. by rewrite Z.mod_small.
  - rewrite Z.div_add by lia. rewrite Z.div_small by done. lia.
Qed.

(** The bytes of the integer that four bytes hold are those bytes. *)
Lemma bytes_of_int32_of_bytes (bs : list byte) :
  length bs = 4%nat → bytes_of_int32 (int32_of_bytes bs) = bs.
Proof.
  intros Hlen. destruct bs as [|b0 [|b1 [|b2 [|b3 [|]]]]]; try discriminate.
  unfold int32_of_bytes, unsigned_of_bytes. simpl foldr.
  set (u := Z_of_byte b0 + 256 * (Z_of_byte b1 + 256 * (Z_of_byte b2 +
              256 * (Z_of_byte b3 + 256 * 0)))).
  assert (Hz : ∃ k, (if u <? 2 ^ 31 then u else u - 2 ^ 32) =
                    Z_of_byte b0 + 256 * (Z_of_byte b1 + 256 * (Z_of_byte b2 +
                      256 * (Z_of_byte b3 + 256 * k)))).
  { destruct (u <? 2 ^ 31); [by exists 0|]. exists (-1). unfold u. lia. }
  destruct Hz as [k Hz]. rewrite Hz. clear Hz u. unfold bytes_of_int32.
  change (2 ^ 8) with 256. change (2 ^ 16) with (256 * 256).
  change (2 ^ 24) with (256 * 256 * 256).
  rewrite <- !Z.div_div by lia.
  set (q3 := Z_of_byte b3 + 256 * k).
  set (q2 := Z_of_byte b2 + 256 * q3).
  set (q1 := Z_of_byte b1 + 256 * q2).
  destruct (byte_of_Z_low (Z_of_byte b0 + 256 * q1) q1 b0 eq_refl) as [-> ->].
  destruct (byte_of_Z_low q1 q2 b1 eq_refl) as [-> ->].
  destruct (byte_of_Z_low q2 q3 b2 eq_refl) as [-> ->].
  by destruct (byte_of_Z_low q3 k b3 eq_refl) as [-> _].
Qed.

Lemma splice_same (pos n : nat) (bs : list byte) :
  (pos + n ≤ length bs)%nat → splice pos (take n (drop pos bs)) bs = bs.
Proof.
  intros H. unfold splice. rewrite length_take, length_drop.
  replace (pos + n `min` (length bs - pos))%nat with (pos + n)%nat by lia.
  rewrite <- (take_drop pos bs) at 4. f_equal.
  rewrite <- (take_drop n (drop pos bs)) at 2. f_equal.
  by rewrite drop_drop.
Qed.

Lemma splice_splice (pos : nat) (new1 new2 bs : list byte) :
  length new1 = length new2 → (pos + length new1 ≤ length bs)%nat →
  splice pos new2 (splice pos new1 bs) = splice pos new2 bs.
Proof.
  intros Hlen Hfit.
  rewrite <- (take_drop pos bs), <- (take_drop (length new1) (drop pos bs)).
  set (pre := take pos bs). set (old := take (length new1) (drop pos bs)).
  set (post := drop (length new1) (drop pos bs)).
  assert (Hpre : pos = length pre) by (unfold pre; rewrite length_take; lia).
  assert (Hold : length old = length new1)
    by (unfold old; rewrite length_take, length_drop; lia).
  rewrite Hpre, (splice_app pre old new1 post) by done.
  rewrite (splice_app pre new1 new2 post) by done.
  rewrite (splice_app pre old new2 post) by congruence. done.
Qed.

(** Storing the value that the element holds changes nothing. *)
Lemma store_int32_same (m : gmap positive (list byte)) (v : view) (z : Z) :
  load_int32 m v 0 = Some z → store_int32 m v 0 z = m.
Proof.
  unfold load_int32, store_int32. intros H.
  destruct (m !! ab_block (view_buffer v)) as [bs|] eqn:Hbs; [|discriminate].
  case_decide as Hfit; [|discriminate]. injection H as <-.
  apply map_eq. intros l.
  destruct (decide (l = ab_block (view_buffer v))) as [->|Hne].
  - rewrite lookup_alter_eq, Hbs. simpl. f_equal.
    rewrite bytes_of_int32_of_bytes by (rewrite length_take, length_drop; lia).
    apply splice_same. lia.
  - by rewrite lookup_alter_ne.
Qed.

(** Of two stores to the element the second prevails. *)
Lemma store_store_int32 (m : gmap positive (list byte)) (v : view) (a b : Z) :
  lockable m v → store_int32 (store_int32 m v 0 a) v 0 b = store_int32 m v 0 b.
Proof.
  intros (bs & Hbs & Hpos & Hlen). unfold store_int32.
  apply map_eq. intros l.
  destruct (decide (l = ab_block (view_buffer v))) as [->|Hne].
  - rewrite !lookup_alter_eq, Hbs. simpl. f_equal.
    apply splice_splice; [done|]. unfold int32_pos. rewrite length_bytes_of_int32. lia.
  - by rewrite !lookup_alter_ne.
Qed.

(** ** Release, and acquisition and release in turn *)

(** X9: what [unlock] does on a valid buffer whose lock word is in
    memory, whoever took the lock (a handle carries no owner).  Its first
    operation is the compare-and-swap from Locked to Unlocked; when that
    finds the word Locked it stores Unlocked, notifies the waiters of the
    word once and returns [undefined], and the word then reads Unlocked
    unless others store to it at once; when it finds anything else it
    stores nothing and notifies nobody, and returns [undefined] to a handle
    and throws NotLocked otherwise. *)
Theorem unlock_releases_and_notifies buffer v fromDispose env w :
  valid_buffer buffer v → lockable (mem w) v →
  ∃ old r w',
    load_int32 (interfered env w) v 0 = Some old ∧
    unlock buffer fromDispose env w = (r, w') ∧
    events_since w w' = EvCompareExchange v 0 Locked Unlocked old ::
                        (if old =? Locked then [EvNotify v 0] else []) ∧
    (old = Locked →
       r = Ok VUndefined ∧
       mem w' = apply_stores (store_int32 (interfered env w) v 0 Unlocked)
                  (env_others env (S (length (trace w)))) ∧
       (quiet env → lock_word w' v = Some Unlocked)) ∧
    (old ≠ Locked →
       r = (if fromDispose then Ok VUndefined else Throw (MutexError not_locked_message)) ∧
       mem w' = interfered env w).
Proof.
  intros Hv Hl.
  destruct (unlock_run buffer v fromDispose env w Hv Hl) as (old & Hold & Hrun).
  exists old. rewrite Hrun.
  destruct (Z.eqb_spec old Locked) as [->|Hne]; eexists _, _.
  - split; [done|]. split; [done|]. split; [by apply events_since_app|].
    split; [|done]. intros _. split; [done|]. split; [done|].
    intros Hq. unfold lock_word. cbn [mem]. rewrite Hq, apply_stores_nil.
    apply load_store_int32; [by apply lockable_interfered|unfold Unlocked; lia].
  - split; [done|]. split; [done|]. split; [by apply events_since_app|].
    split; [done|]. intros _. by split.
Qed.

Lemma unlock_releases_witness :
  ∃ old r w',
    load_int32 (interfered still_environment held_world) sample_view 0 = Some old ∧
    unlock sample_buffer false still_environment held_world = (r, w') ∧
    events_since held_world w' = EvCompareExchange sample_view 0 Locked Unlocked old ::
                                 (if old =? Locked then [EvNotify sample_view 0] else []) ∧
    (old = Locked →
       r = Ok VUndefined ∧
       mem w' = apply_stores
                  (store_int32 (interfered still_environment held_world) sample_view 0 Unlocked)
                  (env_others still_environment (S (length (trace held_world)))) ∧
       (quiet still_environment → lock_word w' sample_view = Some Unlocked)) ∧
    (old ≠ Locked →
       r = (if false then Ok VUndefined else Throw (MutexError not_locked_message)) ∧
       mem w' = interfered still_environment held_world).
Proof.
  apply (unlock_releases_and_notifies sample_buffer sample_view false
           still_environment held_world).
  - repeat split; simpl; lia.
  - exists (bytes_of_int32 Locked). repeat split; simpl; lia.
Defined.

(** The acquisition of a free lock when nobody else acts. *)
Lemma free_lock_run async fuel buffer v env w :
  quiet env → valid_buffer buffer v → lock_word w v = Some Unlocked →
  acquisition async fuel buffer VUndefined env w =
  (Ok (lock_handle buffer),
   {| mem := store_int32 (mem w) v 0 Locked;
      trace := trace w ++ [EvNow (env_clock env (length (trace w)));
                           EvCompareExchange v 0 Unlocked Locked Unlocked] |}).
Proof.
  intros Hq Hv Hword. rewrite acquisition_unfold. unfold bind.
  rewrite (validateMutexBuffer_ok _ _ _ _ Hv).
  change (validateTimeout (default_param VUndefined (VNumber Infinity)) env w)
    with (Ok Infinity, w).
  unfold Date_now, Atomics_compareExchange.
  rewrite interfered_after_one, replay_quiet by done.
  unfold lock_word in Hword. rewrite Hword. cbn. by rewrite <- app_assoc.
Qed.

(** The release of a held lock when nobody else acts. *)
Lemma held_lock_release_run buffer v fromDispose env w :
  quiet env → valid_buffer buffer v → lock_word w v = Some Locked →
  unlock buffer fromDispose env w =
  (Ok VUndefined,
   {| mem := store_int32 (mem w) v 0 Unlocked;
      trace := trace w ++ [EvCompareExchange v 0 Locked Unlocked Locked; EvNotify v 0] |}).
Proof.
  intros Hq Hv Hword.
  assert (Hl : lockable (mem w) v) by (apply lockable_load; unfold lock_word in Hword; by rewrite Hword).
  destruct (unlock_run buffer v fromDispose env w Hv Hl) as (old & Hold & Hrun).
  rewrite interfered_quiet in Hold, Hrun by done.
  unfold lock_word in Hword. rewrite Hword in Hold. injection Hold as <-.
  by rewrite Hrun, Hq, apply_stores_nil.
Qed.

(** One acquisition and its release. *)
Lemma lock_release_run async fuel buffer v env w :
  quiet env → valid_buffer buffer v → lock_word w v = Some Unlocked →
  ∃ w1,
    acquisition async fuel buffer VUndefined env w = (Ok (lock_handle buffer), w1) ∧
    lock_word w1 v = Some Locked ∧
    unlock buffer true env w1 =
    (Ok VUndefined,
     {| mem := mem w;
        trace := trace w ++ [EvNow (env_clock env (length (trace w)));
                             EvCompareExchange v 0 Unlocked Locked Unlocked;
                             EvCompareExchange v 0 Locked Unlocked Locked;
                             EvNotify v 0] |}).
Proof.
  intros Hq Hv Hword.
  assert (Hl : lockable (mem w) v) by (apply lockable_load; unfold lock_word in Hword; by rewrite Hword).
  eexists. split; [by apply free_lock_run|].
  assert (Hlocked : lock_word {| mem := store_int32 (mem w) v 0 Locked;
                                 trace := trace w ++ [EvNow (env_clock env (length (trace w)));
                                   EvCompareExchange v 0 Unlocked Locked Unlocked] |} v
                    = Some Locked).
  { unfold lock_word. cbn [mem]. apply load_store_int32; [done|unfold Locked; lia]. }
  split; [done|].
  rewrite (held_lock_release_run _ v) by done. cbn [mem trace].
  rewrite store_store_int32 by done. rewrite store_int32_same by done.
  by rewrite <- app_assoc.
Qed.

(** X10: with nobody else acting, acquisitions and releases can follow
    each other without end on a valid buffer whose lock word is Unlocked:
    every [lock()] or [lockSync()] of the mutex returns a handle at once
    (no wait), every release succeeds, each turn takes four operations, and
    after the last turn the memory is byte for byte what it was before the
    first. *)
Theorem lock_release_cycles_restore_memory uf fuel buffer v forms env w :
  quiet env → valid_buffer buffer v → lock_word w v = Some Unlocked →
  ∃ w', lock_release_cycles uf fuel (mutex_object buffer) forms env w = (Ok tt, w') ∧
    mem w' = mem w ∧
    trace w' = trace w ++ events_since w w' ∧
    length (events_since w w') = (4 * length forms)%nat ∧
    Forall (λ e, is_wait e = false) (events_since w w').
Proof.
  intros Hq Hv. revert w. induction forms as [|async forms IH]; intros w Hword.
  { exists w. rewrite events_since_refl, app_nil_r. by repeat split. }
  destruct (lock_release_run async fuel buffer v env w Hq Hv Hword) as (w1 & Hlock & _ & Hrel).
  set (w2 := {| mem := mem w; trace := _ |}) in Hrel.
  destruct (IH w2 Hword) as (w' & Hrun & Hm & Ht & Hlen & Hnowait).
  exists w'. split.
  { cbn [lock_release_cycles]. unfold bind at 1.
    rewrite mutex_lock_is_acquisition. change (argument 0 []) with VUndefined.
    rewrite Hlock. unfold bind at 1. rewrite dispose_is_unlock, Hrel. exact Hrun. }
  split; [done|].
  assert (Hev : events_since w w' =
                [EvNow (env_clock env (length (trace w)));
                 EvCompareExchange v 0 Unlocked Locked Unlocked;
                 EvCompareExchange v 0 Locked Unlocked Locked;
                 EvNotify v 0] ++ events_since w2 w').
  { apply events_since_app. rewrite Ht at 1. unfold w2. cbn [trace]. by rewrite <- app_assoc. }
  rewrite Hev. split; [rewrite Ht at 1; unfold w2; cbn [trace]; by rewrite <- app_assoc|].
  split; [rewrite length_app, Hlen; cbn [length]; lia|].
  apply Forall_app. split; [by repeat constructor|done].
Qed.

Lemma lock_release_cycles_witness :
  ∃ w', lock_release_cycles no_user_function 0 (mutex_object sample_buffer)
          [true; false; true] still_environment free_world = (Ok tt, w') ∧
    mem w' = mem free_world ∧
    trace w' = trace free_world ++ events_since free_world w' ∧
    length (events_since free_world w') = (4 * length [true; false; true])%nat ∧
    Forall (λ e, is_wait e = false) (events_since free_world w').
Proof.
  apply (lock_release_cycles_restore_memory no_user_function 0 sample_buffer sample_view
           [true; false; true] still_environment free_world).
  - apply still_environment_quiet.
  - repeat split; simpl; lia.
  - vm_compute. reflexivity.
Defined.

(** X11: [withMutex] on the buffer of a mutex gives a second mutex on
    the same lock.  With nobody else acting and the lock free: after
    [lock()] on the first mutex the second one reads locked, [unlock()] on
    the second releases the lock that the first took, the first then reads
    unlocked, and the memory is what it was at the start. *)
Theorem withMutex_shares_the_lock uf fuel buffer v env w :
  quiet env → valid_buffer buffer v → lock_word w v = Some Unlocked →
  ∃ w', shared_buffer_scenario uf fuel (mutex_object buffer) env w
        = (Ok (VBoolean true, VBoolean false), w') ∧
    mem w' = mem w.
Proof.
  intros Hq Hv Hword.
  assert (Hl : lockable (mem w) v) by (apply lockable_load; unfold lock_word in Hword; by rewrite Hword).
  unfold shared_buffer_scenario. unfold bind at 1.
  change (property (mutex_object buffer) (KString "buffer")) with buffer.
  rewrite (withMutex_buffer _ _ _ _ Hv).
  unfold bind at 1.
  rewrite (mutex_lock_is_acquisition uf true). change (argument 0 []) with VUndefined.
  rewrite (free_lock_run true fuel buffer v env w Hq Hv Hword).
  set (w1 := {| mem := store_int32 (mem w) v 0 Locked; trace := _ |}).
  assert (Hw1 : lock_word w1 v = Some Locked).
  { unfold lock_word, w1. cbn [mem]. apply load_store_int32; [done|unfold Locked; lia]. }
  assert (Hl1 : lockable (mem w1) v) by (apply lockable_load; unfold lock_word in Hw1; by rewrite Hw1).
  unfold bind at 1. rewrite mutex_isLocked_is_isLocked.
  destruct (isLocked_run buffer v env w1 Hv Hl1) as (cur & Hcur & ->).
  rewrite interfered_quiet in Hcur |- * by done.
  unfold lock_word in Hw1. rewrite Hw1 in Hcur. injection Hcur as <-.
  set (w2 := {| mem := mem w1; trace := _ |}).
  unfold bind at 1. rewrite mutex_unlock_is_unlock.
  rewrite (held_lock_release_run buffer v false env w2 Hq Hv) by done.
  set (w3 := {| mem := store_int32 (mem w2) v 0 Unlocked; trace := _ |}).
  assert (Hm3 : mem w3 = mem w).
  { unfold w3, w2, w1. cbn [mem]. rewrite store_store_int32 by done.
    by apply store_int32_same. }
  assert (Hl3 : lockable (mem w3) v) by (by rewrite Hm3).
  unfold bind at 1. rewrite mutex_isLocked_is_isLocked.
  destruct (isLocked_run buffer v env w3 Hv Hl3) as (cur & Hcur & ->).
  rewrite interfered_quiet in Hcur |- * by done.
  rewrite Hm3 in Hcur. unfold lock_word in Hword. rewrite Hword in Hcur.
  injection Hcur as <-. eexists. split; [done|]. done.
Qed.

Lemma withMutex_shares_witness :
  ∃ w', shared_buffer_scenario no_user_function 0 (mutex_object sample_buffer)
          still_environment free_world
        = (Ok (VBoolean true, VBoolean false), w') ∧
    mem w' = mem free_world.
Proof.
  apply (withMutex_shares_the_lock no_user_function 0 sample_buffer sample_view
           still_environment free_world).
  - apply still_environment_quiet.
  - repeat split; simpl; lia.
  - vm_compute. reflexivity.
Defined.

(** ** What the operations leave alone *)

Lemma same_outside_lock_word_refl v (m : gmap positive (list byte)) :
  same_outside_lock_word v m m.
Proof. intros l. destruct (m !! l); [|done]. split; [done|]. intros i. by right. Qed.

Lemma splice_lookup_outside (pos i : nat) (new bs : list byte) :
  (pos + length new ≤ length bs)%nat → (i < pos ∨ pos + length new ≤ i)%nat →
  splice pos new bs !! i = bs !! i.
Proof.
  intros Hfit Hi. unfold splice.
  assert (Hpre : length (take pos bs) = pos) by (rewrite length_take; lia).
  destruct Hi as [Hi|Hi].
  - rewrite lookup_app_l by lia. by apply lookup_take_lt.
  - rewrite lookup_app_r by lia. rewrite lookup_app_r by lia.
    rewrite lookup_drop, Hpre. f_equal. lia.
Qed.

Lemma store_int32_outside (m : gmap positive (list byte)) (v : view) (z : Z) :
  lockable m v → same_outside_lock_word v m (store_int32 m v 0 z).
Proof.
  intros (bs & Hbs & Hpos & Hlen) l. unfold store_int32.
  destruct (decide (l = ab_block (view_buffer v))) as [->|Hne].
  - rewrite lookup_alter_eq, Hbs. simpl.
    assert (Hfit : (int32_pos v 0 + length (bytes_of_int32 z) ≤ length bs)%nat)
      by (unfold int32_pos; rewrite length_bytes_of_int32; lia).
    split; [by apply length_splice|].
    intros i. destruct (decide (view_offset v ≤ i < view_offset v + 4)%nat) as [Hi|Hi].
    + by left.
    + right. apply splice_lookup_outside; [done|].
      unfold int32_pos. rewrite length_bytes_of_int32. lia.
  - rewrite lookup_alter_ne by done. destruct (m !! l); [|done].
    split; [done|]. intros i. by right.
Qed.

(** X12: with nobody else acting, [lock], [lockSync], [unlock] and
    [isLocked] on a valid buffer change nothing in memory but the four
    bytes of the lock word: every block keeps its length, every other block
    and every other byte of the buffer (further elements, the bytes of a
    string identifier) keep their contents, whatever the result of the
    operation; [isLocked] changes nothing at all. *)
Theorem operations_confined_to_lock_word async fuel buffer v timeoutMs fromDispose env w :
  quiet env → valid_buffer buffer v →
  same_outside_lock_word v (mem w) (mem (acquisition async fuel buffer timeoutMs env w).2) ∧
  same_outside_lock_word v (mem w) (mem (unlock buffer fromDispose env w).2) ∧
  mem (isLocked buffer env w).2 = mem w.
Proof.
  intros Hq Hv. split; [|split].
  - destruct (acquisition async fuel buffer timeoutMs env w) as [r w'] eqn:H. cbn [snd].
    destruct r as [handle| |].
    + apply acquisition_acquired_memory in H
        as (v' & pre & now & Hv' & _ & _ & _ & Hl & ->).
      destruct Hv as (-> & _), Hv' as ([= <-] & _).
      rewrite replay_quiet in Hl |- * by done.
      apply store_int32_outside, lockable_load. by rewrite Hl.
    + apply acquisition_env_steps in H as (evs & _ & -> & _); [|done].
      rewrite replay_quiet by done. apply same_outside_lock_word_refl.
    + apply acquisition_env_steps in H as (evs & _ & -> & _); [|done].
      rewrite replay_quiet by done. apply same_outside_lock_word_refl.
  - destruct (load_int32 (mem w) v 0) as [z|] eqn:Hword.
    + assert (Hl : lockable (mem w) v) by (apply lockable_load; by rewrite Hword).
      destruct (unlock_run buffer v fromDispose env w Hv Hl) as (old & Hold & ->).
      rewrite interfered_quiet by done.
      destruct (old =? Locked); cbn [snd mem].
      * rewrite Hq, apply_stores_nil. by apply store_int32_outside.
      * apply same_outside_lock_word_refl.
    + unfold unlock, bind. rewrite (validateMutexBuffer_ok _ _ _ _ Hv).
      unfold Atomics_compareExchange. rewrite interfered_quiet, Hword by done.
      apply same_outside_lock_word_refl.
  - destruct Hv as (-> & Hk & _). unfold isLocked, as_Int32Array, bind, Atomics_load.
    rewrite Hk, interfered_quiet by done.
    by destruct (load_int32 (mem w) v 0).
Qed.

Lemma operations_confined_witness :
  same_outside_lock_word sample_view (mem free_world)
    (mem (acquisition true 0 sample_buffer VUndefined still_environment free_world).2) ∧
  same_outside_lock_word sample_view (mem free_world)
    (mem (unlock sample_buffer false still_environment free_world).2) ∧
  mem (isLocked sample_buffer still_environment free_world).2 = mem free_world.
Proof.
  apply (operations_confined_to_lock_word true 0 sample_buffer sample_view VUndefined false
           still_environment free_world).
  - apply still_environment_quiet.
  - repeat split; simpl; lia.
Defined.

(** ** Fresh buffers *)

Lemma load_int32_insert_fresh (m : gmap positive (list byte)) l (bs : list byte)
    (v : view) (index : nat) :
  m !! l = None → is_Some (load_int32 m v index) →
  load_int32 (<[l := bs]> m) v index = load_int32 m v index.
Proof.
  intros Hfresh [z Hz]. unfold load_int32 in *.
  destruct (decide (l = ab_block (view_buffer v))) as [->|Hne].
  - by rewrite Hfresh in Hz.
  - by rewrite lookup_insert_ne.
Qed.

(** X13: [createMutex] never fails.  It allocates a block of four bytes
    that was not in memory, performs no atomic operation, and returns a
    mutex on a valid one-element buffer whose lock word is Unlocked; every
    block that existed is left as it was, so that every element that could
    be read before reads the same, the lock words of the mutexes created
    earlier among them. *)
Theorem createMutex_is_fresh env w :
  ∃ v w', createMutex env w = (Ok (mutex_object (VTypedArray v)), w') ∧
    valid_buffer (VTypedArray v) v ∧
    mem w !! ab_block (view_buffer v) = None ∧
    mem w' = <[ab_block (view_buffer v) := bytes_of_int32 Unlocked]> (mem w) ∧
    trace w' = trace w ∧
    lock_word w' v = Some Unlocked ∧
    ∀ v0 index, is_Some (load_int32 (mem w) v0 index) →
                load_int32 (mem w') v0 index = load_int32 (mem w) v0 index.
Proof.
  destruct (createMutex_run env w) as (v & Hv & Hfresh & Hview & Hrun).
  apply not_elem_of_dom in Hfresh.
  eexists v, _. split; [exact Hrun|]. split; [done|]. split; [done|].
  split; [done|]. split; [done|]. cbn [mem]. split.
  - unfold lock_word. cbn [mem].
    rewrite <- (app_nil_r (bytes_of_int32 Unlocked)).
    apply load_int32_insert_head; [by rewrite Hview|by rewrite Hview; simpl; lia|done].
  - intros v0 index. by apply load_int32_insert_fresh.
Qed.

(** The run of [createBufferFromString] on a non-empty string. *)
Lemma createBufferFromString_run c s' env w :
  let bytes := TextEncoder_encode (c :: s') in
  let size := (4 + length bytes)%nat in
  createBufferFromString (VString (c :: s')) env w =
  (Ok (VTypedArray {| view_kind := Int32;
                      view_buffer := {| ab_shared := true;
                                        ab_block := fresh (dom (mem w)) |};
                      view_offset := 0;
                      view_length := ceil_div size 4 |}),
   {| mem := <[fresh (dom (mem w)) :=
                 bytes_of_int32 Unlocked ++ bytes ++
                 replicate (ceil_div size 4 * 4 - size) x00]> (mem w);
      trace := trace w |}).
Proof.
  set (s := c :: s'). intros bytes size.
  destruct (ceil_div_4 size) as (pad & Hpad & Halign).
  set (l := fresh (dom (mem w))).
  set (aligned := (ceil_div size 4 * 4)%nat) in *.
  replace (aligned - size)%nat with pad by lia.
  assert (Hdiv : (aligned / 4 = ceil_div size 4)%nat).
  { unfold aligned. apply Nat.div_mul. lia. }
  assert (Hpos : (0 < ceil_div size 4)%nat).
  { rewrite <- Hdiv, Halign. apply Nat.div_str_pos. unfold size. lia. }
  set (v := {| view_kind := Int32;
               view_buffer := {| ab_shared := true; ab_block := l |};
               view_offset := 0;
               view_length := ceil_div size 4 |}).
  unfold createBufferFromString. fold s. fold bytes. cbn [truthy typeof negb orb].
  replace (bool_decide (s = [])) with false by done.
  cbn [negb String.eqb Ascii.eqb Bool.eqb andb orb]. cbn match.
  fold size. fold aligned.
  unfold bind at 1, new_SharedArrayBuffer at 1. fold l.
  unfold bind at 1, new_Int32Array, bind at 1, byteLength. cbn [mem ab_block].
  rewrite lookup_insert_block, length_replicate.
  replace (aligned `mod` 4 =? 0)%nat with true
    by (symmetry; apply Nat.eqb_eq; unfold aligned; apply Nat.Div0.mod_mul).
  unfold ret at 1.
  unfold bind at 1, new_Uint8Array, bind at 1, byteLength. cbn [mem ab_block].
  rewrite lookup_insert_block, length_replicate. unfold ret at 1.
  rewrite Hdiv. fold v.
  unfold bind at 1, set_int32.
  assert (Hl : lockable (<[l := replicate aligned x00]> (mem w)) v).
  { apply (lockable_insert (mem w) v); [done|].
    change (view_offset v) with 0%nat. rewrite length_replicate.
    unfold size in Halign. lia. }
  apply lockable_load in Hl as [z Hz]. cbn [mem]. rewrite Hz.
  unfold update_block. cbn [mem trace view_buffer ab_block view_offset view_length v].
  rewrite alter_insert_block.
  unfold bind at 1, Uint8Array_set. cbn [view_length view_buffer view_offset ab_block].
  rewrite decide_True by (unfold size in Halign; lia).
  unfold update_block. cbn [mem trace]. rewrite alter_insert_block.
  assert (Hblock :
    splice (0 + 4) bytes (splice (int32_pos v 0) (bytes_of_int32 Unlocked)
                            (replicate aligned x00))
    = bytes_of_int32 Unlocked ++ bytes ++ replicate pad x00).
  { rewrite Halign. unfold size. rewrite !replicate_add.
    rewrite <- (app_assoc (replicate 4 x00)).
    change (int32_pos v 0) with 0%nat.
    rewrite (splice_head (replicate 4 x00) (bytes_of_int32 Unlocked)) by done.
    change (0 + 4)%nat with (length (bytes_of_int32 Unlocked)).
    rewrite (splice_app (bytes_of_int32 Unlocked) (replicate (length bytes) x00) bytes)
      by apply length_replicate.
    done. }
  rewrite Hblock.
  destruct (size <? aligned)%nat eqn:Hlt.
  - unfold bind at 1, Uint8Array_fill, update_block.
    cbn [mem trace view_length view_buffer view_offset ab_block].
    rewrite alter_insert_block. unfold ret. do 3 f_equal.
    replace (aligned `min` aligned - size)%nat with pad by lia.
    rewrite (app_assoc (bytes_of_int32 Unlocked)).
    replace (0 + size)%nat with (length (bytes_of_int32 Unlocked ++ bytes))
      by (rewrite length_app; done).
    by rewrite (splice_tail _ (replicate pad x00) (replicate pad x00)).
  - unfold bind at 1, ret. apply Nat.ltb_ge in Hlt.
    replace pad with 0%nat by lia. done.
Qed.

(** [withMutex] on a non-empty string. *)
Lemma withMutex_string_run c s' env w :
  let bytes := TextEncoder_encode (c :: s') in
  let size := (4 + length bytes)%nat in
  let v := {| view_kind := Int32;
              view_buffer := {| ab_shared := true; ab_block := fresh (dom (mem w)) |};
              view_offset := 0;
              view_length := ceil_div size 4 |} in
  valid_buffer (VTypedArray v) v ∧
  withMutex (VString (c :: s')) env w =
  (Ok (mutex_object (VTypedArray v)),
   {| mem := <[fresh (dom (mem w)) :=
                 bytes_of_int32 Unlocked ++ bytes ++
                 replicate (ceil_div size 4 * 4 - size) x00]> (mem w);
      trace := trace w |}).
Proof.
  intros bytes size v.
  assert (Hv : valid_buffer (VTypedArray v) v).
  { repeat split. cbn [view_length v].
    destruct (ceil_div_4 size) as (pad & Hpad & Halign). unfold size in *. lia. }
  split; [done|].
  unfold withMutex. cbn [typeof String.eqb Ascii.eqb Bool.eqb andb].
  unfold bind at 1. rewrite createBufferFromString_run. fold bytes size v.
  unfold bind. by rewrite (validateMutexBuffer_ok _ _ _ _ Hv).
Qed.

Lemma load_store_int32_other (m : gmap positive (list byte)) (v v' : view)
    (index : nat) (z : Z) :
  ab_block (view_buffer v') ≠ ab_block (view_buffer v) →
  load_int32 (store_int32 m v 0 z) v' index = load_int32 m v' index.
Proof.
  intros Hne. unfold load_int32, store_int32. by rewrite lookup_alter_ne.
Qed.

(** X14: a string names no lock.  [withMutex] succeeds on every non-empty
    string, and each call allocates a block of its own: two calls with the
    same string give two valid buffers on different blocks, with the same
    bytes and both Unlocked, and with nobody else acting an acquisition
    through the first leaves the second Unlocked. *)
Theorem withMutex_string_is_fresh_each_time s async fuel env w :
  s ≠ [] →
  ∃ v1 w1 v2 w2,
    withMutex (VString s) env w = (Ok (mutex_object (VTypedArray v1)), w1) ∧
    withMutex (VString s) env w1 = (Ok (mutex_object (VTypedArray v2)), w2) ∧
    valid_buffer (VTypedArray v1) v1 ∧ valid_buffer (VTypedArray v2) v2 ∧
    mem w !! ab_block (view_buffer v1) = None ∧
    ab_block (view_buffer v1) ≠ ab_block (view_buffer v2) ∧
    trace w2 = trace w ∧
    mem w2 !! ab_block (view_buffer v2) = mem w2 !! ab_block (view_buffer v1) ∧
    lock_word w2 v1 = Some Unlocked ∧ lock_word w2 v2 = Some Unlocked ∧
    (quiet env →
     ∃ w3, acquisition async fuel (VTypedArray v1) VUndefined env w2
           = (Ok (lock_handle (VTypedArray v1)), w3) ∧
       lock_word w3 v1 = Some Locked ∧ lock_word w3 v2 = Some Unlocked).
Proof.
  intros Hs. destruct s as [|c s']; [done|].
  destruct (withMutex_string_run c s' env w) as [Hv1 Hrun1].
  set (bytes := TextEncoder_encode (c :: s')) in *.
  set (size := (4 + length bytes)%nat) in *.
  set (block := bytes_of_int32 Unlocked ++ bytes ++
                replicate (ceil_div size 4 * 4 - size) x00) in *.
  set (l1 := fresh (dom (mem w))) in *.
  set (v1 := {| view_kind := Int32; view_buffer := {| ab_shared := true; ab_block := l1 |};
                view_offset := 0; view_length := ceil_div size 4 |}) in *.
  set (w1 := {| mem := <[l1 := block]> (mem w); trace := trace w |}) in *.
  destruct (withMutex_string_run c s' env w1) as [Hv2 Hrun2].
  fold bytes size block in Hv2, Hrun2.
  set (l2 := fresh (dom (mem w1))) in *.
  set (v2 := {| view_kind := Int32; view_buffer := {| ab_shared := true; ab_block := l2 |};
                view_offset := 0; view_length := ceil_div size 4 |}) in *.
  set (w2 := {| mem := <[l2 := block]> (mem w1); trace := trace w1 |}) in *.
  assert (Hfresh1 : mem w !! l1 = None) by apply not_elem_of_dom, is_fresh.
  assert (Hfresh2 : mem w1 !! l2 = None) by apply not_elem_of_dom, is_fresh.
  assert (Hne : l1 ≠ l2).
  { intros Heq. unfold w1 in Hfresh2. cbn [mem] in Hfresh2.
    by rewrite <- Heq, lookup_insert_block in Hfresh2. }
  assert (Hpos : (0 < ceil_div size 4)%nat) by (destruct Hv1 as (_ & _ & H & _); exact H).
  assert (Hword2 : lock_word w2 v2 = Some Unlocked).
  { unfold lock_word, w2. cbn [mem]. by apply (load_int32_insert_head _ v2). }
  assert (Hword0 : load_int32 (mem w1) v1 0 = Some Unlocked).
  { unfold w1. cbn [mem]. by apply (load_int32_insert_head _ v1). }
  assert (Hword1 : lock_word w2 v1 = Some Unlocked).
  { unfold lock_word, w2. cbn [mem].
    rewrite load_int32_insert_fresh; [done|done|by rewrite Hword0]. }
  exists v1, w1, v2, w2. repeat (split; [done|]).
  split.
  { unfold w2, w1. cbn [mem view_buffer ab_block v1 v2].
    rewrite lookup_insert_block, lookup_insert_ne by done.
    by rewrite lookup_insert_block. }
  split; [done|]. split; [done|].
  intros Hq. eexists. split; [by apply free_lock_run|].
  unfold lock_word. cbn [mem]. split.
  - apply load_store_int32; [|unfold Locked; lia].
    apply lockable_load. unfold lock_word in Hword1. by rewrite Hword1.
  - rewrite load_store_int32_other by (cbn; congruence). exact Hword2.
Qed.

Lemma withMutex_string_witness :
  ∃ v1 w1 v2 w2,
    withMutex (js "same-name") still_environment empty_world
    = (Ok (mutex_object (VTypedArray v1)), w1) ∧
    withMutex (js "same-name") still_environment w1
    = (Ok (mutex_object (VTypedArray v2)), w2) ∧
    valid_buffer (VTypedArray v1) v1 ∧ valid_buffer (VTypedArray v2) v2 ∧
    mem empty_world !! ab_block (view_buffer v1) = None ∧
    ab_block (view_buffer v1) ≠ ab_block (view_buffer v2) ∧
    trace w2 = trace empty_world ∧
    mem w2 !! ab_block (view_buffer v2) = mem w2 !! ab_block (view_buffer v1) ∧
    lock_word w2 v1 = Some Unlocked ∧ lock_word w2 v2 = Some Unlocked ∧
    (quiet still_environment →
     ∃ w3, acquisition true 0 (VTypedArray v1) VUndefined still_environment w2
           = (Ok (lock_handle (VTypedArray v1)), w3) ∧
       lock_word w3 v1 = Some Locked ∧ lock_word w3 v2 = Some Unlocked).
Proof.
  apply (withMutex_string_is_fresh_each_time (jsstring_of_string "same-name") true 0
           still_environment empty_world).
  discriminate.
Defined.

(** ** Timeouts and the clock *)



Lemma clock_monotone_le env n n' :
  clock_monotone env → (n ≤ n')%nat → env_clock env n ≤ env_clock env n'.
Proof.
  intros Hc Hle. induction Hle as [|n' _ IH]; [lia|]. specialize (Hc n'). lia.
Qed.











(** ** A lock word that is neither Unlocked nor Locked *)

(** X17: [withMutex] takes the buffer it is given as it is, without a
    look at its first element.  When that element holds a value that is
    neither Unlocked nor Locked and nobody else acts, the mutex reads as
    not locked, yet it cannot be acquired, whatever the timeout; [unlock]
    throws NotLocked and the release of a handle does nothing; and none of
    these operations changes the memory. *)
Theorem foreign_lock_word_is_stuck async fuel buffer v timeoutMs z env w :
  quiet env → valid_buffer buffer v →
  lock_word w v = Some z → z ≠ Unlocked → z ≠ Locked →
  withMutex buffer env w = (Ok (mutex_object buffer), w) ∧
  (isLocked buffer env w).1 = Ok (VBoolean false) ∧
  (∀ handle, (acquisition async fuel buffer timeoutMs env w).1 ≠ Ok handle) ∧
  (unlock buffer false env w).1 = Throw (MutexError not_locked_message) ∧
  (unlock buffer true env w).1 = Ok VUndefined ∧
  mem (isLocked buffer env w).2 = mem w ∧
  mem (acquisition async fuel buffer timeoutMs env w).2 = mem w ∧
  mem (unlock buffer false env w).2 = mem w ∧
  mem (unlock buffer true env w).2 = mem w.
Proof.
  intros Hq Hv Hword Hu Hlk.
  assert (Hl : lockable (mem w) v) by (apply lockable_load; unfold lock_word in Hword; by rewrite Hword).
  unfold lock_word in Hword.
  split; [by apply (withMutex_buffer _ v)|].
  destruct (isLocked_run buffer v env w Hv Hl) as (cur & Hcur & ->).
  rewrite interfered_quiet in Hcur |- * by done.
  rewrite Hword in Hcur. injection Hcur as <-.
  split; [cbn [fst]; by rewrite (proj2 (Z.eqb_neq z Locked) Hlk)|].
  assert (Hacq : (∀ handle, (acquisition async fuel buffer timeoutMs env w).1 ≠ Ok handle) ∧
                 mem (acquisition async fuel buffer timeoutMs env w).2 = mem w).
  { destruct (acquisition async fuel buffer timeoutMs env w) as [r w'] eqn:H. cbn [fst snd].
    assert (Hr : ∀ handle, r ≠ Ok handle).
    { intros handle ->.
      apply acquisition_acquired_memory in H as (v' & pre & now & Hv' & _ & _ & _ & Hld & _).
      destruct Hv as (-> & _), Hv' as ([= <-] & _).
      rewrite replay_quiet, Hword in Hld by done. by injection Hld. }
    split; [done|].
    apply acquisition_env_steps in H as (evs & _ & -> & _); [|done].
    by apply replay_quiet. }
  destruct Hacq as [Hnever Hmem]. split; [done|].
  destruct (unlock_run buffer v false env w Hv Hl) as (old & Hold & Hfalse).
  destruct (unlock_run buffer v true env w Hv Hl) as (old' & Hold' & Htrue).
  rewrite interfered_quiet in Hold, Hold', Hfalse, Htrue by done.
  rewrite Hword in Hold, Hold'. injection Hold as <-. injection Hold' as <-.
  rewrite (proj2 (Z.eqb_neq z Locked) Hlk) in Hfalse, Htrue.
  by rewrite Hfalse, Htrue.
Qed.

Lemma foreign_lock_word_witness :
  let w := {| mem := {[ 1%positive := bytes_of_int32 7 ]}; trace := [] |} in
  withMutex sample_buffer still_environment w = (Ok (mutex_object sample_buffer), w) ∧
  (isLocked sample_buffer still_environment w).1 = Ok (VBoolean false) ∧
  (∀ handle, (acquisition true 3 sample_buffer (VNumber (Finite 2)) still_environment w).1
             ≠ Ok handle) ∧
  (unlock sample_buffer false still_environment w).1 = Throw (MutexError not_locked_message) ∧
  (unlock sample_buffer true still_environment w).1 = Ok VUndefined ∧
  mem (isLocked sample_buffer still_environment w).2 = mem w ∧
  mem (acquisition true 3 sample_buffer (VNumber (Finite 2)) still_environment w).2 = mem w ∧
  mem (unlock sample_buffer false still_environment w).2 = mem w ∧
  mem (unlock sample_buffer true still_environment w).2 = mem w.
Proof.
  intros w.
  apply (foreign_lock_word_is_stuck true 3 sample_buffer sample_view (VNumber (Finite 2)) 7
           still_environment w).
  - apply still_environment_quiet.
  - repeat split; simpl; lia.
  - vm_compute. reflexivity.
  - discriminate.
  - discriminate.
Defined.

(** ** The errors of the operations *)

Lemma loop_no_range_error async fuel buffer v T start env w r w' :
  lockable (mem w) v →
  acquisition_loop async fuel buffer v T start env w = (r, w') →
  ∀ msg, r ≠ Throw (RangeError msg).
Proof.
  revert w. induction fuel as [|fuel IH]; intros w Hl H.
  { rewrite acquisition_loop_zero in H. by injection H as <- <-. }
  rewrite acquisition_loop_succ in H.
  destruct (iteration _ buffer v T start env w) as [ri w1] eqn:Hit.
  apply iteration_shape in Hit as (Hl1 & Hr & _); [|apply wait_of_contract|done].
  destruct ri as [[h|]| |].
  - by injection H as <- <-.
  - by eapply IH.
  - injection H as <- <-. intros msg [= ->]. by eapply Hr.
  - by injection H as <- <-.
Qed.

(** X18: [lock] and [lockSync] fail with a [MutexError] and nothing
    else, as long as the lock word of a valid buffer is in memory: for an
    invalid buffer, for an invalid timeout, by a timeout (the message then
    names the timeout that was given) or by an interruption. *)
Theorem acquisition_fails_with_MutexError async fuel buffer timeoutMs env w e w' :
  (∀ v, valid_buffer buffer v → lockable (mem w) v) →
  acquisition async fuel buffer timeoutMs env w = (Throw e, w') →
  ∃ msg, e = MutexError msg ∧
    (invalid_buffer_message msg ∨ msg = invalid_timeout_message ∨
     msg = interrupted_message ∨
     ∃ T, default_param timeoutMs (VNumber Infinity) = VNumber T ∧
          msg = timed_out_message T).
Proof.
  intros Hmem. rewrite acquisition_unfold. unfold bind. intros H.
  destruct (validateMutexBuffer buffer env w) as [[v| |] w0] eqn:Hval;
    apply validateMutexBuffer_inv in Hval as [-> Hval]; [| |discriminate].
  2:{ destruct Hval as [(? & [=] & _)|(msg & [= ->] & Hmsg)].
      injection H as <- _. eauto. }
  destruct Hval as [(v' & [= <-] & Hv)|(msg & [=] & _)].
  pose proof (Hmem v Hv) as Hl.
  destruct (validateTimeout _ env w) as [[T| |] w0] eqn:Htm;
    apply validateTimeout_inv in Htm as [-> Htm]; [| |discriminate].
  2:{ destruct Htm as [(_ & [= ->])|(_ & ? & _ & [=])].
      injection H as <- _. eauto. }
  destruct Htm as [(_ & [=])|(_ & n & HT & [= <-])].
  unfold Date_now, Atomics_compareExchange in H.
  set (w1 := {| mem := interfered env w; trace := _ |}) in *.
  assert (Hl1 : lockable (mem w1) v) by (by apply lockable_interfered).
  destruct (proj1 (lockable_load _ _) (lockable_interfered env w1 v Hl1)) as [old Hold].
  rewrite Hold in H. destruct (old =? Unlocked); [discriminate|].
  assert (Hrange : ∀ msg, @Throw value e ≠ Throw (RangeError msg)).
  { eapply loop_no_range_error; [|exact H]. by apply lockable_interfered. }
  apply loop_throws_cases in H as [-> | [-> | ->]]; [eauto 8|eauto 8|].
  by destruct (Hrange "Invalid atomic access index").
Qed.

Lemma acquisition_fails_witness :
  ∃ msg, MutexError (timed_out_message (Finite 10)) = MutexError msg ∧
    (invalid_buffer_message msg ∨ msg = invalid_timeout_message ∨
     msg = interrupted_message ∨
     ∃ T, default_param (VNumber (Finite 10)) (VNumber Infinity) = VNumber T ∧
          msg = timed_out_message T).
Proof.
  apply (acquisition_fails_with_MutexError false 1 sample_buffer (VNumber (Finite 10))
           still_environment held_world (MutexError (timed_out_message (Finite 10)))
           (acquisition false 1 sample_buffer (VNumber (Finite 10))
              still_environment held_world).2).
  - intros v (Hb & _). injection Hb as <-.
    exists (bytes_of_int32 Locked). repeat split; simpl; lia.
  - vm_compute. reflexivity.
Defined.

(** ** A timeout of zero on a host that polls *)

Lemma waitAsync_fallback_elapsed fuel buffer index value rem env w :
  env_native_waitAsync env = false → clock_monotone env →
  (1 ≤ fuel)%nat → rem ≤ 0 →
  waitAsync fuel buffer index value (Finite rem) env w =
  (Ok "timed-out",
   {| mem := replay env (length (trace w)) 2 (mem w);
      trace := trace w ++ [EvNow (env_clock env (length (trace w)));
                           EvNow (env_clock env (S (length (trace w))))] |}).
Proof.
  intros Hhost Hc Hfuel Hrem. destruct fuel as [|fuel]; [lia|].
  unfold waitAsync. rewrite Hhost.
  unfold waitAsync_fallback, bind. cbn [number_eq]. unfold Date_now, ret at 1.
  cbn [number_add waitAsync_loop]. unfold bind, Date_now. cbn [trace mem].
  rewrite length_app. cbn [length]. rewrite Nat.add_1_r.
  pose proof (Hc (length (trace w))) as Hle.
  unfold number_ge, number_le, number_lt.
  destruct (Z.ltb_spec (env_clock env (S (length (trace w))))
              (env_clock env (length (trace w)) + rem)) as [Hlt|_]; [lia|].
  cbn [negb]. unfold ret. rewrite <- app_assoc. f_equal. f_equal.
  unfold interfered. cbn [mem trace replay].
  by rewrite length_app, Nat.add_1_r.
Qed.

(** X19: on a host without [Atomics.waitAsync], [waitAsync] with a
    timeout of zero (or below) answers 'timed-out' after two clock readings
    and nothing else: it tests the deadline before it looks at the element,
    so that it never waits and never compares the value (it does not even
    notice an index outside the buffer), where the native
    [Atomics.waitAsync] answers 'not-equal' at once for a value that
    differs.  The clock is assumed not to go back. *)
Theorem waitAsync_fallback_zero_timeout fuel buffer index value rem env w :
  env_native_waitAsync env = false → clock_monotone env →
  (1 ≤ fuel)%nat → rem ≤ 0 →
  ∃ w', waitAsync fuel buffer index value (Finite rem) env w = (Ok "timed-out", w') ∧
    events_since w w' = [EvNow (env_clock env (length (trace w)));
                         EvNow (env_clock env (S (length (trace w))))] ∧
    mem w' = replay env (length (trace w)) 2 (mem w) ∧
    ∀ env', env_native_waitAsync env' = true →
            (∃ current, load_int32 (interfered env' w) buffer index = Some current ∧
                        current ≠ value) →
            (waitAsync fuel buffer index value (Finite rem) env' w).1 = Ok "not-equal".
Proof.
  intros Hhost Hc Hfuel Hrem.
  eexists. split; [by apply waitAsync_fallback_elapsed|].
  split; [by apply events_since_app|]. split; [done|].
  intros env' Hnative (current & Hcur & Hne).
  unfold waitAsync. rewrite Hnative. unfold Atomics_waitAsync, wait_primitive.
  rewrite Hcur. cbn [fst]. by rewrite (proj2 (Z.eqb_neq current value) Hne).
Qed.

Lemma waitAsync_fallback_zero_witness :
  ∃ w', waitAsync 1 sample_view 0 Locked (Finite 0) still_polling_environment free_world
        = (Ok "timed-out", w') ∧
    events_since free_world w'
    = [EvNow (env_clock still_polling_environment (length (trace free_world)));
       EvNow (env_clock still_polling_environment (S (length (trace free_world))))] ∧
    mem w' = replay still_polling_environment (length (trace free_world)) 2 (mem free_world) ∧
    ∀ env', env_native_waitAsync env' = true →
            (∃ current, load_int32 (interfered env' free_world) sample_view 0 = Some current ∧
                        current ≠ Locked) →
            (waitAsync 1 sample_view 0 Locked (Finite 0) env' free_world).1 = Ok "not-equal".
Proof.
  apply (waitAsync_fallback_zero_timeout 1 sample_view 0 Locked 0
           still_polling_environment free_world).
  - reflexivity.
  - intros n. simpl. lia.
  - lia.
  - lia.
Defined.

(** X20: on a host without [Atomics.waitAsync], [lock] with a timeout of
    zero is a try-lock.  On a valid buffer whose lock word is in memory, and
    with a clock that does not go back, it ends within one turn of its loop
    without ever waiting: after at most six operations (clock readings and
    at most two compare-and-swaps) it returns the handle of the buffer or
    fails with the timeout error. *)
Theorem zero_timeout_lock_is_a_try_lock fuel buffer v env w :
  env_native_waitAsync env = false → clock_monotone env →
  valid_buffer buffer v → lockable (mem w) v → (2 ≤ fuel)%nat →
  ∃ r w', lock fuel buffer (VNumber (Finite 0)) env w = (r, w') ∧
    (r = Ok (lock_handle buffer) ∨
     r = Throw (MutexError (timed_out_message (Finite 0)))) ∧
    trace w' = trace w ++ events_since w w' ∧
    Forall (λ e, is_wait e = false) (events_since w w') ∧
    (length (events_since w w') ≤ 6)%nat.
Proof.
  intros Hhost Hc Hv Hl Hfuel. destruct fuel as [|fuel]; [lia|].
  change lock with (acquisition true). rewrite acquisition_unfold. unfold bind.
  rewrite (validateMutexBuffer_ok _ _ _ _ Hv).
  change (validateTimeout _ env w) with (Ok (Finite 0), w).
  unfold Date_now, Atomics_compareExchange.
  set (start := env_clock env (length (trace w))).
  set (w1 := {| mem := interfered env w; trace := trace w ++ [EvNow start] |}).
  assert (Hl1 : lockable (mem w1) v) by (by apply lockable_interfered).
  destruct (proj1 (lockable_load _ _) (lockable_interfered env w1 v Hl1)) as [old ->].
  set (cas0 := EvCompareExchange v 0 Unlocked Locked old).
  assert (Hdone : ∀ (r : result value) m evs,
            r = Ok (lock_handle buffer) ∨
            r = Throw (MutexError (timed_out_message (Finite 0))) →
            Forall (λ e, is_wait e = false) evs → (length evs ≤ 6)%nat →
            ∃ r' w', (r, {| mem := m; trace := trace w ++ evs |}) = (r', w') ∧
              (r' = Ok (lock_handle buffer) ∨
               r' = Throw (MutexError (timed_out_message (Finite 0)))) ∧
              trace w' = trace w ++ events_since w w' ∧
              Forall (λ e, is_wait e = false) (events_since w w') ∧
              (length (events_since w w') ≤ 6)%nat).
  { intros r m evs Hr Hall Hlen. eexists r, _. split; [done|].
    rewrite (events_since_app w _ evs) by done. done. }
  destruct (old =? Unlocked).
  { unfold ret. unfold w1. cbn [trace]. rewrite <- app_assoc.
    apply Hdone; [by left|by repeat constructor|simpl; lia]. }
  set (w2 := {| mem := interfered env w1; trace := trace w1 ++ [cas0] |}).
  assert (Ht2 : trace w2 = trace w ++ [EvNow start; cas0])
    by (unfold w2, w1; cbn [trace]; by rewrite <- app_assoc).
  assert (Hl2 : lockable (mem w2) v) by (by apply lockable_interfered).
  rewrite acquisition_loop_succ, iteration_run. cbv zeta.
  set (now := env_clock env (length (trace w2))).
  assert (Hmono : start ≤ now).
  { apply clock_monotone_le; [done|]. rewrite Ht2, length_app. lia. }
  set (w3 := {| mem := interfered env w2; trace := trace w2 ++ [EvNow now] |}).
  unfold deadline_passed, remaining_time.
  cbn [number_neq number_eq number_sub number_gt number_lt negb andb Math_max].
  destruct (Z.ltb_spec 0 (now - start)) as [Hpassed|Hnot].
  { unfold w3. cbn [trace]. rewrite Ht2, <- app_assoc.
    apply Hdone; [by right|by repeat constructor|simpl; lia]. }
  assert (Hl3 : lockable (mem w3) v) by (by apply lockable_interfered).
  destruct (proj1 (lockable_load _ _) (lockable_interfered env w3 v Hl3)) as [old' ->].
  set (cas1 := EvCompareExchange v 0 Unlocked Locked old').
  assert (Ht3 : trace w3 = trace w ++ [EvNow start; cas0; EvNow now])
    by (unfold w3; cbn [trace]; by rewrite Ht2, <- app_assoc).
  destruct (old' =? Unlocked).
  { cbn [trace]. rewrite Ht3, <- app_assoc.
    apply Hdone; [by left|by repeat constructor|simpl; lia]. }
  cbn [wait_of].
  rewrite waitAsync_fallback_elapsed by (done || lia).
  cbn [String.eqb Ascii.eqb Bool.eqb andb]. cbn [trace].
  rewrite Ht3, <- !app_assoc.
  apply Hdone; [by right|by repeat constructor|simpl; lia].
Qed.

Lemma zero_timeout_lock_witness :
  ∃ r w', lock 2 sample_buffer (VNumber (Finite 0)) still_polling_environment held_world
          = (r, w') ∧
    (r = Ok (lock_handle sample_buffer) ∨
     r = Throw (MutexError (timed_out_message (Finite 0)))) ∧
    trace w' = trace held_world ++ events_since held_world w' ∧
    Forall (λ e, is_wait e = false) (events_since held_world w') ∧
    (length (events_since held_world w') ≤ 6)%nat.
Proof.
  apply (zero_timeout_lock_is_a_try_lock 2 sample_buffer sample_view
           still_polling_environment held_world).
  - reflexivity.
  - intros n. simpl. lia.
  - repeat split; simpl; lia.
  - exists (bytes_of_int32 Locked). repeat split; simpl; lia.
  - lia.
Defined.

(** ** Guarded execution on a free lock *)

(** X21: [rapidGuard] on a mutex whose lock is free, with nobody else
    acting: the lock is taken at once, for every valid timeout; the function
    runs with the lock word Locked; and when the function leaves the memory
    as it found it, [rapidGuard] ends as the function did (with its value or
    with what it threw) after the release and its notification, in a memory
    that is byte for byte the one before the call. *)
Theorem rapidGuard_runs_under_the_lock uf fuel buffer v fn timeoutMs env w :
  quiet env → valid_buffer buffer v → lock_word w v = Some Unlocked →
  invalid_timeout (default_param timeoutMs (VNumber Infinity)) = false →
  is_callable fn = true →
  ∃ w1,
    lock fuel buffer (default_param timeoutMs (VNumber Infinity)) env w
    = (Ok (lock_handle buffer), w1) ∧
    lock_word w1 v = Some Locked ∧
    events_since w w1 = [EvNow (env_clock env (length (trace w)));
                         EvCompareExchange v 0 Unlocked Locked Unlocked] ∧
    ∀ r w2, call uf fuel fn [] env w1 = (r, w2) → r ≠ OutOfFuel → mem w2 = mem w1 →
      rapidGuard uf fuel (mutex_object buffer) fn timeoutMs env w =
      (r, {| mem := mem w;
             trace := trace w2 ++ [EvCompareExchange v 0 Locked Unlocked Locked;
                                   EvNotify v 0] |}).
Proof.
  intros Hq Hv Hword Ht Hf.
  assert (Hl : lockable (mem w) v) by (apply lockable_load; unfold lock_word in Hword; by rewrite Hword).
  destruct (validateTimeout_number _ Ht) as [T HT].
  set (w1 := {| mem := store_int32 (mem w) v 0 Locked;
                trace := trace w ++ [EvNow (env_clock env (length (trace w)));
                                     EvCompareExchange v 0 Unlocked Locked Unlocked] |}).
  assert (Hlock : lock fuel buffer (default_param timeoutMs (VNumber Infinity)) env w
                  = (Ok (lock_handle buffer), w1)).
  { change lock with (acquisition true). rewrite acquisition_unfold. unfold bind.
    rewrite (validateMutexBuffer_ok _ _ _ _ Hv).
    replace (default_param (default_param timeoutMs (VNumber Infinity)) (VNumber Infinity))
      with (default_param timeoutMs (VNumber Infinity)) by (by destruct timeoutMs).
    unfold validateTimeout. rewrite Ht, HT. unfold ret at 1.
    unfold Date_now, Atomics_compareExchange.
    rewrite interfered_after_one, replay_quiet by done.
    unfold lock_word in Hword. rewrite Hword. cbn. unfold w1.
    by rewrite <- app_assoc. }
  assert (Hw1 : lock_word w1 v = Some Locked).
  { unfold lock_word, w1. cbn [mem]. apply load_store_int32; [done|unfold Locked; lia]. }
  exists w1. split; [done|]. split; [done|]. split; [by apply events_since_app|].
  intros r w2 Hcall Hr Hmem.
  unfold rapidGuard. cbv zeta.
  change (truthy (mutex_object buffer)) with true.
  change (typeof (property (mutex_object buffer) (KString "lock"))) with "function".
  unfold is_callable in Hf. rewrite Hf.
  cbn [String.eqb Ascii.eqb Bool.eqb andb negb orb].
  change (call_method uf fuel (mutex_object buffer) (KString "lock")
            [default_param timeoutMs (VNumber Infinity)])
    with (lock fuel buffer (default_param timeoutMs (VNumber Infinity))).
  unfold bind. rewrite Hlock. unfold try_finally. rewrite Hcall, dispose_is_unlock.
  assert (Hw2 : lock_word w2 v = Some Locked) by (unfold lock_word; by rewrite Hmem).
  rewrite (held_lock_release_run buffer v true env w2 Hq Hv Hw2).
  rewrite Hmem. unfold w1. cbn [mem].
  rewrite store_store_int32, store_int32_same by done.
  by destruct r.
Qed.

Lemma rapidGuard_under_the_lock_witness :
  ∃ w1,
    lock 0 sample_buffer (default_param (VNumber (Finite 100)) (VNumber Infinity))
      still_environment free_world
    = (Ok (lock_handle sample_buffer), w1) ∧
    lock_word w1 sample_view = Some Locked ∧
    events_since free_world w1
    = [EvNow (env_clock still_environment (length (trace free_world)));
       EvCompareExchange sample_view 0 Unlocked Locked Unlocked] ∧
    ∀ r w2, call sample_user_function 0 (VFunction (CUser 0)) [] still_environment w1 = (r, w2) →
      r ≠ OutOfFuel → mem w2 = mem w1 →
      rapidGuard sample_user_function 0 (mutex_object sample_buffer) (VFunction (CUser 0))
        (VNumber (Finite 100)) still_environment free_world =
      (r, {| mem := mem free_world;
             trace := trace w2 ++ [EvCompareExchange sample_view 0 Locked Unlocked Locked;
                                   EvNotify sample_view 0] |}).
Proof.
  apply (rapidGuard_runs_under_the_lock sample_user_function 0 sample_buffer sample_view
           (VFunction (CUser 0)) (VNumber (Finite 100)) still_environment free_world).
  - apply still_environment_quiet.
  - repeat split; simpl; lia.
  - vm_compute. reflexivity.
  - reflexivity.
  - reflexivity.
Defined.
